(** * oggopus: a shallow embedding of the Ogg page reader and the Opus
      packet reader (oggreader.go, opusreader.go), and the properties
      of the specification checked against it.

    Modelling conventions.
    - A Go [byte]/[uint8] read from the input is a [Byte.byte]; numbers
      computed from bytes are [Z].  Go's [int] is taken to be 64 bits
      wide and its arithmetic is written with [wrap64].
    - A Go slice is its visible elements together with the content of
      the backing array between its length and its capacity
      ([spare]): indexing is checked against the length, re-slicing
      against the capacity, as the language defines.
    - The input [io.Reader] is a finite list of bytes still to be read
      ([io.ReadFull] over an in-memory or file reader).
    - A method with a pointer receiver is a computation in a state
      monad over the receiver; a Go [error] result is [Err], a run-time
      panic is [Panic].  The two recursive [NextPacket] methods take a
      fuel argument; the entry points supply enough of it. *)

From Stdlib Require Import ZArith Lia Strings.Byte Strings.String.
From stdpp Require Import base list.

Local Open Scope Z_scope.

(** ** Go values *)

Module Go.

Definition byte_to_Z (b : byte) : Z := Z.of_N (Byte.to_N b).

Definition wrap8 (z : Z) : Z := z mod 2 ^ 8.
Definition wrap32 (z : Z) : Z := z mod 2 ^ 32.

(** Two's complement reduction to a signed 64-bit [int]/[int64]. *)
Definition wrap64 (z : Z) : Z := (z + 2 ^ 63) mod 2 ^ 64 - 2 ^ 63.

Definition int_add (a b : Z) : Z := wrap64 (a + b).
Definition int_sub (a b : Z) : Z := wrap64 (a - b).
Definition int_mul (a b : Z) : Z := wrap64 (a * b).
(** Go's [/] truncates towards zero. *)
Definition int_div (a b : Z) : Z := wrap64 (Z.quot a b).
Definition int_shl (a : Z) (n : Z) : Z := wrap64 (Z.shiftl a n).

(** [binary.LittleEndian.UintN]: the unsigned value of a byte string. *)
Fixpoint le_uint (bs : list byte) : Z :=
  match bs with
  | [] => 0
  | b :: bs' => byte_to_Z b + 256 * le_uint bs'
  end.

Inductive error : Type :=
  | io_EOF
  | io_ErrUnexpectedEOF
  | errors_New (msg : string).

Inductive panic : Type :=
  | index_out_of_range
  | slice_bounds_out_of_range
  | nil_dereference.

Inductive outcome (A : Type) : Type :=
  | Ok (a : A)
  | Err (e : error)
  | Panic (p : panic)
  | OutOfFuel.
Arguments Ok {A} a.
Arguments Err {A} e.
Arguments Panic {A} p.
Arguments OutOfFuel {A}.

(** *** Slices *)

Record slice : Type := Slice { elems : list byte; spare : list byte }.

Definition nil_slice : slice := Slice [] [].
Definition len (s : slice) : nat := length (elems s).
Definition backing (s : slice) : list byte := elems s ++ spare s.
Definition cap (s : slice) : nat := length (backing s).

(** [s[i]] *)
Definition index (s : slice) (i : nat) : outcome byte :=
  match elems s !! i with
  | Some b => Ok b
  | None => Panic index_out_of_range
  end.

(** [s[lo:hi]]: the bounds are checked against the capacity. *)
Definition reslice (s : slice) (lo hi : nat) : outcome slice :=
  if (lo <=? hi)%nat && (hi <=? cap s)%nat
  then Ok (Slice (take (hi - lo) (drop lo (backing s))) (drop hi (backing s)))
  else Panic slice_bounds_out_of_range.

(** [a[lo:hi]] on a freshly made buffer [a] (length = capacity), with
    bounds that are in range by construction. *)
Definition subslice (a : list byte) (lo hi : nat) : slice :=
  Slice (take (hi - lo) (drop lo a)) (drop hi a).

(** *** State and error monad *)

Definition M (St A : Type) : Type := St -> outcome A * St.

Definition ret {St A} (a : A) : M St A := fun s => (Ok a, s).

Definition bind {St A B} (m : M St A) (k : A -> M St B) : M St B :=
  fun s =>
    match m s with
    | (Ok a, s') => k a s'
    | (Err e, s') => (Err e, s')
    | (Panic p, s') => (Panic p, s')
    | (OutOfFuel, s') => (OutOfFuel, s')
    end.

Definition lift {St A} (o : outcome A) : M St A := fun s => (o, s).
Definition fail {St A} (msg : string) : M St A := lift (Err (errors_New msg)).
Definition get {St} : M St St := fun s => (Ok s, s).
Definition modify {St} (f : St -> St) : M St unit := fun s => (Ok tt, f s).

End Go.

Import Go.

Declare Scope go_scope.
Delimit Scope go_scope with go.
Notation "x <- m ;; k" := (bind m (fun x => k))
  (at level 100, m at next level, right associativity) : go_scope.
Notation "m ;;; k" := (bind m (fun _ => k))
  (at level 100, right associativity) : go_scope.
Local Open Scope go_scope.

(** ** opusreader.go: the TOC interpreter *)

Module TOC.

(** [getSamplesPerFrame]; [data[0]] panics on an empty slice. *)
Definition getSamplesPerFrame (data : slice) : outcome Z :=
  let fs := 48000 in
  match index data 0 with
  | Ok d0 =>
      let b0 := byte_to_Z d0 in
      if negb (Z.land b0 0x80 =? 0) then
        let audiosize := Z.land (Z.shiftr b0 3) 0x3 in
        Ok (int_div (int_shl fs audiosize) 400)
      else if Z.land b0 0x60 =? 0x60 then
        if negb (Z.land b0 0x8 =? 0) then Ok (int_div fs 50)
        else Ok (int_div fs 100)
      else
        let audiosize := Z.land (Z.shiftr b0 3) 0x3 in
        if audiosize =? 3 then Ok (int_div (int_mul fs 60) 1000)
        else Ok (int_div (int_shl fs audiosize) 100)
  | Err e => Err e
  | Panic p => Panic p
  | OutOfFuel => OutOfFuel
  end.

(** [getFramesNumberInPacket] *)
Definition getFramesNumberInPacket (packet : slice) : outcome Z :=
  match index packet 0 with
  | Ok p0 =>
      let code := Z.land (byte_to_Z p0) 3 in
      if code =? 0 then Ok 1
      else if negb (code =? 3) then Ok 2
      else
        match index packet 1 with
        | Ok p1 => Ok (Z.land (byte_to_Z p1) 0x3F)
        | Err e => Err e
        | Panic p => Panic p
        | OutOfFuel => OutOfFuel
        end
  | Err e => Err e
  | Panic p => Panic p
  | OutOfFuel => OutOfFuel
  end.

End TOC.

(** ** oggreader.go *)

Module OGG.

Record OGGPageHeader : Type := mkHeader {
  CapturePattern : list byte;            (* [4]byte *)
  Version : byte;
  HeaderType : byte;
  AbsoluteGranulePosition : Z;           (* int64 *)
  BitStreamSerialNumber : Z;             (* uint32 *)
  SequenceNumber : Z;                    (* uint32 *)
  Checksum : Z;                          (* uint32 *)
  SegmentsNumber : byte
}.

(** The sizes and counts of a page are Go [int]s that stay below
    [255 * 255]; they are used as lengths and indices and kept in
    [nat]. *)
Record OGGPage : Type := mkPage {
  header : OGGPageHeader;                (* embedded OGGPageHeader *)
  page_initialized : bool;
  packets : list slice;
  packetsCount : nat;
  packetSizes : list nat;
  totalSize : nat;
  needsContinue : bool
}.

Record OGGReader : Type := mkReader {
  stream : list byte;
  bytesReadSuccesfully : Z;              (* int64 *)
  initialized : bool;
  CurrentPage : option OGGPage;          (* *OGGPage, nil = None *)
  lastPacket : bool;
  packetIndex : nat;
  lastPagePosition : Z                   (* int64 *)
}.

Definition headerFlagContinuedPacket : Z := 1.
Definition headerFlagBeginningOfStream : Z := 2.
Definition headerFlagEndOfStream : Z := 4.

Definition capturePattern : list byte := ["O"; "g"; "g"; "S"]%byte.

(** [new(OGGPage)]: the zero value. *)
Definition new_OGGPage : OGGPage :=
  mkPage (mkHeader [x00; x00; x00; x00]%byte x00 x00 0 0 0 0 x00)
         false [] 0 [] 0 false.

(** [NewOggReader], for a reader that is not nil. *)
Definition NewOggReader (input : list byte) : OGGReader :=
  mkReader input 0 false None false 0 0.

(** *** Field updates *)

Definition set_stream (v : list byte) (o : OGGReader) : OGGReader :=
  mkReader v (bytesReadSuccesfully o) (initialized o) (CurrentPage o)
           (lastPacket o) (packetIndex o) (lastPagePosition o).
Definition set_bytesReadSuccesfully (v : Z) (o : OGGReader) : OGGReader :=
  mkReader (stream o) v (initialized o) (CurrentPage o)
           (lastPacket o) (packetIndex o) (lastPagePosition o).
Definition set_initialized (v : bool) (o : OGGReader) : OGGReader :=
  mkReader (stream o) (bytesReadSuccesfully o) v (CurrentPage o)
           (lastPacket o) (packetIndex o) (lastPagePosition o).
Definition set_CurrentPage (v : option OGGPage) (o : OGGReader) : OGGReader :=
  mkReader (stream o) (bytesReadSuccesfully o) (initialized o) v
           (lastPacket o) (packetIndex o) (lastPagePosition o).
Definition set_lastPacket (v : bool) (o : OGGReader) : OGGReader :=
  mkReader (stream o) (bytesReadSuccesfully o) (initialized o) (CurrentPage o)
           v (packetIndex o) (lastPagePosition o).
Definition set_packetIndex (v : nat) (o : OGGReader) : OGGReader :=
  mkReader (stream o) (bytesReadSuccesfully o) (initialized o) (CurrentPage o)
           (lastPacket o) v (lastPagePosition o).
Definition set_lastPagePosition (v : Z) (o : OGGReader) : OGGReader :=
  mkReader (stream o) (bytesReadSuccesfully o) (initialized o) (CurrentPage o)
           (lastPacket o) (packetIndex o) v.

Definition set_header (v : OGGPageHeader) (p : OGGPage) : OGGPage :=
  mkPage v (page_initialized p) (packets p) (packetsCount p)
         (packetSizes p) (totalSize p) (needsContinue p).
Definition set_page_initialized (v : bool) (p : OGGPage) : OGGPage :=
  mkPage (header p) v (packets p) (packetsCount p)
         (packetSizes p) (totalSize p) (needsContinue p).
Definition set_packets (v : list slice) (p : OGGPage) : OGGPage :=
  mkPage (header p) (page_initialized p) v (packetsCount p)
         (packetSizes p) (totalSize p) (needsContinue p).
Definition set_walk (count : nat) (sizes : list nat) (total : nat)
    (p : OGGPage) : OGGPage :=
  mkPage (header p) (page_initialized p) (packets p) count sizes total
         (needsContinue p).
Definition set_needsContinue (v : bool) (p : OGGPage) : OGGPage :=
  mkPage (header p) (page_initialized p) (packets p) (packetsCount p)
         (packetSizes p) (totalSize p) v.

(** Dereferencing [o.CurrentPage]. *)
Definition getPage : M OGGReader OGGPage :=
  fun o =>
    match CurrentPage o with
    | Some p => (Ok p, o)
    | None => (Panic nil_dereference, o)
    end.

Definition modify_page (f : OGGPage -> OGGPage) : M OGGReader unit :=
  page <- getPage ;; modify (set_CurrentPage (Some (f page))).

(** [io.ReadFull(o.stream, make([]byte, n))]: all [n] bytes or an error;
    nothing is read for [n = 0]. *)
Definition ReadFull (n : nat) : M OGGReader (list byte) :=
  fun o =>
    if (n =? 0)%nat then (Ok [], o)
    else
      match stream o with
      | [] => (Err io_EOF, o)
      | _ =>
          if (n <=? length (stream o))%nat
          then (Ok (take n (stream o)), set_stream (drop n (stream o)) o)
          else (Err io_ErrUnexpectedEOF, set_stream [] o)
      end.

Definition advance (n : Z) : M OGGReader unit :=
  modify (fun o => set_bytesReadSuccesfully
                     (wrap64 (bytesReadSuccesfully o + n)) o).

(** [binary.Read(bytes.NewReader(data), binary.LittleEndian, &header)]
    on the 27 bytes of the fixed header; the struct is 27 bytes wide,
    so the call does not fail. *)
Definition binary_Read (data : list byte) : OGGPageHeader :=
  mkHeader (take 4 data)
           (nth 4 data x00)
           (nth 5 data x00)
           (wrap64 (le_uint (take 8 (drop 6 data))))
           (le_uint (take 4 (drop 14 data)))
           (le_uint (take 4 (drop 18 data)))
           (le_uint (take 4 (drop 22 data)))
           (nth 26 data x00).

Definition bytes_eqb (a b : list byte) : bool :=
  bool_decide (map Byte.to_N a = map Byte.to_N b).

(** The loop over the segment table: the state is
    [(size, totalSize, packetsCount, packetSizes)]. *)
Definition walk_step (st : nat * nat * nat * list nat) (s : byte)
    : nat * nat * nat * list nat :=
  let '(size, total, count, sizes) := st in
  let size := (size + N.to_nat (Byte.to_N s))%nat in
  let total := (total + N.to_nat (Byte.to_N s))%nat in
  if byte_to_Z s <? 0xFF
  then (0%nat, total, S count, sizes ++ [size])
  else (size, total, count, sizes).

Definition walk (segmentTable : list byte) : nat * nat * nat * list nat :=
  fold_left walk_step segmentTable (0%nat, 0%nat, 0%nat, []).

Definition readPageHeader : M OGGReader unit :=
  data <- ReadFull 27 ;;
  advance 27 ;;;
  modify_page (set_header (binary_Read data)) ;;;
  page <- getPage ;;
  if negb (bytes_eqb (CapturePattern (header page)) capturePattern)
  then fail "ogg: missing capture pattern"
  else if negb (byte_to_Z (Version (header page)) =? 0)
  then fail "ogg: unsupported version"
  else
    let n := SegmentsNumber (header page) in
    segmentTable <- ReadFull (N.to_nat (Byte.to_N n)) ;;
    advance (byte_to_Z n) ;;;
    modify_page (set_walk 0 [] 0) ;;;
    (let '(_, total, count, sizes) := walk segmentTable in
     modify_page (set_walk count sizes total)) ;;;
    last <- lift (index (Slice segmentTable [])
                        (Z.to_nat (wrap8 (byte_to_Z n - 1)))) ;;
    modify_page (set_needsContinue (byte_to_Z last =? 0xFF)).

(** The loop of [readPageContent]:
    [page.packets[i] = content[offset : offset+size]]. *)
Fixpoint slice_packets (content : slice) (sizes : list nat)
    (i offset : nat) (pkts : list slice) : outcome (list slice * nat) :=
  match sizes with
  | [] => Ok (pkts, offset)
  | size :: sizes' =>
      match reslice content offset (offset + size) with
      | Ok sl =>
          if (i <? length pkts)%nat
          then slice_packets content sizes' (S i) (offset + size)%nat
                             (<[i := sl]> pkts)
          else Panic index_out_of_range
      | Err e => Err e
      | Panic p => Panic p
      | OutOfFuel => OutOfFuel
      end
  end.

Definition readPageContent : M OGGReader unit :=
  page <- getPage ;;
  data <- ReadFull (totalSize page) ;;
  advance (Z.of_nat (totalSize page)) ;;;
  let content := Slice data [] in
  let pkts := replicate (packetsCount page + 1) nil_slice in
  r <- lift (slice_packets content (packetSizes page) 0 0 pkts) ;;
  let '(pkts, offset) := r in
  rest <- lift (reslice content offset (len content)) ;;
  if (packetsCount page <? length pkts)%nat
  then modify_page (set_packets (<[packetsCount page := rest]> pkts))
  else lift (Panic index_out_of_range).

Definition readPage : M OGGReader unit :=
  modify (set_CurrentPage (Some new_OGGPage)) ;;;
  readPageHeader ;;;
  readPageContent ;;;
  modify_page (set_page_initialized true).

Definition isFirst (p : OGGPage) : bool :=
  negb (Z.land (byte_to_Z (HeaderType (header p))) headerFlagBeginningOfStream =? 0).
Definition isLast (p : OGGPage) : bool :=
  negb (Z.land (byte_to_Z (HeaderType (header p))) headerFlagEndOfStream =? 0).
Definition isContinued (p : OGGPage) : bool :=
  negb (Z.land (byte_to_Z (HeaderType (header p))) headerFlagContinuedPacket =? 0).

(** [p.packets[i]] *)
Definition packet_at (p : OGGPage) (i : nat) : outcome slice :=
  match packets p !! i with
  | Some s => Ok s
  | None => Panic index_out_of_range
  end.

(** Lines 158-168 of [NextPacket]: the first page. *)
Definition first_page : M OGGReader unit :=
  o <- get ;;
  if negb (initialized o) then
    readPage ;;;
    modify (set_packetIndex 0) ;;;
    page <- getPage ;;
    (if isContinued page then modify (set_packetIndex 1) else ret tt) ;;;
    modify (set_initialized true)
  else ret tt.

Section Append.

(** Go leaves the capacity that [append] allocates unspecified:
    [growslice c n] is the content of the spare capacity behind the
    [n] elements of the array that replaces one of capacity [c]. *)
Variable growslice : nat -> nat -> list byte.

(** [append(s, xs...)] *)
Definition append (s : slice) (xs : list byte) : slice :=
  let n := (len s + length xs)%nat in
  if (n <=? cap s)%nat
  then Slice (elems s ++ xs) (drop (length xs) (spare s))
  else Slice (elems s ++ xs) (growslice (cap s) n).

Fixpoint NextPacket_fuel (fuel : nat) : M OGGReader slice :=
  match fuel with
  | O => lift OutOfFuel
  | S fuel' =>
      first_page ;;;
      o <- get ;;
      page <- getPage ;;
      if (packetIndex o =? packetsCount page)%nat then
        rest <- lift (packet_at page (packetsCount page)) ;;
        (if negb (AbsoluteGranulePosition (header page) =? -1)
         then modify (set_lastPagePosition (AbsoluteGranulePosition (header page)))
         else ret tt) ;;;
        readPage ;;;
        (if (0 <? len rest)%nat then
           page' <- getPage ;;
           p0 <- lift (packet_at page' 0) ;;
           modify_page (set_packets (<[0%nat := append rest (elems p0)]> (packets page')))
         else ret tt) ;;;
        modify (set_packetIndex 0) ;;;
        NextPacket_fuel fuel'
      else
        packet <- lift (packet_at page (packetIndex o)) ;;
        modify (set_packetIndex (S (packetIndex o))) ;;;
        (if (S (packetIndex o) =? packetsCount page)%nat && isLast page
         then modify (set_lastPacket true) else ret tt) ;;;
        ret packet
  end.

(** Every recursive call follows a page read, which consumes at least
    the 27 header bytes. *)
Definition NextPacket : M OGGReader slice :=
  fun o => NextPacket_fuel (S (length (stream o))) o.

End Append.

(** [ResetReader]: the stream is replaced by the one [reset] gives for
    the count of the bytes read so far; a reader is again a list of the
    bytes it will deliver. *)
Definition ResetReader (reset : Z -> list byte) : M OGGReader unit :=
  modify (fun o => set_stream (reset (bytesReadSuccesfully o)) o).

End OGG.

(** ** opusreader.go *)

Module OPUS.

Definition opusHeadPrefix : list byte :=
  ["O"; "p"; "u"; "s"; "H"; "e"; "a"; "d"]%byte.
Definition opusTagsPrefix : list byte :=
  ["O"; "p"; "u"; "s"; "T"; "a"; "g"; "s"]%byte.

Record OPUSIDHeader : Type := mkIDHeader {
  CapturePattern : list byte;            (* [8]byte *)
  Version : byte;
  ChannelCount : byte;
  PreSkip : Z;                           (* uint16 *)
  InputSampleRate : Z;                   (* uint32 *)
  OutputGain : Z;                        (* uint16 *)
  ChannelMappingFamily : byte
}.

Record OPUSPacketConfig : Type := mkConfig {
  ConfigCode : Z;                        (* uint8 *)
  SoundMode : Z;                         (* uint8 *)
  FramesNumber : Z;                      (* int *)
  SamplesNumberPerFrame : Z;             (* int *)
  TotalSamples : Z                       (* int *)
}.

Record OPUSPacket : Type := mkPacket {
  config : OPUSPacketConfig;             (* embedded OPUSPacketConfig *)
  PacketData : slice
}.

Record OPUSReader : Type := mkReader {
  OGGReader : OGG.OGGReader;             (* *OGGReader, not nil *)
  idheader : OPUSIDHeader;               (* embedded OPUSIDHeader *)
  VendorName : slice;
  CurrentPacket : option OPUSPacket;
  skipped : Z;                           (* int *)
  initialized : bool;
  LastPacket : bool;
  Duration : Z                           (* int *)
}.

Definition zero_IDHeader : OPUSIDHeader :=
  mkIDHeader (replicate 8 x00) x00 x00 0 0 0 x00.
Definition zero_Config : OPUSPacketConfig := mkConfig 0 0 0 0 0.

(** [NewOpusReader] over an input that is not nil. *)
Definition NewOpusReader (input : list byte) : OPUSReader :=
  mkReader (OGG.NewOggReader input) zero_IDHeader nil_slice None 0 false false 0.

Definition set_OGGReader (v : OGG.OGGReader) (o : OPUSReader) : OPUSReader :=
  mkReader v (idheader o) (VendorName o) (CurrentPacket o) (skipped o)
           (initialized o) (LastPacket o) (Duration o).
Definition set_idheader (v : OPUSIDHeader) (o : OPUSReader) : OPUSReader :=
  mkReader (OGGReader o) v (VendorName o) (CurrentPacket o) (skipped o)
           (initialized o) (LastPacket o) (Duration o).
Definition set_VendorName (v : slice) (o : OPUSReader) : OPUSReader :=
  mkReader (OGGReader o) (idheader o) v (CurrentPacket o) (skipped o)
           (initialized o) (LastPacket o) (Duration o).
Definition set_skipped (v : Z) (o : OPUSReader) : OPUSReader :=
  mkReader (OGGReader o) (idheader o) (VendorName o) (CurrentPacket o) v
           (initialized o) (LastPacket o) (Duration o).
Definition set_initialized (v : bool) (o : OPUSReader) : OPUSReader :=
  mkReader (OGGReader o) (idheader o) (VendorName o) (CurrentPacket o)
           (skipped o) v (LastPacket o) (Duration o).
Definition set_LastPacket (v : bool) (o : OPUSReader) : OPUSReader :=
  mkReader (OGGReader o) (idheader o) (VendorName o) (CurrentPacket o)
           (skipped o) (initialized o) v (Duration o).
Definition set_Duration (v : Z) (o : OPUSReader) : OPUSReader :=
  mkReader (OGGReader o) (idheader o) (VendorName o) (CurrentPacket o)
           (skipped o) (initialized o) (LastPacket o) v.

Definition set_TotalSamples (v : Z) (p : OPUSPacket) : OPUSPacket :=
  mkPacket (mkConfig (ConfigCode (config p)) (SoundMode (config p))
                     (FramesNumber (config p))
                     (SamplesNumberPerFrame (config p)) v)
           (PacketData p).

(** A call of a method of [o.OGGReader]; the reader is shared by
    pointer, so its state is kept whatever the outcome. *)
Definition onOgg {A} (m : M OGG.OGGReader A) : M OPUSReader A :=
  fun o => let (r, og) := m (OGGReader o) in (r, set_OGGReader og o).

(** [binary.LittleEndian.Uint16] and [Uint32], with their bounds check. *)
Definition Uint16 (b : slice) : outcome Z :=
  match index b 1 with
  | Ok _ => Ok (le_uint (take 2 (elems b)))
  | Err e => Err e
  | Panic p => Panic p
  | OutOfFuel => OutOfFuel
  end.
Definition Uint32 (b : slice) : outcome Z :=
  match index b 3 with
  | Ok _ => Ok (le_uint (take 4 (elems b)))
  | Err e => Err e
  | Panic p => Panic p
  | OutOfFuel => OutOfFuel
  end.

(** [readPacketConfig], a method of the packet. *)
Definition readPacketConfig (p : OPUSPacket) : outcome OPUSPacket :=
  if (len (PacketData p) <? 1)%nat
  then Err (errors_New "opusreader: invalid TOC byte")
  else
    match index (PacketData p) 0 with
    | Ok p0 =>
        let b0 := byte_to_Z p0 in
        match TOC.getFramesNumberInPacket (PacketData p) with
        | Ok frames =>
            match TOC.getSamplesPerFrame (PacketData p) with
            | Ok samples =>
                Ok (mkPacket
                      (mkConfig (Z.land (Z.shiftr b0 3) 31)
                                (Z.land (Z.shiftr b0 2) 1)
                                frames samples (int_mul frames samples))
                      (PacketData p))
            | Err e => Err e
            | Panic q => Panic q
            | OutOfFuel => OutOfFuel
            end
        | Err e => Err e
        | Panic q => Panic q
        | OutOfFuel => OutOfFuel
        end
    | Err e => Err e
    | Panic q => Panic q
    | OutOfFuel => OutOfFuel
    end.

(** Lines 224-241 of [NextPacket]: pre-skip and duration. *)
Definition account (pkt : OPUSPacket) (o : OPUSReader) : OPUSPacket * OPUSReader :=
  if 0 <? SamplesNumberPerFrame (config pkt) then
    if 0 <? FramesNumber (config pkt) then
      let needsSkip := int_sub (PreSkip (idheader o)) (skipped o) in
      let '(pkt, o) :=
        if 0 <? needsSkip then
          let skip :=
            if TotalSamples (config pkt) <? needsSkip
            then TotalSamples (config pkt) else needsSkip in
          (set_TotalSamples (int_sub (TotalSamples (config pkt)) skip) pkt,
           set_skipped (int_add (skipped o) skip) o)
        else (pkt, o) in
      (pkt,
       set_Duration
         (int_add (Duration o)
                  (int_div (int_mul (TotalSamples (config pkt)) 1000000) 48000))
         o)
    else (pkt, o)
  else (pkt, o).

Section Reader.

Variable growslice : nat -> nat -> list byte.

Definition readIDHeader : M OPUSReader unit :=
  headerPacketData <- onOgg (OGG.NextPacket growslice) ;;
  prefix <- lift (reslice headerPacketData 0 8) ;;
  if negb (OGG.bytes_eqb (elems prefix) opusHeadPrefix)
  then fail "opusreader: invalid id header prefix"
  else
    version <- lift (index headerPacketData 8) ;;
    channels <- lift (index headerPacketData 9) ;;
    if byte_to_Z channels =? 0
    then fail "opusreader: channels count < 1"
    else
      b1 <- lift (reslice headerPacketData 10 12) ;;
      preSkip <- lift (Uint16 b1) ;;
      b2 <- lift (reslice headerPacketData 12 16) ;;
      rate <- lift (Uint32 b2) ;;
      b3 <- lift (reslice headerPacketData 16 18) ;;
      gain <- lift (Uint16 b3) ;;
      family <- lift (index headerPacketData 18) ;;
      if negb (byte_to_Z family =? 0)
      then fail "opusreader: for now library supports only channel mapping 0"
      else
        modify (set_idheader
                  (mkIDHeader (replicate 8 x00) version channels
                              preSkip rate gain family)).

Definition readTags : M OPUSReader unit :=
  headerPacketData <- onOgg (OGG.NextPacket growslice) ;;
  prefix <- lift (reslice headerPacketData 0 8) ;;
  if negb (OGG.bytes_eqb (elems prefix) opusTagsPrefix)
  then fail "opusreader: invalid tags header prefix"
  else
    b <- lift (reslice headerPacketData 8 12) ;;
    vendorNameLength <- lift (Uint32 b) ;;
    vendor <- lift (reslice headerPacketData 12
                            (Z.to_nat (wrap32 (12 + vendorNameLength)))) ;;
    modify (set_VendorName vendor).

Definition readHeaders : M OPUSReader unit :=
  readIDHeader ;;;
  readTags ;;;
  modify (set_initialized true).

Definition Op : list byte := ["O"; "p"]%byte.

Fixpoint NextPacket_fuel (fuel : nat) : M OPUSReader OPUSPacket :=
  match fuel with
  | O => lift OutOfFuel
  | S fuel' =>
      o <- get ;;
      if LastPacket o then fail "opusreader: EOS"
      else
        (if negb (initialized o) then readHeaders else ret tt) ;;;
        packetData <- onOgg (OGG.NextPacket growslice) ;;
        opusPacket <- lift (readPacketConfig (mkPacket zero_Config packetData)) ;;
        o <- get ;;
        (if OGG.lastPacket (OGGReader o)
         then modify (set_LastPacket true) else ret tt) ;;;
        prefix <- lift (reslice packetData 0 2) ;;
        if OGG.bytes_eqb (elems prefix) Op
        then NextPacket_fuel fuel'
        else fun o => let (pkt, o') := account opusPacket o in (Ok pkt, o')
  end.

(** What the Ogg reader can still deliver: the bytes not yet read and
    the packets of the current page not yet returned.  Every packet
    pulled from the Ogg reader lowers it, which bounds the recursion. *)
Definition pending (og : OGG.OGGReader) : nat :=
  (length (OGG.stream og) +
   (if OGG.initialized og then
      match OGG.CurrentPage og with
      | Some p => length (OGG.packets p) - OGG.packetIndex og
      | None => 0
      end
    else 0))%nat.

Definition NextPacket : M OPUSReader OPUSPacket :=
  fun o => NextPacket_fuel (S (pending (OGGReader o))) o.

End Reader.

End OPUS.

(** ** The container as the specification describes it

    The data model and the page parse algorithm of the specification,
    written down independently of the reader: a stream is a sequence of
    pages, a page is a 27-byte header, a segment table and a body, and
    a packet is a run of 255-valued segments closed by the first
    segment below 255, whatever pages the run crosses. *)

Module Spec.

Record page : Type := mkPage {
  hdr : list byte;                       (* the 27 bytes of the fixed header *)
  table : list byte;                     (* the segment table *)
  body : list byte
}.

Definition seg_size (v : byte) : nat := N.to_nat (Byte.to_N v).

Definition body_size (t : list byte) : nat := sum_list_with seg_size t.

(** One page off the front of the input: 27 header bytes with the
    capture pattern and version 0, [N] table bytes, the body; any short
    read ends the stream. *)
Definition parse_page (s : list byte) : option (page * list byte) :=
  if (length s <? 27)%nat then None
  else
    let h := take 27 s in
    if OGG.bytes_eqb (take 4 h) OGG.capturePattern
       && (byte_to_Z (nth 4 h x00) =? 0)
    then
      let n := seg_size (nth 26 h x00) in
      let s1 := drop 27 s in
      if (length s1 <? n)%nat then None
      else
        let t := take n s1 in
        let s2 := drop n s1 in
        if (length s2 <? body_size t)%nat then None
        else Some (mkPage h t (take (body_size t) s2), drop (body_size t) s2)
    else None.

Fixpoint pages_fuel (fuel : nat) (s : list byte) : list page :=
  match fuel with
  | O => []
  | S fuel' =>
      match parse_page s with
      | Some (p, rest) => p :: pages_fuel fuel' rest
      | None => []
      end
  end.

(** The pages of a stream; a page takes at least 27 bytes. *)
Definition pages_of (s : list byte) : list page := pages_fuel (length s) s.

(** Header fields of a page. *)
Definition granule (p : page) : Z := wrap64 (le_uint (take 8 (drop 6 (hdr p)))).
Definition continued (p : page) : bool :=
  negb (Z.land (byte_to_Z (nth 5 (hdr p) x00)) 1 =? 0).
Definition end_of_stream (p : page) : bool :=
  negb (Z.land (byte_to_Z (nth 5 (hdr p) x00)) 4 =? 0).

(** A segment: its entry in the segment table and its slice of the
    page body. *)
Definition segment : Type := byte * list byte.

Fixpoint segments (t : list byte) (b : list byte) : list segment :=
  match t with
  | [] => []
  | v :: t' => (v, take (seg_size v) b) :: segments t' (drop (seg_size v) b)
  end.

Definition page_segments (p : page) : list segment := segments (table p) (body p).

Definition stream_segments (s : list byte) : list segment :=
  concat (map page_segments (pages_of s)).

(** Packet reassembly: [cur] holds the segments of the packet under
    construction; the result is the complete packets, each as the list
    of its segments, and the trailing fragment. *)
Fixpoint lace (cur : list segment) (segs : list segment)
    : list (list segment) * list segment :=
  match segs with
  | [] => ([], cur)
  | sg :: segs' =>
      if (seg_size (fst sg) <? 255)%nat
      then let (gs, t) := lace [] segs' in ((cur ++ [sg]) :: gs, t)
      else lace (cur ++ [sg]) segs'
  end.

(** The bytes of a run of segments and the sum of its table entries. *)
Definition seg_bytes (g : list segment) : list byte := concat (map snd g).
Definition seg_total (g : list segment) : nat :=
  sum_list_with (fun sg => seg_size (fst sg)) g.

(** The logical packets of a stream, each as its constituent segments.
    A stream whose first page is flagged as continued starts inside a
    packet; that orphan is not a packet of the stream. *)
Definition packets_of (s : list byte) : list (list segment) :=
  let groups := fst (lace [] (stream_segments s)) in
  match pages_of s with
  | p :: _ => if continued p then drop 1 groups else groups
  | [] => groups
  end.

End Spec.

(** * Definitions used in the statements and proofs *)

(** A relation between the states before and after that every step of a computation respects. *)
Definition preserves {St A} (R : St -> St -> Prop) (m : M St A) : Prop :=
  forall s r s', m s = (r, s') -> R s s'.

(** The fields of the reader that a page read leaves alone. *)
Definition same_cursor (o o' : OGG.OGGReader) : Prop :=
  OGG.initialized o' = OGG.initialized o /\
  OGG.lastPacket o' = OGG.lastPacket o /\
  OGG.packetIndex o' = OGG.packetIndex o /\
  OGG.lastPagePosition o' = OGG.lastPagePosition o.

(** Segments cut from a body that is long enough have the size of
    their table entry. *)
Definition seg_ok (sg : Spec.segment) : Prop := length (snd sg) = Spec.seg_size (fst sg).

(** The trailing fragment is made of full segments only. *)
Definition seg_full (sg : Spec.segment) : Prop := Spec.seg_size (fst sg) = 255%nat.

(** Consecutive slices of a buffer. *)
Fixpoint cuts (d : list byte) (sizes : list nat) : list slice :=
  match sizes with
  | [] => []
  | n :: sizes' => Slice (take n d) (drop n d) :: cuts (drop n d) sizes'
  end.

(** A page of the reader and the page of the stream it was read from. *)
Definition page_matches (sp : Spec.page) (pg : OGG.OGGPage) : Prop :=
  let gs := fst (Spec.lace [] (Spec.page_segments sp)) in
  let tr := snd (Spec.lace [] (Spec.page_segments sp)) in
  OGG.header pg = OGG.binary_Read (Spec.hdr sp) /\
  OGG.packetsCount pg = length gs /\
  map elems (OGG.packets pg) = map Spec.seg_bytes gs ++ [Spec.seg_bytes tr] /\
  Forall (Forall seg_ok) gs /\ Forall seg_ok tr /\ Forall seg_full tr.

Definition never_stuck {St A} (m : M St A) : Prop :=
  forall s s', m s <> (OutOfFuel, s').

Definition note_granule (pg : OGG.OGGPage) (o : OGG.OGGReader) : OGG.OGGReader :=
  if negb (OGG.AbsoluteGranulePosition (OGG.header pg) =? -1)
  then OGG.set_lastPagePosition (OGG.AbsoluteGranulePosition (OGG.header pg)) o
  else o.

Definition arm (pg : OGG.OGGPage) (o : OGG.OGGReader) : OGG.OGGReader :=
  if (OGG.packetIndex o =? OGG.packetsCount pg)%nat && OGG.isLast pg
  then OGG.set_lastPacket true o else o.

Definition carry (g : nat -> nat -> list byte) (rest : slice) (o : OGG.OGGReader)
    : outcome unit * OGG.OGGReader :=
  if (0 <? len rest)%nat then
    match OGG.CurrentPage o with
    | Some pg =>
        match OGG.packets pg !! 0%nat with
        | Some p0 =>
            (Ok tt,
             OGG.set_CurrentPage
               (Some (OGG.set_packets
                        (<[0%nat := OGG.append g rest (elems p0)]> (OGG.packets pg)) pg))
               o)
        | None => (Panic index_out_of_range, o)
        end
    | None => (Panic nil_dereference, o)
    end
  else (Ok tt, o).

Definition cast {A B} (r : outcome A) : outcome B :=
  match r with
  | Ok _ => OutOfFuel
  | Err e => Err e
  | Panic p => Panic p
  | OutOfFuel => OutOfFuel
  end.

(** The body of [NextPacket]: a result, or the reader with which the
    method calls itself. *)
Definition step (g : nat -> nat -> list byte) (o : OGG.OGGReader)
    : (outcome slice * OGG.OGGReader) + OGG.OGGReader :=
  match OGG.first_page o with
  | (Ok _, o1) =>
      match OGG.CurrentPage o1 with
      | None => inl (Panic nil_dereference, o1)
      | Some pg =>
          if (OGG.packetIndex o1 =? OGG.packetsCount pg)%nat then
            match OGG.packets pg !! OGG.packetsCount pg with
            | None => inl (Panic index_out_of_range, o1)
            | Some rest =>
                match OGG.readPage (note_granule pg o1) with
                | (Ok _, o2) =>
                    match carry g rest o2 with
                    | (Ok _, o3) => inr (OGG.set_packetIndex 0 o3)
                    | (r, o3) => inl (cast r, o3)
                    end
                | (r, o2) => inl (cast r, o2)
                end
            end
          else
            match OGG.packets pg !! OGG.packetIndex o1 with
            | None => inl (Panic index_out_of_range, o1)
            | Some p =>
                inl (Ok p, arm pg (OGG.set_packetIndex (S (OGG.packetIndex o1)) o1))
            end
      end
  | (r, o1) => inl (cast r, o1)
  end.

Inductive pulled (g : nat -> nat -> list byte)
    : OGG.OGGReader -> outcome slice -> OGG.OGGReader -> Prop :=
  | pulled_done o r o' : step g o = inl (r, o') -> pulled g o r o'
  | pulled_more o o3 r o' :
      step g o = inr o3 -> pulled g o3 r o' -> pulled g o r o'.

Definition view (o : OGG.OGGReader) (F : list (list Spec.segment)) : Prop :=
  if OGG.initialized o then
    exists pg gs tr,
      OGG.CurrentPage o = Some pg /\
      OGG.packetsCount pg = (OGG.packetIndex o + length gs)%nat /\
      map elems (drop (OGG.packetIndex o) (OGG.packets pg))
        = map Spec.seg_bytes gs ++ [Spec.seg_bytes tr] /\
      F = gs ++ fst (Spec.lace tr (Spec.stream_segments (OGG.stream o)))
  else F = Spec.packets_of (OGG.stream o).

Definition prepend_first (pre : list byte) (l : list (list byte)) : list (list byte) :=
  match l with
  | [] => []
  | x :: l' => (pre ++ x) :: l'
  end.

(** Successive successful calls of the Ogg reader's [NextPacket]. *)
Inductive pulls (g : nat -> nat -> list byte)
    : OGG.OGGReader -> list slice -> OGG.OGGReader -> Prop :=
  | pulls_nil o : pulls g o [] o
  | pulls_cons o p o1 ps o2 :
      OGG.NextPacket g o = (Ok p, o1) -> pulls g o1 ps o2 ->
      pulls g o (p :: ps) o2.

Definition is_packet (p : slice) (grp : list Spec.segment) : Prop :=
  elems p = Spec.seg_bytes grp /\ len p = Spec.seg_total grp.

Definition g0 : nat -> nat -> list byte := fun _ _ => [].

Definition demo_stream : list byte :=
  (["O"; "g"; "g"; "S"; x00; x02]%byte ++ replicate 20 x00 ++ [x01; xff]%byte ++ replicate 255 x07)
  ++ (["O"; "g"; "g"; "S"; x00; x01]%byte ++ replicate 20 x00 ++ [x02; x02; x01]%byte ++ [x08; x09; x0a]%byte).

Definition upd_granule (acc g : Z) : Z := if g =? -1 then acc else g.

Definition last_granule (gs : list Z) : Z := fold_left upd_granule gs 0.

Definition granules (o : OGG.OGGReader) : list Z :=
  (if OGG.initialized o then
     match OGG.CurrentPage o with
     | Some pg => [OGG.AbsoluteGranulePosition (OGG.header pg)]
     | None => []
     end
   else [])
  ++ map Spec.granule (Spec.pages_of (OGG.stream o)).

(** [pre] are the granule positions of the pages the reader has left. *)
Definition seen (all : list Z) (o : OGG.OGGReader) : Prop :=
  exists pre, all = pre ++ granules o /\
              OGG.lastPagePosition o = fold_left upd_granule pre 0.

Definition obind {A B} (r : outcome A) (k : A -> outcome B) : outcome B :=
  match r with
  | Ok a => k a
  | Err e => Err e
  | Panic p => Panic p
  | OutOfFuel => OutOfFuel
  end.

(** What [readIDHeader] does with the packet it has pulled. *)
Definition parseID (hp : slice) : outcome OPUS.OPUSIDHeader :=
  obind (reslice hp 0 8) (fun prefix =>
  if negb (OGG.bytes_eqb (elems prefix) OPUS.opusHeadPrefix)
  then Err (errors_New "opusreader: invalid id header prefix")
  else
  obind (index hp 8) (fun version =>
  obind (index hp 9) (fun channels =>
  if byte_to_Z channels =? 0
  then Err (errors_New "opusreader: channels count < 1")
  else
  obind (reslice hp 10 12) (fun b1 =>
  obind (OPUS.Uint16 b1) (fun preSkip =>
  obind (reslice hp 12 16) (fun b2 =>
  obind (OPUS.Uint32 b2) (fun rate =>
  obind (reslice hp 16 18) (fun b3 =>
  obind (OPUS.Uint16 b3) (fun gain =>
  obind (index hp 18) (fun family =>
  if negb (byte_to_Z family =? 0)
  then Err (errors_New "opusreader: for now library supports only channel mapping 0")
  else Ok (OPUS.mkIDHeader (replicate 8 x00) version channels
                           preSkip rate gain family))))))))))).

(** What [readTags] does with the packet it has pulled. *)
Definition parseTags (hp : slice) : outcome slice :=
  obind (reslice hp 0 8) (fun prefix =>
  if negb (OGG.bytes_eqb (elems prefix) OPUS.opusTagsPrefix)
  then Err (errors_New "opusreader: invalid tags header prefix")
  else
  obind (reslice hp 8 12) (fun b =>
  obind (OPUS.Uint32 b) (fun vendorNameLength =>
  reslice hp 12 (Z.to_nat (wrap32 (12 + vendorNameLength)))))).

(** The body of the Opus reader's [NextPacket]. *)
Definition ostep (g : nat -> nat -> list byte) (o : OPUS.OPUSReader)
    : (outcome OPUS.OPUSPacket * OPUS.OPUSReader) + OPUS.OPUSReader :=
  if OPUS.LastPacket o then inl (Err (errors_New "opusreader: EOS"), o)
  else
    match (if negb (OPUS.initialized o) then OPUS.readHeaders g else ret tt) o with
    | (Ok _, o1) =>
        match OGG.NextPacket g (OPUS.OGGReader o1) with
        | (Ok data, og) =>
            let o2 := OPUS.set_OGGReader og o1 in
            match OPUS.readPacketConfig (OPUS.mkPacket OPUS.zero_Config data) with
            | Ok pkt =>
                let o3 := if OGG.lastPacket og then OPUS.set_LastPacket true o2 else o2 in
                match reslice data 0 2 with
                | Ok prefix =>
                    if OGG.bytes_eqb (elems prefix) OPUS.Op then inr o3
                    else inl (let (pkt', o4) := OPUS.account pkt o3 in (Ok pkt', o4))
                | r => inl (cast r, o3)
                end
            | r => inl (cast r, o2)
            end
        | (r, og) => inl (cast r, OPUS.set_OGGReader og o1)
        end
    | (r, o1) => inl (cast r, o1)
    end.

(** The books of the Opus reader: what a call that returns no packet
    leaves as it was. *)
Definition books_kept (o o' : OPUS.OPUSReader) : Prop :=
  OPUS.Duration o' = OPUS.Duration o /\ OPUS.skipped o' = OPUS.skipped o.

Definition sane (o : OPUS.OPUSReader) : Prop :=
  0 <= OPUS.skipped o <= OPUS.PreSkip (OPUS.idheader o) /\
  OPUS.PreSkip (OPUS.idheader o) <= 65535 /\
  (OPUS.initialized o = false -> OPUS.skipped o = 0).

Definition duration_of (pkt : OPUS.OPUSPacket) : Z :=
  OPUS.TotalSamples (OPUS.config pkt) * 1000000 / 48000.

Definition headers (g : nat -> nat -> list byte) (o : OPUS.OPUSReader)
    : outcome unit * OPUS.OPUSReader :=
  (if negb (OPUS.initialized o) then OPUS.readHeaders g else ret tt) o.

Definition latched (og : OGG.OGGReader) (o : OPUS.OPUSReader) : OPUS.OPUSReader :=
  if OGG.lastPacket og then OPUS.set_LastPacket true o else o.

Inductive opulled (g : nat -> nat -> list byte)
    : OPUS.OPUSReader -> outcome OPUS.OPUSPacket -> OPUS.OPUSReader -> Prop :=
  | opulled_done o r o' : ostep g o = inl (r, o') -> opulled g o r o'
  | opulled_more o o3 r o' :
      ostep g o = inr o3 -> opulled g o3 r o' -> opulled g o r o'.

(** Successive calls of the Opus reader's [NextPacket], with the
    packets they return; calls that return no packet are kept. *)
Inductive run (g : nat -> nat -> list byte)
    : OPUS.OPUSReader -> list OPUS.OPUSPacket -> OPUS.OPUSReader -> Prop :=
  | run_nil o : run g o [] o
  | run_packet o pkt o1 pkts o2 :
      OPUS.NextPacket g o = (Ok pkt, o1) -> run g o1 pkts o2 ->
      run g o (pkt :: pkts) o2
  | run_none o r o1 pkts o2 :
      OPUS.NextPacket g o = (r, o1) -> (forall pkt, r <> Ok pkt) ->
      run g o1 pkts o2 -> run g o pkts o2.

Definition total_duration (pkts : list OPUS.OPUSPacket) : Z :=
  foldr Z.add 0 (map duration_of pkts).

(** The end of the vendor string as [readTags] computes it. *)
Definition vendor_end (hp : slice) : nat :=
  Z.to_nat (wrap32 (12 + le_uint (take 4 (drop 8 (backing hp))))).

Definition demo_page (flags granule n : byte) (table body : list byte) : list byte :=
  ["O"; "g"; "g"; "S"; x00; flags; granule]%byte ++ replicate 19 x00 ++ [n] ++ table ++ body.

Definition demo_head : list byte :=
  ["O"; "p"; "u"; "s"; "H"; "e"; "a"; "d"; x01; x02; x38; x01; x80; xbb; x00; x00;
   x00; x00; x00]%byte.

Definition demo_tags : list byte :=
  ["O"; "p"; "u"; "s"; "T"; "a"; "g"; "s"; x03; x00; x00; x00; "A"; "B"; "C";
   x00; x00; x00; x00]%byte.

(** Two header pages, a page with an audio packet and an [Op] packet,
    and a last page, flagged end of stream, with two audio packets. *)
Definition demo_opus : list byte :=
  demo_page x02 x00 x01 [x13]%byte demo_head
  ++ demo_page x00 x00 x01 [x13]%byte demo_tags
  ++ demo_page x00 x10 x02 [x03; x03]%byte [x78; x01; x02; "O"; "p"; x00]%byte
  ++ demo_page x04 x20 x02 [x02; x03]%byte [x79; x01; x7b; x02; x05]%byte.

Fixpoint demo_calls (n : nat) (o : OPUS.OPUSReader) : OPUS.OPUSReader :=
  match n with
  | O => o
  | S n' => demo_calls n' (snd (OPUS.NextPacket g0 o))
  end.

(** Two header pages and a last page whose first packet begins with
    [Op] and whose second packet is audio: the first call reads the
    headers and meets the [Op] packet in the same call. *)
Definition demo_early_Op : list byte :=
  demo_page x02 x00 x01 [x13]%byte demo_head
  ++ demo_page x00 x00 x01 [x13]%byte demo_tags
  ++ demo_page x04 x10 x02 [x03; x03]%byte ["O"; "p"; x00; x78; x01; x02]%byte.

(** A stream whose first packet is eight bytes that are not the magic. *)
Definition demo_not_opus : list byte :=
  demo_page x02 x00 x01 [x08]%byte ["N"; "o"; "t"; "O"; "p"; "u"; "s"; "!"]%byte.

(** A page with no segment followed by an ordinary page. *)
Definition demo_empty_page : list byte :=
  demo_page x00 x00 x00 [] [] ++ demo_page x00 x00 x01 [x01]%byte [x78]%byte.

(** A stream of two pages with granule positions 7 and 9, the packet
    of the first page ending in the second. *)
Definition demo_stream2 : list byte :=
  demo_page x02 x07 x01 [xff]%byte (replicate 255 x07)
  ++ demo_page x01 x09 x02 [x02; x01]%byte [x08; x09; x0a]%byte.

(** Between [o] and [o'], [k] bytes were taken off the stream and [c]
    of them were added to [bytesReadSuccesfully]. *)
Definition reads (o o' : OGG.OGGReader) (c k : nat) : Prop :=
  (c <= k <= length (OGG.stream o))%nat /\
  OGG.stream o' = drop k (OGG.stream o) /\
  (- 2 ^ 63 <= OGG.bytesReadSuccesfully o < 2 ^ 63 ->
   OGG.bytesReadSuccesfully o' = wrap64 (OGG.bytesReadSuccesfully o + Z.of_nat c)).

(** A computation counts every byte it takes, unless it ends in a
    short read. *)
Definition tracks {A} (m : M OGG.OGGReader A) : Prop :=
  forall o r o', m o = (r, o') ->
  exists c k, reads o o' c k /\ (r <> Err io_ErrUnexpectedEOF -> c = k).


(** The reader after the 27 bytes of a header are read and stored. *)
Definition header_read (pg0 : OGG.OGGPage) (o : OGG.OGGReader) : OGG.OGGReader :=
  OGG.set_CurrentPage
    (Some (OGG.set_header (OGG.binary_Read (take 27 (OGG.stream o))) pg0))
    (OGG.set_bytesReadSuccesfully (wrap64 (OGG.bytesReadSuccesfully o + 27))
       (OGG.set_stream (drop 27 (OGG.stream o)) o)).

(** The error of a page read, from the place where the stream falls
    short or goes wrong. *)
Definition short_read (left : list byte) : error :=
  match left with [] => io_EOF | _ => io_ErrUnexpectedEOF end.

(** The current page has no packet slice yet. *)
Definition unfilled (o : OGG.OGGReader) : Prop :=
  exists pg, OGG.CurrentPage o = Some pg /\ OGG.packets pg = [].

Definition stays_unfilled (o o' : OGG.OGGReader) : Prop := unfilled o -> unfilled o'.

(** No page of the stream has an empty segment table. *)
Definition no_empty_page (s : list byte) : Prop :=
  Forall (fun p => Spec.table p <> []) (Spec.pages_of s).

(** A first page that is flagged as continued holds the end of the
    packet it continues. *)
Definition starts_clean (s : list byte) : Prop :=
  match Spec.pages_of s with
  | p :: _ => Spec.continued p = true -> fst (Spec.lace [] (Spec.page_segments p)) <> []
  | [] => True
  end.

(** The header fields of the reader are those of [o]. *)
Definition headers_kept (o o' : OPUS.OPUSReader) : Prop :=
  OPUS.idheader o' = OPUS.idheader o /\
  OPUS.VendorName o' = OPUS.VendorName o /\
  OPUS.initialized o' = OPUS.initialized o.

(** The samples of a packet before the pre-skip is taken off. *)
Definition raw_samples (pkt : OPUS.OPUSPacket) : Z :=
  OPUS.FramesNumber (OPUS.config pkt) * OPUS.SamplesNumberPerFrame (OPUS.config pkt).

Definition sum_of (f : OPUS.OPUSPacket -> Z) (pkts : list OPUS.OPUSPacket) : Z :=
  foldr Z.add 0 (map f pkts).

(** Two header pages, a page with one audio packet, and a page whose
    body is a single packet of one byte. *)
Definition demo_one_byte : list byte :=
  demo_page x02 x00 x01 [x13]%byte demo_head
  ++ demo_page x00 x00 x01 [x13]%byte demo_tags
  ++ demo_page x00 x10 x01 [x03]%byte [x78; x01; x02]%byte
  ++ demo_page x00 x20 x01 [x01]%byte [x78]%byte.

(** A page flagged as continued in which no packet ends. *)
Definition demo_orphan : list byte :=
  demo_page x01 x00 x01 [xff]%byte (replicate 255 x07).

(** Two header pages, a page with one audio packet, and a last page,
    flagged end of stream, whose only packet begins with [Op]. *)
Definition demo_trailing_Op : list byte :=
  demo_page x02 x00 x01 [x13]%byte demo_head
  ++ demo_page x00 x00 x01 [x13]%byte demo_tags
  ++ demo_page x00 x10 x01 [x03]%byte [x78; x01; x02]%byte
  ++ demo_page x04 x20 x01 [x03]%byte ["O"; "p"; x00]%byte.

(** The test of line 219, on the first two bytes that can be sliced. *)
Definition not_Op (q : slice) : bool :=
  negb (OGG.bytes_eqb (take 2 (backing q)) OPUS.Op).

(** Successive calls of the Opus reader's [NextPacket] that all return
    a packet. *)
Inductive served (g : nat -> nat -> list byte)
    : OPUS.OPUSReader -> list OPUS.OPUSPacket -> OPUS.OPUSReader -> Prop :=
  | served_nil o : served g o [] o
  | served_cons o pkt o1 pkts o2 :
      OPUS.NextPacket g o = (Ok pkt, o1) -> served g o1 pkts o2 ->
      served g o (pkt :: pkts) o2.

(** Two headers that agree in all but the serial number, the sequence
    number and the checksum (bytes 14 to 25). *)
Definition same_but_check (hd hd' : list byte) : Prop :=
  length hd = 27%nat /\ length hd' = 27%nat /\
  take 14 hd' = take 14 hd /\ drop 26 hd' = drop 26 hd.

(** The first page of the sample stream with a checksum. *)
Definition demo_checked : list byte :=
  ["O"; "g"; "g"; "S"; x00; x02; x07]%byte ++ replicate 15 x00
  ++ [xde; xad; xbe; xef; x01]%byte.

(** Two streams that differ at most in the serial number, the sequence
    number and the checksum of page headers: of the first header, or of
    the header of a complete page and in the same way after it. *)
Inductive twin : list byte -> list byte -> Prop :=
  | twin_same s : twin s s
  | twin_head hd hd' rest :
      same_but_check hd hd' -> twin (hd ++ rest) (hd' ++ rest)
  | twin_page hd hd' tb sp rest rest' :
      same_but_check hd hd' ->
      Spec.parse_page (hd ++ tb) = Some (sp, []) ->
      twin rest rest' ->
      twin (hd ++ tb ++ rest) (hd' ++ tb ++ rest').

(** Two pages of the reader with the same packets. *)
Definition alike (pg pg' : OGG.OGGPage) : Prop :=
  OGG.packetsCount pg' = OGG.packetsCount pg /\
  map elems (OGG.packets pg') = map elems (OGG.packets pg).

(** Two readers at the same point of twin streams. *)
Definition sim (o o' : OGG.OGGReader) : Prop :=
  twin (OGG.stream o) (OGG.stream o') /\
  OGG.initialized o' = OGG.initialized o /\
  OGG.packetIndex o' = OGG.packetIndex o /\
  (OGG.initialized o = true ->
   exists pg pg', OGG.CurrentPage o = Some pg /\ OGG.CurrentPage o' = Some pg' /\
                  alike pg pg').

(** The header of the second page of the sample stream with a serial
    number, a sequence number and a checksum. *)
Definition demo_checked2 : list byte :=
  ["O"; "g"; "g"; "S"; x00; x01; x09]%byte ++ replicate 7 x00
  ++ [x2a; x00; x00; x00; x01; x00; x00; x00; x0c; xa5; x1e; x77; x02]%byte.

(** The sample stream with both headers so changed. *)
Definition demo_stream2_checked : list byte :=
  demo_checked ++ ([xff]%byte ++ replicate 255 x07)
  ++ demo_checked2 ++ [x02; x01; x08; x09; x0a]%byte.

(** * Properties *)

(** ** The TOC interpreter *)

Section TOCFacts.

Lemma byte_to_Z_range (b : byte) : 0 <= byte_to_Z b < 256.
Proof.
  unfold byte_to_Z. pose proof (Byte.to_N_bounded b) as H.
  lia.
Qed.

(** C1: for a packet with first byte [b0] the samples per frame are
    those of the table of the specification: the CELT row when bit 7
    is set, the Hybrid row when bits 7..5 are 011, the SILK row
    otherwise; the three rows cover every value of [b0]. *)
Theorem C1_samples_per_frame_table (b0 : byte) (tl sp : list byte) :
  let b := byte_to_Z b0 in
  let s := Z.land (Z.shiftr b 3) 0x3 in
  exists v, TOC.getSamplesPerFrame (Slice (b0 :: tl) sp) = Ok v /\
    (Z.testbit b 7 = true ->
       v = Z.shiftl 48000 s / 400 /\
       (v = 120 \/ v = 240 \/ v = 480 \/ v = 960)) /\
    (Z.testbit b 7 = false -> Z.shiftr b 5 = 3 ->
       (Z.testbit b 3 = true -> v = 48000 / 50 /\ v = 960) /\
       (Z.testbit b 3 = false -> v = 48000 / 100 /\ v = 480)) /\
    (Z.testbit b 7 = false -> Z.shiftr b 5 <> 3 ->
       (s = 3 -> v = 48000 * 60 / 1000 /\ v = 2880) /\
       (s < 3 -> v = Z.shiftl 48000 s / 100 /\
                 (v = 480 \/ v = 960 \/ v = 1920))) /\
    (Z.testbit b 7 = true \/
     (Z.testbit b 7 = false /\ Z.shiftr b 5 = 3) \/
     (Z.testbit b 7 = false /\ Z.shiftr b 5 <> 3)).
Proof.
  destruct b0; vm_compute; eexists; (split; [reflexivity|]);
    repeat split; try discriminate; try congruence; auto 6;
    try (intros; discriminate); try (left; reflexivity);
    try (right; left; split; reflexivity);
    try (right; right; split; [reflexivity | discriminate]).
Qed.

(** C2: for a packet with a first byte the number of frames follows
    the packing code [p = b0 & 3]: one frame for 0, two for 1 and 2,
    and [payload[1] & 0x3F] for 3 when the payload has a second byte. *)
Theorem C2_frames_per_packet (b0 : byte) (tl sp : list byte) :
  let p := Z.land (byte_to_Z b0) 3 in
  let frames := TOC.getFramesNumberInPacket (Slice (b0 :: tl) sp) in
  (p = 0 -> frames = Ok 1) /\
  (p = 1 \/ p = 2 -> frames = Ok 2) /\
  (p = 3 -> forall b1 tl', tl = b1 :: tl' ->
            frames = Ok (Z.land (byte_to_Z b1) 0x3F)) /\
  (p = 0 \/ p = 1 \/ p = 2 \/ p = 3).
Proof.
  assert (Hp : forall b : byte,
             let p := Z.land (byte_to_Z b) 3 in
             p = 0 \/ p = 1 \/ p = 2 \/ p = 3).
  { intros b; destruct b; vm_compute; auto. }
  intros p frames. subst frames.
  unfold TOC.getFramesNumberInPacket, index. cbn [elems lookup list_lookup].
  fold p. specialize (Hp b0). cbv zeta in Hp. fold p in Hp.
  repeat split; auto.
  - intros ->. reflexivity.
  - intros [-> | ->]; reflexivity.
  - intros -> b1 tl' ->. reflexivity.
Qed.

(** The third case at work: packing code 3 with a count byte of 5. *)
Lemma C2_frames_per_packet_witness :
  TOC.getFramesNumberInPacket (Slice ["{"; x05]%byte []) = Ok 5.
Proof.
  exact (proj1 (proj2 (proj2 (C2_frames_per_packet "{"%byte [x05]%byte [])))
               eq_refl x05 [] eq_refl).
Defined.

End TOCFacts.

Section MonadFacts.
Context {St : Type}.

Lemma bind_Ok {A B} (m : M St A) (k : A -> M St B) s b s' :
  bind m k s = (Ok b, s') ->
  exists a s1, m s = (Ok a, s1) /\ k a s1 = (Ok b, s').
Proof.
  unfold bind. destruct (m s) as [[a| | |] s1]; try discriminate. eauto.
Qed.

Lemma bind_Err {A B} (m : M St A) (k : A -> M St B) s e s' :
  bind m k s = (Err e, s') ->
  m s = (Err e, s') \/ exists a s1, m s = (Ok a, s1) /\ k a s1 = (Err e, s').
Proof.
  unfold bind. destruct (m s) as [[a| | |] s1]; try discriminate; eauto.
  intros [= <- <-]. auto.
Qed.

Lemma bind_eq_Ok {A B} (m : M St A) (k : A -> M St B) s a s1 :
  m s = (Ok a, s1) -> bind m k s = k a s1.
Proof. unfold bind. intros ->. reflexivity. Qed.

Lemma preserves_bind {A B} (R : St -> St -> Prop) (m : M St A) (k : A -> M St B) :
  (forall x y z, R x y -> R y z -> R x z) ->
  preserves R m -> (forall a, preserves R (k a)) -> preserves R (bind m k).
Proof.
  intros Htr Hm Hk s r s'. unfold bind.
  destruct (m s) as [[a| | |] s1] eqn:E; specialize (Hm _ _ _ E).
  - intros H. eapply Htr; [exact Hm|]. eapply Hk; eauto.
  - intros [= <- <-]. exact Hm.
  - intros [= <- <-]. exact Hm.
  - intros [= <- <-]. exact Hm.
Qed.

Lemma preserves_lift {A} (R : St -> St -> Prop) (o : outcome A) :
  (forall x, R x x) -> preserves R (lift o).
Proof. intros Hr s r s' [= <- <-]. apply Hr. Qed.

Lemma preserves_ret {A} (R : St -> St -> Prop) (a : A) :
  (forall x, R x x) -> preserves R (ret a).
Proof. intros Hr s r s' [= <- <-]. apply Hr. Qed.

Lemma preserves_modify (R : St -> St -> Prop) (f : St -> St) :
  (forall x, R x (f x)) -> preserves R (modify f).
Proof. intros Hr s r s' [= <- <-]. apply Hr. Qed.

Lemma preserves_get (R : St -> St -> Prop) :
  (forall x, R x x) -> preserves R get.
Proof. intros Hr s r s' [= <- <-]. apply Hr. Qed.

End MonadFacts.

Lemma ReadFull_Ok n o bs o' :
  OGG.ReadFull n o = (Ok bs, o') ->
  bs = take n (OGG.stream o) /\ length bs = n /\
  o' = OGG.set_stream (drop n (OGG.stream o)) o /\ (n <= length (OGG.stream o))%nat.
Proof.
  unfold OGG.ReadFull. destruct (Nat.eqb_spec n 0) as [->|Hn].
  - intros [= <- <-]. destruct o; cbn. rewrite drop_0. auto with lia.
  - destruct (OGG.stream o) as [|b s] eqn:Hs; [discriminate|].
    destruct (Nat.leb_spec n (length (b :: s))); [|discriminate].
    intros [= <- <-]. rewrite length_take. repeat split; lia.
Qed.

Lemma same_cursor_refl o : same_cursor o o.
Proof. repeat split. Qed.
Lemma same_cursor_trans x y z : same_cursor x y -> same_cursor y z -> same_cursor x z.
Proof. unfold same_cursor. intuition congruence. Qed.

Create HintDb frame.
#[local] Hint Resolve same_cursor_refl same_cursor_trans : frame.

Lemma getPage_cursor : preserves same_cursor OGG.getPage.
Proof.
  intros s r s'. unfold OGG.getPage. destruct (OGG.CurrentPage s); intros [= <- <-]; auto with frame.
Qed.

Lemma modify_page_cursor f : preserves same_cursor (OGG.modify_page f).
Proof.
  unfold OGG.modify_page. apply preserves_bind; eauto with frame.
  - apply getPage_cursor.
  - intros a. apply preserves_modify. intros x. repeat split.
Qed.

Lemma ReadFull_cursor n : preserves same_cursor (OGG.ReadFull n).
Proof.
  intros s r s'. unfold OGG.ReadFull.
  destruct (n =? 0)%nat; [intros [= <- <-]; auto with frame|].
  destruct (OGG.stream s); [intros [= <- <-]; auto with frame|].
  destruct (_ <=? _)%nat; intros [= <- <-]; repeat split.
Qed.

Lemma advance_cursor n : preserves same_cursor (OGG.advance n).
Proof. apply preserves_modify. intros x. repeat split. Qed.

#[local] Hint Resolve getPage_cursor modify_page_cursor ReadFull_cursor advance_cursor : frame.

Lemma set_CurrentPage_cursor p : preserves same_cursor (modify (OGG.set_CurrentPage p)).
Proof. apply preserves_modify. intros x. repeat split. Qed.

#[local] Hint Resolve set_CurrentPage_cursor : frame.

Ltac frame_steps :=
  repeat first
    [ solve [auto with frame]
    | apply preserves_lift; exact same_cursor_refl
    | apply preserves_ret; exact same_cursor_refl
    | apply preserves_bind; [exact same_cursor_trans | | intros ?]
    | match goal with
      | |- preserves _ (if ?c then _ else _) => destruct c
      | |- preserves _ (let '(_, _) := ?x in _) => destruct x
      | |- preserves _ (match ?x with _ => _ end) => destruct x
      end ].

Lemma readPageHeader_cursor : preserves same_cursor OGG.readPageHeader.
Proof. unfold OGG.readPageHeader, fail. frame_steps. Qed.

Lemma readPageContent_cursor : preserves same_cursor OGG.readPageContent.
Proof. unfold OGG.readPageContent. frame_steps. Qed.

Lemma readPage_cursor : preserves same_cursor OGG.readPage.
Proof.
  pose proof readPageHeader_cursor. pose proof readPageContent_cursor.
  unfold OGG.readPage. frame_steps.
Qed.

Lemma getPage_Ok o p o' :
  OGG.getPage o = (Ok p, o') -> OGG.CurrentPage o = Some p /\ o' = o.
Proof.
  unfold OGG.getPage. destruct (OGG.CurrentPage o); intros [= <- <-]; auto.
Qed.

Lemma modify_page_Ok f o u o' :
  OGG.modify_page f o = (Ok u, o') ->
  exists p, OGG.CurrentPage o = Some p /\ o' = OGG.set_CurrentPage (Some (f p)) o.
Proof.
  unfold OGG.modify_page. intros H. apply bind_Ok in H as (p & o1 & H1 & H).
  apply getPage_Ok in H1 as [H1 ->]. injection H as _ <-. eauto.
Qed.

Lemma modify_Ok {St} (f : St -> St) o u o' :
  modify f o = (Ok u, o') -> o' = f o.
Proof. intros [= _ <-]. reflexivity. Qed.

Lemma lift_Ok {St A} (r : outcome A) (o : St) a o' :
  lift r o = (Ok a, o') -> r = Ok a /\ o' = o.
Proof. intros [= -> <-]. auto. Qed.

Ltac ogg_simpl :=
  cbn [OGG.stream OGG.bytesReadSuccesfully OGG.initialized OGG.CurrentPage
       OGG.lastPacket OGG.packetIndex OGG.lastPagePosition
       OGG.set_stream OGG.set_bytesReadSuccesfully OGG.set_initialized
       OGG.set_CurrentPage OGG.set_lastPacket OGG.set_packetIndex
       OGG.set_lastPagePosition
       OGG.header OGG.page_initialized OGG.packets OGG.packetsCount
       OGG.packetSizes OGG.totalSize OGG.needsContinue
       OGG.set_header OGG.set_page_initialized OGG.set_packets OGG.set_walk
       OGG.set_needsContinue
       OGG.CapturePattern OGG.Version OGG.HeaderType
       OGG.AbsoluteGranulePosition OGG.SegmentsNumber OGG.binary_Read
       negb] in *.

Ltac inv_step H :=
  let H1 := fresh "Hs" in
  apply bind_Ok in H as (? & ? & H1 & H);
  first
    [ apply ReadFull_Ok in H1 as (-> & ? & -> & ?)
    | apply getPage_Ok in H1 as [H1 ->]
    | apply modify_page_Ok in H1 as (? & H1 & ->)
    | apply modify_Ok in H1 as ->
    | apply lift_Ok in H1 as [H1 ->]
    | idtac ];
  ogg_simpl;
  repeat match goal with
         | E : Some _ = Some _ |- _ => injection E as <-
         end.

Lemma readPageHeader_Ok o u o' pg0 :
  OGG.CurrentPage o = Some pg0 ->
  OGG.readPageHeader o = (Ok u, o') ->
  let s := OGG.stream o in
  let data := take 27 s in
  let n := Spec.seg_size (nth 26 data x00) in
  let tbl := take n (drop 27 s) in
  (27 <= length s)%nat /\
  OGG.bytes_eqb (take 4 data) OGG.capturePattern = true /\
  byte_to_Z (nth 4 data x00) = 0 /\
  (1 <= n <= length (drop 27 s))%nat /\
  OGG.stream o' = drop n (drop 27 s) /\
  exists nc,
  OGG.CurrentPage o' =
    Some (let '(_, total, count, sizes) := OGG.walk tbl in
          OGG.set_needsContinue nc (OGG.set_walk count sizes total
                 (OGG.set_header (OGG.binary_Read data) pg0))).
Proof.
  intros Hpg H. unfold OGG.readPageHeader, OGG.advance in H.
  destruct o as [s br ini cp lp pi lpp]. ogg_simpl. subst cp.
  inv_step H. inv_step H. inv_step H. inv_step H.
  destruct (OGG.bytes_eqb _ _) eqn:Hcap; [|discriminate]. ogg_simpl.
  destruct (_ =? 0) eqn:Hver; [|discriminate]. ogg_simpl.
  inv_step H. inv_step H. inv_step H.
  destruct (OGG.walk _) as [[[sz total] count] sizes] eqn:Hw.
  inv_step H. inv_step H. apply modify_page_Ok in H as (? & H & ->).
  ogg_simpl. injection H as <-.
  assert (Hn : (1 <= Spec.seg_size (nth 26 (take 27 s) x00))%nat).
  { unfold index in Hs. cbn [elems] in Hs.
    destruct (_ !! _) eqn:Hl; [|discriminate].
    apply lookup_lt_Some in Hl. rewrite H2 in Hl.
    unfold Spec.seg_size. lia. }
  apply Z.eqb_eq in Hver.
  repeat split; auto; try (unfold Spec.seg_size in *; lia).
  eexists. reflexivity.
Qed.

(** What the walk over the segment table leaves in the page. *)
Lemma seg_size_lt v : (byte_to_Z v <? 255) = (Spec.seg_size v <? 255)%nat.
Proof.
  unfold byte_to_Z, Spec.seg_size.
  destruct (Z.ltb_spec (Z.of_N (to_N v)) 255), (Nat.ltb_spec (N.to_nat (to_N v)) 255);
    auto; lia.
Qed.

Lemma seg_total_app g h :
  Spec.seg_total (g ++ h) = (Spec.seg_total g + Spec.seg_total h)%nat.
Proof. apply sum_list_with_app. Qed.

Lemma seg_bytes_app g h :
  Spec.seg_bytes (g ++ h) = Spec.seg_bytes g ++ Spec.seg_bytes h.
Proof. unfold Spec.seg_bytes. rewrite map_app, concat_app. reflexivity. Qed.

Ltac tuple_eq :=
  repeat match goal with |- (_, _) = (_, _) => apply (f_equal2 pair) end.

Lemma walk_lace t : forall b cur total count sizes,
  fold_left OGG.walk_step t (Spec.seg_total cur, total, count, sizes) =
  (Spec.seg_total (snd (Spec.lace cur (Spec.segments t b))),
   (total + Spec.body_size t)%nat,
   (count + length (fst (Spec.lace cur (Spec.segments t b))))%nat,
   sizes ++ map Spec.seg_total (fst (Spec.lace cur (Spec.segments t b)))).
Proof.
  induction t as [|v t IH]; intros b cur total count sizes.
  - cbn. rewrite app_nil_r. tuple_eq; auto; lia.
  - cbn [fold_left Spec.segments Spec.lace fst]. unfold OGG.walk_step at 2.
    rewrite seg_size_lt. fold (Spec.seg_size v).
    destruct (Nat.ltb_spec (Spec.seg_size v) 255) as [Hlt|Hge].
    + change 0%nat with (Spec.seg_total []).
      rewrite (IH (drop (Spec.seg_size v) b) []).
      destruct (Spec.lace [] _) as [gs tr]. cbn [fst snd length map].
      rewrite seg_total_app. unfold Spec.body_size. cbn.
      rewrite <- app_assoc. cbn. tuple_eq; auto; try lia.
      repeat f_equal. unfold Spec.seg_total. cbn. lia.
    + replace (Spec.seg_total cur + Spec.seg_size v)%nat
        with (Spec.seg_total (cur ++ [(v, take (Spec.seg_size v) b)])).
      2:{ rewrite seg_total_app. unfold Spec.seg_total. cbn. lia. }
      rewrite (IH (drop (Spec.seg_size v) b)).
      unfold Spec.body_size. cbn. tuple_eq; auto; lia.
Qed.

Lemma walk_facts t b :
  OGG.walk t =
  (Spec.seg_total (snd (Spec.lace [] (Spec.segments t b))),
   Spec.body_size t,
   length (fst (Spec.lace [] (Spec.segments t b))),
   map Spec.seg_total (fst (Spec.lace [] (Spec.segments t b)))).
Proof. unfold OGG.walk. change 0%nat with (Spec.seg_total []) at 1. rewrite (walk_lace t b). reflexivity. Qed.

Lemma segments_ok t : forall b,
  (Spec.body_size t <= length b)%nat -> Forall seg_ok (Spec.segments t b).
Proof.
  induction t as [|v t IH]; intros b Hb; cbn; constructor.
  - unfold seg_ok. cbn. rewrite length_take. unfold Spec.body_size in Hb. cbn in Hb. lia.
  - apply IH. rewrite length_drop. unfold Spec.body_size in *. cbn in Hb. lia.
Qed.

Lemma segments_bytes t : forall b,
  (Spec.body_size t <= length b)%nat ->
  Spec.seg_bytes (Spec.segments t b) = take (Spec.body_size t) b.
Proof.
  induction t as [|v t IH]; intros b Hb.
  - reflexivity.
  - unfold Spec.body_size in *. cbn in Hb |- *.
    change (concat (map snd (Spec.segments t (drop (Spec.seg_size v) b))))
      with (Spec.seg_bytes (Spec.segments t (drop (Spec.seg_size v) b))).
    rewrite IH by (rewrite length_drop; unfold Spec.body_size; lia).
    unfold Spec.body_size. rewrite <- take_take_drop. reflexivity.
Qed.

Lemma seg_ok_total g : Forall seg_ok g -> Spec.seg_total g = length (Spec.seg_bytes g).
Proof.
  induction 1 as [|sg g Hsg _ IH]; [reflexivity|].
  unfold Spec.seg_total, Spec.seg_bytes in *. cbn. rewrite length_app, <- IH, Hsg. reflexivity.
Qed.

(** Reassembly neither drops nor reorders segments. *)
Lemma lace_flat segs : forall cur,
  concat (fst (Spec.lace cur segs)) ++ snd (Spec.lace cur segs) = cur ++ segs.
Proof.
  induction segs as [|sg segs IH]; intros cur; cbn [Spec.lace].
  - cbn. rewrite app_nil_r. reflexivity.
  - destruct (Nat.ltb _ 255).
    + specialize (IH []). destruct (Spec.lace [] segs) as [gs tr]. cbn in *.
      rewrite <- !app_assoc. cbn. rewrite IH. reflexivity.
    + rewrite IH, <- app_assoc. reflexivity.
Qed.

Lemma lace_cur segs : forall cur,
  Spec.lace cur segs =
  match fst (Spec.lace [] segs) with
  | [] => ([], cur ++ snd (Spec.lace [] segs))
  | g :: gs => ((cur ++ g) :: gs, snd (Spec.lace [] segs))
  end.
Proof.
  induction segs as [|sg segs IH]; intros cur; cbn [Spec.lace app].
  - cbn. rewrite app_nil_r. reflexivity.
  - destruct (Nat.ltb _ 255).
    + destruct (Spec.lace [] segs) as [gs tr]. reflexivity.
    + rewrite (IH (cur ++ [sg])), (IH [sg]).
      destruct (fst (Spec.lace [] segs)); rewrite <- app_assoc; reflexivity.
Qed.

Lemma lace_app a : forall cur b,
  Spec.lace cur (a ++ b) =
  (fst (Spec.lace cur a) ++ fst (Spec.lace (snd (Spec.lace cur a)) b),
   snd (Spec.lace (snd (Spec.lace cur a)) b)).
Proof.
  induction a as [|sg a IH]; intros cur b; cbn [Spec.lace app fst snd].
  - destruct (Spec.lace cur b); reflexivity.
  - destruct (Nat.ltb _ 255).
    + rewrite (IH [] b). destruct (Spec.lace [] a) as [gs tr]. reflexivity.
    + apply IH.
Qed.

Lemma seg_size_le v : (Spec.seg_size v <= 255)%nat.
Proof. unfold Spec.seg_size. pose proof (Byte.to_N_bounded v). lia. Qed.

Lemma lace_trailing segs : forall cur,
  Forall seg_full cur -> Forall seg_full (snd (Spec.lace cur segs)).
Proof.
  induction segs as [|sg segs IH]; intros cur Hcur; cbn [Spec.lace]; auto.
  destruct (Nat.ltb_spec (Spec.seg_size (fst sg)) 255).
  - specialize (IH [] (Forall_nil_2 _)). destruct (Spec.lace [] segs). exact IH.
  - apply IH. apply Forall_app; split; auto. constructor; auto.
    unfold seg_full. pose proof (seg_size_le (fst sg)). lia.
Qed.

Lemma full_bytes_nil g :
  Forall seg_ok g -> Forall seg_full g -> Spec.seg_bytes g = [] -> g = [].
Proof.
  destruct g as [|sg g]; auto. intros Hok Hfull Hb.
  inversion Hok as [|? ? H1 _]; inversion Hfull as [|? ? H2 _]; subst.
  unfold Spec.seg_bytes in Hb. cbn in Hb. apply app_eq_nil in Hb as [Hb _].
  unfold seg_ok in H1. unfold seg_full in H2. rewrite Hb in H1. cbn in H1. lia.
Qed.

Lemma length_cuts sizes : forall d, length (cuts d sizes) = length sizes.
Proof. induction sizes; intros d; cbn; auto. Qed.

Lemma reslice_fresh data lo hi :
  (lo <= hi <= length data)%nat ->
  reslice (Slice data []) lo hi =
  Ok (Slice (take (hi - lo) (drop lo data)) (drop hi data)).
Proof.
  intros H. unfold reslice, cap, backing. cbn [elems spare]. rewrite app_nil_r.
  destruct (Nat.leb_spec lo hi); [|lia].
  destruct (Nat.leb_spec hi (length data)); [|lia]. reflexivity.
Qed.

Lemma slice_packets_Ok data sizes : forall i offset pkts,
  (i + length sizes <= length pkts)%nat ->
  (offset + sum_list sizes <= length data)%nat ->
  OGG.slice_packets (Slice data []) sizes i offset pkts =
  Ok (take i pkts ++ cuts (drop offset data) sizes ++ drop (i + length sizes) pkts,
      (offset + sum_list sizes)%nat).
Proof.
  induction sizes as [|size sizes IH]; intros i offset pkts Hi Hoff.
  - cbn. rewrite !Nat.add_0_r, take_drop. reflexivity.
  - cbn in Hi, Hoff. cbn [OGG.slice_packets].
    rewrite reslice_fresh by lia.
    destruct (Nat.ltb_spec i (length pkts)); [|lia].
    rewrite IH by (rewrite ?length_insert; lia).
    replace (offset + size - offset)%nat with size by lia.
    f_equal. apply (f_equal2 pair); [|cbn; lia].
    cbn [cuts length].
    rewrite (take_S_r _ _ (Slice (take size (drop offset data)) (drop (offset + size) data)))
      by (apply list_lookup_insert_eq; lia).
    rewrite take_insert_ge by lia.
    rewrite drop_insert_lt by lia.
    rewrite !drop_drop, <- app_assoc. cbn.
    replace (S i + length sizes)%nat with (i + S (length sizes))%nat by lia.
    replace (S (i + length sizes))%nat with (i + S (length sizes))%nat by lia.
    reflexivity.
Qed.

Lemma cuts_elems chunks : forall rest,
  map elems (cuts (concat chunks ++ rest) (map length chunks)) = chunks.
Proof.
  induction chunks as [|c chunks IH]; intros rest; cbn; [reflexivity|].
  rewrite <- app_assoc, take_app_length, drop_app_length, IH. reflexivity.
Qed.

Lemma readPageContent_Ok o u o' pg :
  OGG.CurrentPage o = Some pg ->
  OGG.packetsCount pg = length (OGG.packetSizes pg) ->
  (sum_list (OGG.packetSizes pg) <= OGG.totalSize pg)%nat ->
  OGG.readPageContent o = (Ok u, o') ->
  let data := take (OGG.totalSize pg) (OGG.stream o) in
  (OGG.totalSize pg <= length (OGG.stream o))%nat /\
  OGG.stream o' = drop (OGG.totalSize pg) (OGG.stream o) /\
  OGG.CurrentPage o' =
    Some (OGG.set_packets
            (cuts data (OGG.packetSizes pg)
             ++ [Slice (drop (sum_list (OGG.packetSizes pg)) data) []]) pg).
Proof.
  intros Hpg Hcount Hsum H. unfold OGG.readPageContent, OGG.advance in H.
  destruct o as [s br ini cp lp pi lpp]. ogg_simpl. subst cp.
  inv_step H. inv_step H. inv_step H.
  rewrite slice_packets_Ok in H by (rewrite ?length_replicate; cbn; lia).
  inv_step H. injection Hs as <-.
  rewrite reslice_fresh in H by (unfold len; cbn [elems]; lia).
  inv_step H. injection Hs as <-.
  rewrite drop_0, drop_replicate, Hcount in H.
  replace (length (OGG.packetSizes pg) + 1 - length (OGG.packetSizes pg))%nat
    with 1%nat in H by lia.
  cbn [replicate] in H.
  rewrite length_app, length_cuts in H. cbn [length] in H.
  destruct (Nat.ltb_spec (length (OGG.packetSizes pg)) (length (OGG.packetSizes pg) + 1));
    [|lia].
  apply modify_page_Ok in H as (? & H & ->). ogg_simpl. injection H as <-.
  repeat split; auto. do 2 f_equal.
  rewrite insert_app_r_alt by (rewrite length_cuts; lia).
  rewrite length_cuts, Nat.sub_diag. cbn. do 3 f_equal.
  - unfold len. cbn [elems]. apply take_ge. rewrite length_drop. lia.
  - unfold len. cbn [elems]. apply drop_all.
Qed.

Lemma seg_bytes_concat gs :
  Spec.seg_bytes (concat gs) = concat (map Spec.seg_bytes gs).
Proof.
  induction gs as [|g gs IH]; [reflexivity|].
  cbn [concat map]. rewrite seg_bytes_app, IH. reflexivity.
Qed.

Lemma Forall_concat_inv {A} (P : A -> Prop) (ls : list (list A)) :
  Forall P (concat ls) -> Forall (Forall P) ls.
Proof.
  induction ls as [|l ls IH]; cbn; intros H; constructor.
  - apply Forall_app in H. tauto.
  - apply IH. apply Forall_app in H. tauto.
Qed.

Lemma map_seg_total_ok gs :
  Forall (Forall seg_ok) gs ->
  map Spec.seg_total gs = map length (map Spec.seg_bytes gs).
Proof.
  induction 1 as [|g gs Hg _ IH]; [reflexivity|].
  cbn. rewrite IH, (seg_ok_total g Hg). reflexivity.
Qed.

Lemma sum_list_lengths {A} (ls : list (list A)) :
  sum_list (map length ls) = length (concat ls).
Proof. induction ls; cbn; rewrite ?length_app; auto. Qed.

Lemma page_cut t b :
  length b = Spec.body_size t ->
  let gs := fst (Spec.lace [] (Spec.segments t b)) in
  let tr := snd (Spec.lace [] (Spec.segments t b)) in
  Forall (Forall seg_ok) gs /\ Forall seg_ok tr /\
  map elems (cuts b (map Spec.seg_total gs)) = map Spec.seg_bytes gs /\
  drop (sum_list (map Spec.seg_total gs)) b = Spec.seg_bytes tr /\
  (sum_list (map Spec.seg_total gs) <= length b)%nat.
Proof.
  intros Hb gs tr.
  pose proof (segments_ok t b ltac:(lia)) as Hok.
  pose proof (segments_bytes t b ltac:(lia)) as Hbytes.
  rewrite <- Hb, firstn_all in Hbytes.
  pose proof (lace_flat (Spec.segments t b) []) as Hflat. cbn [app] in Hflat.
  fold gs tr in Hflat. rewrite <- Hflat in Hok, Hbytes.
  apply Forall_app in Hok as [Hgs Htr]. apply Forall_concat_inv in Hgs.
  rewrite seg_bytes_app, seg_bytes_concat in Hbytes.
  rewrite (map_seg_total_ok gs Hgs), <- Hbytes.
  repeat split; auto.
  - apply cuts_elems.
  - rewrite sum_list_lengths. apply drop_app_length.
  - rewrite sum_list_lengths, length_app. lia.
Qed.

Lemma seg_total_concat gs :
  Spec.seg_total (concat gs) = sum_list (map Spec.seg_total gs).
Proof.
  induction gs as [|g gs IH]; [reflexivity|].
  cbn [concat map]. rewrite seg_total_app, IH. reflexivity.
Qed.

Lemma seg_total_segments t : forall b,
  Spec.seg_total (Spec.segments t b) = Spec.body_size t.
Proof.
  induction t as [|v t IH]; intros b; [reflexivity|].
  unfold Spec.seg_total, Spec.body_size in *. cbn. rewrite IH. reflexivity.
Qed.

Lemma lace_total t b :
  (sum_list (map Spec.seg_total (fst (Spec.lace [] (Spec.segments t b))))
   <= Spec.body_size t)%nat.
Proof.
  pose proof (lace_flat (Spec.segments t b) []) as Hflat. cbn [app] in Hflat.
  apply (f_equal Spec.seg_total) in Hflat.
  rewrite seg_total_app, seg_total_concat, seg_total_segments in Hflat. lia.
Qed.

Lemma parse_page_eq s :
  let data := take 27 s in
  let n := Spec.seg_size (nth 26 data x00) in
  let tbl := take n (drop 27 s) in
  (27 <= length s)%nat ->
  OGG.bytes_eqb (take 4 data) OGG.capturePattern = true ->
  byte_to_Z (nth 4 data x00) = 0 ->
  (n <= length (drop 27 s))%nat ->
  (Spec.body_size tbl <= length (drop n (drop 27 s)))%nat ->
  Spec.parse_page s =
  Some (Spec.mkPage data tbl (take (Spec.body_size tbl) (drop n (drop 27 s))),
        drop (Spec.body_size tbl) (drop n (drop 27 s))).
Proof.
  intros data n tbl H1 H2 H3 H4 H5. unfold Spec.parse_page.
  destruct (Nat.ltb_spec (length s) 27); [lia|].
  fold data. rewrite H2, H3. cbn [andb Z.eqb]. fold n.
  destruct (Nat.ltb_spec (length (drop 27 s)) n); [lia|]. fold tbl.
  destruct (Nat.ltb_spec (length (drop n (drop 27 s))) (Spec.body_size tbl)); [lia|].
  reflexivity.
Qed.

Lemma readPage_Ok o u o' :
  OGG.readPage o = (Ok u, o') ->
  exists sp pg,
    Spec.parse_page (OGG.stream o) = Some (sp, OGG.stream o') /\
    Spec.table sp <> [] /\
    OGG.CurrentPage o' = Some pg /\
    page_matches sp pg.
Proof.
  intros H. unfold OGG.readPage in H.
  apply bind_Ok in H as (? & o1 & Hs & H). apply modify_Ok in Hs as ->.
  apply bind_Ok in H as (? & o2 & Hh & H).
  apply readPageHeader_Ok with (pg0 := OGG.new_OGGPage) in Hh;
    [|destruct o; reflexivity].
  cbv zeta in Hh.
  replace (OGG.stream (OGG.set_CurrentPage (Some OGG.new_OGGPage) o))
    with (OGG.stream o) in Hh by (destruct o; reflexivity).
  set (s := OGG.stream o) in *.
  set (data := take 27 s) in *.
  set (n := Spec.seg_size (nth 26 data x00)) in *.
  set (tbl := take n (drop 27 s)) in *.
  destruct Hh as (Hlen & Hcap & Hver & Hn & Hstream & nc & Hpg).
  set (body := take (Spec.body_size tbl) (drop n (drop 27 s))).
  rewrite (walk_facts tbl body) in Hpg.
  apply bind_Ok in H as (? & o3 & Hc & H).
  eapply readPageContent_Ok in Hc; [| exact Hpg | |]; ogg_simpl;
    [| rewrite length_map; reflexivity | apply lace_total ].
  rewrite Hstream in Hc. destruct Hc as (Hbody & Hstream3 & Hpg3).
  fold body in Hpg3.
  apply modify_page_Ok in H as (pg3 & Hpg3' & ->).
  rewrite Hpg3 in Hpg3'. injection Hpg3' as <-.
  assert (Hblen : length body = Spec.body_size tbl).
  { unfold body. rewrite length_take. lia. }
  destruct (page_cut tbl body Hblen) as (Hok1 & Hok2 & Hel & Hdrop & _).
  eexists (Spec.mkPage data tbl body), _. split; [|split; [|split]].
  - replace (OGG.stream (OGG.set_CurrentPage _ o3)) with (OGG.stream o3)
      by (destruct o3; reflexivity).
    rewrite Hstream3. apply parse_page_eq; fold s data n tbl; auto; try lia.
  - cbn. intros Ht. apply (f_equal length) in Ht. unfold tbl in Ht.
    rewrite length_take in Ht. cbn in Ht. lia.
  - destruct o3; reflexivity.
  - unfold page_matches, Spec.page_segments. cbn [Spec.hdr Spec.table Spec.body].
    ogg_simpl. repeat split; auto.
    + rewrite map_app, Hel. cbn [map elems]. rewrite Hdrop. reflexivity.
    + apply lace_trailing. constructor.
Qed.

Lemma bytes_eqb_eq a b : OGG.bytes_eqb a b = true <-> a = b.
Proof.
  unfold OGG.bytes_eqb. rewrite bool_decide_eq_true. split; [|congruence].
  revert b. induction a as [|x a IH]; intros [|y b]; cbn; try discriminate; auto.
  intros [= Hxy Hab]. f_equal; auto.
  apply (f_equal Byte.of_N) in Hxy. rewrite !Byte.of_to_N in Hxy. congruence.
Qed.

Lemma ReadFull_Err n o e o' :
  OGG.ReadFull n o = (Err e, o') -> (length (OGG.stream o) < n)%nat.
Proof.
  unfold OGG.ReadFull. destruct (Nat.eqb_spec n 0); [discriminate|].
  destruct (OGG.stream o) eqn:Hs; [cbn; lia|].
  destruct (Nat.leb_spec n (length (b :: l))); [discriminate|]. auto.
Qed.

Lemma getPage_Err o e o' : OGG.getPage o = (Err e, o') -> False.
Proof. unfold OGG.getPage. destruct (OGG.CurrentPage o); discriminate. Qed.

Lemma modify_page_Err f o e o' : OGG.modify_page f o = (Err e, o') -> False.
Proof.
  unfold OGG.modify_page. intros H.
  apply bind_Err in H as [H | (? & ? & _ & H)]; [|discriminate].
  eapply getPage_Err; eauto.
Qed.

Lemma index_Err s i e : index s i = Err e -> False.
Proof. unfold index. destruct (_ !! _); discriminate. Qed.

Lemma reslice_Err s lo hi e : reslice s lo hi = Err e -> False.
Proof. unfold reslice. destruct (_ && _); discriminate. Qed.

Lemma slice_packets_Err c sizes : forall i off pkts e,
  OGG.slice_packets c sizes i off pkts = Err e -> False.
Proof.
  induction sizes as [|n sizes IH]; intros i off pkts e; cbn [OGG.slice_packets];
    [discriminate|].
  destruct (reslice c off (off + n)) eqn:Hr; try discriminate.
  - destruct (Nat.ltb _ _); [apply IH | discriminate].
  - intros _. eapply reslice_Err; eauto.
Qed.

Ltac err_step H :=
  let Hs := fresh "Hs" in
  apply bind_Err in H as [H | (? & ? & Hs & H)];
  [ try solve [ exfalso; first
        [ eapply getPage_Err; eassumption
        | eapply modify_page_Err; eassumption
        | discriminate H
        | match type of H with
          | lift _ _ = _ => injection H as H _;
              first [ eapply index_Err; eassumption
                    | eapply reslice_Err; eassumption
                    | eapply slice_packets_Err; eassumption ]
          end ] ]
  | first
      [ apply ReadFull_Ok in Hs as (-> & ? & -> & ?)
      | apply getPage_Ok in Hs as [Hs ->]
      | apply modify_page_Ok in Hs as (? & Hs & ->)
      | apply modify_Ok in Hs as ->
      | apply lift_Ok in Hs as [Hs ->]
      | idtac ];
    ogg_simpl;
    repeat match goal with
           | E : Some _ = Some _ |- _ => injection E as <-
           end ].

Lemma readPageHeader_Err o e o' pg0 :
  OGG.CurrentPage o = Some pg0 ->
  OGG.readPageHeader o = (Err e, o') ->
  Spec.parse_page (OGG.stream o) = None.
Proof.
  intros Hpg H. unfold OGG.readPageHeader, OGG.advance in H.
  destruct o as [s br ini cp lp pi lpp]. ogg_simpl. subst cp.
  unfold Spec.parse_page.
  err_step H.
  { apply ReadFull_Err in H. ogg_simpl.
    destruct (Nat.ltb_spec (length s) 27); [reflexivity | lia]. }
  destruct (Nat.ltb_spec (length s) 27); [reflexivity|].
  err_step H. err_step H. err_step H.
  destruct (OGG.bytes_eqb _ _) eqn:Hcap; [|reflexivity]. ogg_simpl.
  destruct (_ =? 0) eqn:Hver; [|reflexivity]. ogg_simpl. cbn [andb].
  err_step H.
  { apply ReadFull_Err in H. ogg_simpl. unfold Spec.seg_size.
    destruct (Nat.ltb_spec (length (drop 27 s)) (N.to_nat (to_N (nth 26 (take 27 s) x00))));
      [reflexivity | lia]. }
  err_step H. err_step H.
  destruct (OGG.walk _) as [[[sz total] count] sizes] eqn:Hw.
  err_step H. err_step H.
  exfalso. eapply modify_page_Err; eauto.
Qed.

Lemma readPage_Err o e o' :
  OGG.readPage o = (Err e, o') -> Spec.parse_page (OGG.stream o) = None.
Proof.
  intros H. unfold OGG.readPage in H.
  err_step H.
  apply bind_Err in H as [H | (? & o2 & Hh & H)].
  { apply readPageHeader_Err with (pg0 := OGG.new_OGGPage) in H;
      destruct o; auto. }
  pose proof Hh as Hh'.
  apply readPageHeader_Ok with (pg0 := OGG.new_OGGPage) in Hh;
    [|destruct o; reflexivity].
  cbv zeta in Hh.
  replace (OGG.stream (OGG.set_CurrentPage (Some OGG.new_OGGPage) o))
    with (OGG.stream o) in Hh by (destruct o; reflexivity).
  set (s := OGG.stream o) in *.
  set (data := take 27 s) in *.
  set (n := Spec.seg_size (nth 26 data x00)) in *.
  set (tbl := take n (drop 27 s)) in *.
  destruct Hh as (Hlen & Hcap & Hver & Hn & Hstream & nc & Hpg).
  rewrite (walk_facts tbl []) in Hpg.
  apply bind_Err in H as [H | (? & o3 & Hc & H)];
    [| exfalso; eapply modify_page_Err; eauto].
  unfold OGG.readPageContent, OGG.advance in H.
  err_step H. rewrite Hpg in Hs. injection Hs as <-. ogg_simpl.
  err_step H.
  - apply ReadFull_Err in H. rewrite Hstream in H.
    unfold Spec.parse_page. fold s.
    destruct (Nat.ltb_spec (length s) 27); [reflexivity|].
    fold data. rewrite Hcap, Hver. cbn [andb Z.eqb]. fold n.
    destruct (Nat.ltb_spec (length (drop 27 s)) n); [reflexivity|]. fold tbl.
    destruct (Nat.ltb_spec (length (drop n (drop 27 s))) (Spec.body_size tbl)); [reflexivity|lia].
  - err_step H. err_step H. destruct x2 as [pkts off]. err_step H.
    destruct (_ <? _)%nat; [exfalso; eapply modify_page_Err; eauto | discriminate].
Qed.

(** *** Fuel *)

Lemma never_stuck_bind {St A B} (m : M St A) (k : A -> M St B) :
  never_stuck m -> (forall a, never_stuck (k a)) -> never_stuck (bind m k).
Proof.
  intros Hm Hk s s'. unfold bind.
  destruct (m s) as [[a| | |] s1] eqn:E; try discriminate.
  - apply Hk.
  - exfalso. eapply Hm; eauto.
Qed.

Lemma never_stuck_modify {St} (f : St -> St) : never_stuck (modify f).
Proof. intros s s'. discriminate. Qed.
Lemma never_stuck_ret {St A} (a : A) : never_stuck (@ret St A a).
Proof. intros s s'. discriminate. Qed.
Lemma never_stuck_get {St} : never_stuck (@get St).
Proof. intros s s'. discriminate. Qed.
Lemma never_stuck_fail {St A} msg : never_stuck (@fail St A msg).
Proof. intros s s'. discriminate. Qed.
Lemma never_stuck_lift {St A} (r : outcome A) :
  r <> OutOfFuel -> never_stuck (@lift St A r).
Proof. intros Hr s s' [= H _]. auto. Qed.

Lemma index_fuel s i : index s i <> OutOfFuel.
Proof. unfold index. destruct (_ !! _); discriminate. Qed.
Lemma reslice_fuel s lo hi : reslice s lo hi <> OutOfFuel.
Proof. unfold reslice. destruct (_ && _); discriminate. Qed.
Lemma packet_at_fuel p i : OGG.packet_at p i <> OutOfFuel.
Proof. unfold OGG.packet_at. destruct (_ !! _); discriminate. Qed.
Lemma slice_packets_fuel c sizes : forall i off pkts,
  OGG.slice_packets c sizes i off pkts <> OutOfFuel.
Proof.
  induction sizes as [|n sizes IH]; intros i off pkts; cbn [OGG.slice_packets];
    [discriminate|].
  destruct (reslice c off (off + n)) eqn:Hr; try discriminate.
  - destruct (Nat.ltb _ _); [apply IH | discriminate].
  - intros _. eapply reslice_fuel; eauto.
Qed.

Lemma never_stuck_getPage : never_stuck OGG.getPage.
Proof. intros s s'. unfold OGG.getPage. destruct (OGG.CurrentPage s); discriminate. Qed.
Lemma never_stuck_ReadFull n : never_stuck (OGG.ReadFull n).
Proof.
  intros s s'. unfold OGG.ReadFull. destruct (n =? 0)%nat; [discriminate|].
  destruct (OGG.stream s); [discriminate|]. destruct (_ <=? _)%nat; discriminate.
Qed.

Create HintDb fuel.
#[local] Hint Resolve never_stuck_modify never_stuck_ret never_stuck_get
  never_stuck_fail never_stuck_getPage never_stuck_ReadFull
  index_fuel reslice_fuel packet_at_fuel slice_packets_fuel : fuel.

Ltac fuel_steps :=
  repeat first
    [ solve [auto with fuel]
    | apply never_stuck_lift; solve [auto with fuel]
    | apply never_stuck_bind; [ | intros ?]
    | match goal with
      | |- never_stuck (if ?c then _ else _) => destruct c
      | |- never_stuck (let '(_, _) := ?x in _) => destruct x
      | |- never_stuck (match ?x with _ => _ end) => destruct x
      end ].

Lemma never_stuck_modify_page f : never_stuck (OGG.modify_page f).
Proof. unfold OGG.modify_page. fuel_steps. Qed.
#[local] Hint Resolve never_stuck_modify_page : fuel.

Lemma never_stuck_readPage : never_stuck OGG.readPage.
Proof.
  unfold OGG.readPage, OGG.readPageHeader, OGG.readPageContent, OGG.advance.
  fuel_steps.
Qed.
#[local] Hint Resolve never_stuck_readPage : fuel.

Lemma never_stuck_first_page : never_stuck OGG.first_page.
Proof. unfold OGG.first_page. fuel_steps. Qed.
#[local] Hint Resolve never_stuck_first_page : fuel.

Lemma bind_OutOfFuel {St A B} (m : M St A) (k : A -> M St B) s s' :
  never_stuck m ->
  bind m k s = (OutOfFuel, s') ->
  exists a s1, m s = (Ok a, s1) /\ k a s1 = (OutOfFuel, s').
Proof.
  intros Hm. unfold bind. destruct (m s) as [[a| | |] s1] eqn:E; try discriminate; eauto.
  intros [= <-]. exfalso. eapply Hm; eauto.
Qed.

Lemma parse_page_length s sp rest :
  Spec.parse_page s = Some (sp, rest) ->
  (length rest + 27 + length (Spec.table sp) + length (Spec.body sp) = length s)%nat /\
  length (Spec.body sp) = Spec.body_size (Spec.table sp) /\
  length (Spec.hdr sp) = 27%nat.
Proof.
  unfold Spec.parse_page.
  destruct (Nat.ltb_spec (length s) 27); [discriminate|].
  destruct (_ && _); [|discriminate].
  destruct (Nat.ltb_spec (length (drop 27 s)) (Spec.seg_size (nth 26 (take 27 s) x00)));
    [discriminate|].
  destruct (Nat.ltb _ _) eqn:Hb; [discriminate|]. apply Nat.ltb_ge in Hb.
  intros [= <- <-]. cbn [Spec.table Spec.body Spec.hdr].
  rewrite !length_take, !length_drop in *. lia.
Qed.

Lemma first_page_eq o :
  OGG.first_page o =
  if OGG.initialized o then (Ok tt, o)
  else
    match OGG.readPage o with
    | (Ok _, o1) =>
        match OGG.CurrentPage o1 with
        | Some pg =>
            (Ok tt, OGG.set_initialized true
                      (OGG.set_packetIndex (if OGG.isContinued pg then 1 else 0)%nat o1))
        | None => (Panic nil_dereference, OGG.set_packetIndex 0 o1)
        end
    | (Err e, o1) => (Err e, o1)
    | (Panic p, o1) => (Panic p, o1)
    | (OutOfFuel, o1) => (OutOfFuel, o1)
    end.
Proof.
  unfold OGG.first_page, bind, get, OGG.getPage, modify, ret.
  destruct (OGG.initialized o); cbn [negb]; [reflexivity|].
  destruct (OGG.readPage o) as [[u| | |] o1]; try reflexivity.
  destruct o1 as [s br ini [pg|] lp pi lpp]; cbn; [|reflexivity].
  destruct (OGG.isContinued pg); reflexivity.
Qed.

(** *** One call of [NextPacket], case by case *)

Lemma NextPacket_fuel_eq g f o pg :
  OGG.initialized o = true -> OGG.CurrentPage o = Some pg ->
  OGG.NextPacket_fuel g (S f) o =
  if (OGG.packetIndex o =? OGG.packetsCount pg)%nat then
    match OGG.packets pg !! OGG.packetsCount pg with
    | None => (Panic index_out_of_range, o)
    | Some rest =>
        match OGG.readPage (note_granule pg o) with
        | (Ok _, o2) =>
            match carry g rest o2 with
            | (Ok _, o3) => OGG.NextPacket_fuel g f (OGG.set_packetIndex 0 o3)
            | (r, o3) => (cast r, o3)
            end
        | (r, o2) => (cast r, o2)
        end
    end
  else
    match OGG.packets pg !! OGG.packetIndex o with
    | None => (Panic index_out_of_range, o)
    | Some p => (Ok p, arm pg (OGG.set_packetIndex (S (OGG.packetIndex o)) o))
    end.
Proof.
  intros Hini Hpg. cbn [OGG.NextPacket_fuel].
  unfold bind at 1. rewrite first_page_eq, Hini.
  unfold bind at 1. unfold get at 1. cbn iota.
  unfold bind at 1. unfold OGG.getPage at 1. rewrite Hpg.
  destruct (Nat.eqb_spec (OGG.packetIndex o) (OGG.packetsCount pg)) as [Hidx|Hidx].
  - unfold bind at 1. unfold lift at 1, OGG.packet_at.
    destruct (OGG.packets pg !! OGG.packetsCount pg) as [rest|]; [|reflexivity].
    unfold bind at 1. unfold note_granule.
    replace ((if negb (OGG.AbsoluteGranulePosition (OGG.header pg) =? -1)
              then modify (OGG.set_lastPagePosition (OGG.AbsoluteGranulePosition (OGG.header pg)))
              else ret ()) o)
      with (Ok tt, if negb (OGG.AbsoluteGranulePosition (OGG.header pg) =? -1)
                   then OGG.set_lastPagePosition (OGG.AbsoluteGranulePosition (OGG.header pg)) o
                   else o)
      by (destruct (negb _); reflexivity).
    cbn iota. unfold bind at 1.
    destruct (OGG.readPage _) as [[u| | |] o2]; try reflexivity.
    unfold bind at 1. unfold carry.
    destruct (0 <? len rest)%nat.
    + unfold bind at 1. unfold OGG.getPage at 1.
      destruct (OGG.CurrentPage o2) as [pg2|] eqn:Hpg2; [|reflexivity].
      unfold bind at 1. unfold lift at 1, OGG.packet_at.
      destruct (OGG.packets pg2 !! 0%nat) as [p0|]; [|reflexivity].
      unfold OGG.modify_page, bind at 1. unfold OGG.getPage at 1. rewrite Hpg2.
      unfold modify at 1. cbn iota. reflexivity.
    + reflexivity.
  - unfold bind at 1. unfold lift at 1, OGG.packet_at.
    destruct (OGG.packets pg !! OGG.packetIndex o) as [p|]; [|reflexivity].
    unfold bind at 1. unfold modify at 1. cbn iota.
    unfold arm. replace (OGG.packetIndex (OGG.set_packetIndex (S (OGG.packetIndex o)) o))
      with (S (OGG.packetIndex o)) by (destruct o; reflexivity).
    destruct (_ && _); reflexivity.
Qed.

Lemma first_page_initialized o u o1 :
  OGG.first_page o = (Ok u, o1) ->
  OGG.initialized o1 = true /\ (OGG.initialized o = true -> o1 = o).
Proof.
  rewrite first_page_eq. destruct (OGG.initialized o) eqn:Hi.
  - intros [= _ <-]. auto.
  - destruct (OGG.readPage o) as [[?| | |] o']; try discriminate.
    destruct (OGG.CurrentPage o') eqn:Hp; [|discriminate].
    intros [= _ <-]. split; [destruct o'; reflexivity | discriminate].
Qed.

Lemma NextPacket_fuel_first g f o :
  OGG.NextPacket_fuel g (S f) o =
  match OGG.first_page o with
  | (Ok _, o1) => OGG.NextPacket_fuel g (S f) o1
  | (r, o1) => (cast r, o1)
  end.
Proof.
  cbn [OGG.NextPacket_fuel]. unfold bind at 1.
  destruct (OGG.first_page o) as [[u| | |] o1] eqn:Hf; try reflexivity.
  apply first_page_initialized in Hf as [Hi _].
  symmetry. unfold bind at 1. rewrite (first_page_eq o1), Hi. reflexivity.
Qed.

Lemma NextPacket_fuel_nil g f o :
  OGG.initialized o = true -> OGG.CurrentPage o = None ->
  OGG.NextPacket_fuel g (S f) o = (Panic nil_dereference, o).
Proof.
  intros Hini Hpg. cbn [OGG.NextPacket_fuel].
  unfold bind at 1. rewrite first_page_eq, Hini.
  unfold bind at 1. unfold get at 1. cbn iota.
  unfold bind at 1. unfold OGG.getPage at 1. rewrite Hpg. reflexivity.
Qed.

Lemma NextPacket_fuel_step g f o :
  OGG.NextPacket_fuel g (S f) o =
  match step g o with
  | inl res => res
  | inr o3 => OGG.NextPacket_fuel g f o3
  end.
Proof.
  rewrite NextPacket_fuel_first. unfold step.
  destruct (OGG.first_page o) as [[u| | |] o1] eqn:Hf; try reflexivity.
  apply first_page_initialized in Hf as [Hi _].
  destruct (OGG.CurrentPage o1) as [pg|] eqn:Hpg.
  - rewrite (NextPacket_fuel_eq g f o1 pg Hi Hpg).
    destruct (_ =? _)%nat.
    + destruct (_ !! _); [|reflexivity].
      destruct (OGG.readPage _) as [[?| | |] o2]; try reflexivity.
      destruct (carry g s o2) as [[?| | |] o3]; reflexivity.
    + destruct (_ !! _); reflexivity.
  - apply NextPacket_fuel_nil; auto.
Qed.

Lemma first_page_Ok o u o1 :
  OGG.first_page o = (Ok u, o1) ->
  (OGG.initialized o = true /\ o1 = o) \/
  (OGG.initialized o = false /\
   exists u' o0 pg, OGG.readPage o = (Ok u', o0) /\ OGG.CurrentPage o0 = Some pg /\
     o1 = OGG.set_initialized true
            (OGG.set_packetIndex (if OGG.isContinued pg then 1 else 0)%nat o0)).
Proof.
  rewrite first_page_eq. destruct (OGG.initialized o).
  - intros [= _ <-]. auto.
  - destruct (OGG.readPage o) as [[?| | |] o0]; try discriminate.
    destruct (OGG.CurrentPage o0) eqn:Hp; [|discriminate].
    intros [= _ <-]. right. split; auto. eauto 6.
Qed.

Lemma first_page_Err o e o1 :
  OGG.first_page o = (Err e, o1) ->
  OGG.initialized o = false /\ OGG.readPage o = (Err e, o1).
Proof.
  rewrite first_page_eq. destruct (OGG.initialized o); [discriminate|].
  destruct (OGG.readPage o) as [[?| | |] o0]; try discriminate.
  - destruct (OGG.CurrentPage o0); discriminate.
  - intros [= <- <-]. auto.
Qed.

Lemma carry_Ok g rest o2 u o3 :
  carry g rest o2 = (Ok u, o3) ->
  OGG.stream o3 = OGG.stream o2 /\ same_cursor o2 o3 /\
  ((len rest = 0%nat /\ o3 = o2) \/
   ((0 < len rest)%nat /\ exists pg p0,
      OGG.CurrentPage o2 = Some pg /\ OGG.packets pg !! 0%nat = Some p0 /\
      OGG.CurrentPage o3 =
        Some (OGG.set_packets
                (<[0%nat := OGG.append g rest (elems p0)]> (OGG.packets pg)) pg))).
Proof.
  unfold carry. destruct (Nat.ltb_spec 0 (len rest)).
  - destruct (OGG.CurrentPage o2) as [pg|] eqn:Hpg; [|discriminate].
    destruct (OGG.packets pg !! 0%nat) as [p0|] eqn:Hp0; [|discriminate].
    intros [= _ <-]. split; [destruct o2; reflexivity|].
    split; [destruct o2; repeat split|].
    right. split; auto. exists pg, p0. destruct o2; cbn in *; auto.
  - intros [= _ <-]. split; [reflexivity|]. split; [apply same_cursor_refl|].
    left. split; auto. lia.
Qed.

Lemma step_Ok g o p o' :
  step g o = inl (Ok p, o') ->
  exists u o1 pg,
    OGG.first_page o = (Ok u, o1) /\ OGG.CurrentPage o1 = Some pg /\
    OGG.packetIndex o1 <> OGG.packetsCount pg /\
    OGG.packets pg !! OGG.packetIndex o1 = Some p /\
    o' = arm pg (OGG.set_packetIndex (S (OGG.packetIndex o1)) o1).
Proof.
  unfold step. destruct (OGG.first_page o) as [[u| | |] o1] eqn:Hf; try discriminate.
  destruct (OGG.CurrentPage o1) as [pg|] eqn:Hpg; [|discriminate].
  destruct (Nat.eqb_spec (OGG.packetIndex o1) (OGG.packetsCount pg)).
  - destruct (_ !! _); [|discriminate].
    destruct (OGG.readPage _) as [[?| | |] o2]; try discriminate.
    destruct (carry g s o2) as [[?| | |] o3]; discriminate.
  - destruct (_ !! _) eqn:Hp; [|discriminate].
    intros [= <- <-]. eauto 10.
Qed.

Lemma carry_Err g rest o2 e o3 : carry g rest o2 = (Err e, o3) -> False.
Proof.
  unfold carry. destruct (_ <? _)%nat; [|discriminate].
  destruct (OGG.CurrentPage o2) as [pg|]; [|discriminate].
  destruct (_ !! _); discriminate.
Qed.

Lemma carry_fuel g rest o2 o3 : carry g rest o2 = (OutOfFuel, o3) -> False.
Proof.
  unfold carry. destruct (_ <? _)%nat; [|discriminate].
  destruct (OGG.CurrentPage o2) as [pg|]; [|discriminate].
  destruct (_ !! _); discriminate.
Qed.

Lemma step_Err g o e o' :
  step g o = inl (Err e, o') ->
  (OGG.initialized o = false /\ OGG.readPage o = (Err e, o')) \/
  exists u o1 pg rest,
    OGG.first_page o = (Ok u, o1) /\ OGG.CurrentPage o1 = Some pg /\
    OGG.packetIndex o1 = OGG.packetsCount pg /\
    OGG.packets pg !! OGG.packetsCount pg = Some rest /\
    OGG.readPage (note_granule pg o1) = (Err e, o').
Proof.
  unfold step. destruct (OGG.first_page o) as [[u| | |] o1] eqn:Hf; try discriminate.
  2:{ intros [= <- <-]. left. apply first_page_Err; auto. }
  destruct (OGG.CurrentPage o1) as [pg|] eqn:Hpg; [|discriminate].
  destruct (Nat.eqb_spec (OGG.packetIndex o1) (OGG.packetsCount pg)).
  - destruct (_ !! _) eqn:Hrest; [|discriminate].
    destruct (OGG.readPage _) as [[?| | |] o2] eqn:Hr; try discriminate.
    + destruct (carry g s o2) as [[?| | |] o3] eqn:Hc; try discriminate.
      exfalso. eapply carry_Err; eauto.
    + intros [= <- <-]. right. eauto 10.
  - destruct (_ !! _) eqn:Hp; discriminate.
Qed.

Lemma step_more g o o4 :
  step g o = inr o4 ->
  exists u o1 pg rest u2 o2 u3 o3,
    OGG.first_page o = (Ok u, o1) /\ OGG.CurrentPage o1 = Some pg /\
    OGG.packetIndex o1 = OGG.packetsCount pg /\
    OGG.packets pg !! OGG.packetsCount pg = Some rest /\
    OGG.readPage (note_granule pg o1) = (Ok u2, o2) /\
    carry g rest o2 = (Ok u3, o3) /\
    o4 = OGG.set_packetIndex 0 o3.
Proof.
  unfold step. destruct (OGG.first_page o) as [[u| | |] o1] eqn:Hf; try discriminate.
  destruct (OGG.CurrentPage o1) as [pg|] eqn:Hpg; [|discriminate].
  destruct (Nat.eqb_spec (OGG.packetIndex o1) (OGG.packetsCount pg)).
  - destruct (_ !! _) eqn:Hrest; [|discriminate].
    destruct (OGG.readPage _) as [[?| | |] o2] eqn:Hr; try discriminate.
    destruct (carry g s o2) as [[?| | |] o3] eqn:Hc; try discriminate.
    intros [= <-]. eauto 20.
  - destruct (_ !! _) eqn:Hp; discriminate.
Qed.

Lemma step_fuel g o o' : step g o <> inl (OutOfFuel, o').
Proof.
  unfold step. destruct (OGG.first_page o) as [[u| | |] o1] eqn:Hf; try discriminate.
  2:{ exfalso. eapply never_stuck_first_page; eauto. }
  destruct (OGG.CurrentPage o1) as [pg|] eqn:Hpg; [|discriminate].
  destruct (_ =? _)%nat.
  - destruct (_ !! _) eqn:Hrest; [|discriminate].
    destruct (OGG.readPage _) as [[?| | |] o2] eqn:Hr; try discriminate.
    + destruct (carry g s o2) as [[?| | |] o3] eqn:Hc; try discriminate.
      exfalso. eapply carry_fuel; eauto.
    + exfalso. eapply never_stuck_readPage; eauto.
  - destruct (_ !! _) eqn:Hp; discriminate.
Qed.

Lemma note_granule_stream pg o : OGG.stream (note_granule pg o) = OGG.stream o.
Proof. unfold note_granule. destruct (negb _); destruct o; reflexivity. Qed.

Lemma readPage_Ok_stream o u o' :
  OGG.readPage o = (Ok u, o') ->
  (length (OGG.stream o') + 27 < length (OGG.stream o))%nat.
Proof.
  intros H. apply readPage_Ok in H as (sp & pg & Hp & Ht & _).
  apply parse_page_length in Hp. destruct (Spec.table sp); [congruence|].
  cbn in Hp. lia.
Qed.

Lemma first_page_stream o u o1 :
  OGG.first_page o = (Ok u, o1) ->
  (length (OGG.stream o1) <= length (OGG.stream o))%nat.
Proof.
  intros H. apply first_page_Ok in H as [[_ ->] | (_ & u' & o0 & pg & Hr & _ & ->)].
  - lia.
  - apply readPage_Ok_stream in Hr.
    replace (OGG.stream (OGG.set_initialized true (OGG.set_packetIndex (if OGG.isContinued pg then 1 else 0)%nat o0))) with (OGG.stream o0) by (destruct o0; reflexivity).
    lia.
Qed.

Lemma step_more_stream g o o4 :
  step g o = inr o4 ->
  (length (OGG.stream o4) + 27 < length (OGG.stream o))%nat.
Proof.
  intros H. apply step_more in H
    as (u & o1 & pg & rest & u2 & o2 & u3 & o3 & Hf & _ & _ & _ & Hr & Hc & ->).
  apply first_page_stream in Hf. apply readPage_Ok_stream in Hr.
  rewrite note_granule_stream in Hr. apply carry_Ok in Hc as (Hs & _).
  replace (OGG.stream (OGG.set_packetIndex 0 o3)) with (OGG.stream o3)
    by (destruct o3; reflexivity).
  rewrite Hs. lia.
Qed.

(** Fuel above the length of the input is never used up, and more fuel
    than a call needs does not change its result. *)
Lemma NextPacket_fuel_enough g : forall f o o',
  (length (OGG.stream o) < f)%nat -> OGG.NextPacket_fuel g f o <> (OutOfFuel, o').
Proof.
  induction f as [|f IH]; intros o o' Hf; [lia|].
  rewrite NextPacket_fuel_step. destruct (step g o) as [[r o1]|o3] eqn:Hs.
  - intros [= -> ->]. eapply step_fuel; eauto.
  - apply step_more_stream in Hs. apply IH. lia.
Qed.

Lemma NextPacket_fuel_mono g : forall f o r o',
  OGG.NextPacket_fuel g f o = (r, o') -> r <> OutOfFuel ->
  forall f', (f <= f')%nat -> OGG.NextPacket_fuel g f' o = (r, o').
Proof.
  induction f as [|f IH]; intros o r o' H Hr f' Hf'.
  - cbn in H. injection H as <- _. congruence.
  - destruct f' as [|f']; [lia|].
    rewrite NextPacket_fuel_step in H |- *.
    destruct (step g o) as [[r1 o1]|o3]; [exact H|].
    eapply IH; eauto. lia.
Qed.

Lemma NextPacket_fuel_stable g f o :
  (length (OGG.stream o) < f)%nat ->
  OGG.NextPacket_fuel g f o = OGG.NextPacket g o.
Proof.
  intros Hf. unfold OGG.NextPacket.
  destruct (OGG.NextPacket_fuel g (S (length (OGG.stream o))) o) as [r o'] eqn:H.
  assert (Hr : r <> OutOfFuel).
  { intros ->. eapply NextPacket_fuel_enough; [|exact H]. lia. }
  eapply NextPacket_fuel_mono; eauto.
Qed.

Lemma NextPacket_total g o o' : OGG.NextPacket g o <> (OutOfFuel, o').
Proof. apply NextPacket_fuel_enough. lia. Qed.

(** [NextPacket] as a loop over [step]. *)
Lemma NextPacket_step g o :
  OGG.NextPacket g o =
  match step g o with
  | inl res => res
  | inr o3 => OGG.NextPacket g o3
  end.
Proof.
  unfold OGG.NextPacket at 1. rewrite NextPacket_fuel_step.
  destruct (step g o) as [res|o3] eqn:Hs; [reflexivity|].
  apply NextPacket_fuel_stable. apply step_more_stream in Hs. lia.
Qed.

Lemma NextPacket_fuel_pulled g : forall f o r o',
  OGG.NextPacket_fuel g f o = (r, o') -> r <> OutOfFuel -> pulled g o r o'.
Proof.
  induction f as [|f IH]; intros o r o' H Hr.
  - cbn in H. injection H as <- _. congruence.
  - rewrite NextPacket_fuel_step in H.
    destruct (step g o) as [[r1 o1]|o3] eqn:Hs.
    + injection H as <- <-. apply pulled_done; auto.
    + eapply pulled_more; eauto.
Qed.

Lemma NextPacket_pulled g o r o' :
  OGG.NextPacket g o = (r, o') -> pulled g o r o'.
Proof.
  intros H. eapply NextPacket_fuel_pulled; [exact H|].
  intros ->. eapply NextPacket_total; eauto.
Qed.

(** *** The pages of a stream *)

Lemma pages_fuel_more : forall n m s,
  (length s <= n)%nat -> (length s <= m)%nat ->
  Spec.pages_fuel n s = Spec.pages_fuel m s.
Proof.
  induction n as [|n IH]; intros m s Hn Hm.
  - destruct s; [|cbn in Hn; lia]. destruct m; reflexivity.
  - destruct m as [|m].
    + destruct s; [|cbn in Hm; lia]. reflexivity.
    + cbn [Spec.pages_fuel]. destruct (Spec.parse_page s) as [[p rest]|] eqn:Hp; auto.
      apply parse_page_length in Hp. f_equal. apply IH; lia.
Qed.

Lemma pages_of_parsed s sp rest :
  Spec.parse_page s = Some (sp, rest) ->
  Spec.pages_of s = sp :: Spec.pages_of rest.
Proof.
  intros Hp. unfold Spec.pages_of.
  pose proof (parse_page_length _ _ _ Hp) as Hl.
  destruct (length s) as [|n] eqn:Hn; [lia|].
  cbn [Spec.pages_fuel]. rewrite Hp. f_equal. apply pages_fuel_more; lia.
Qed.

Lemma pages_of_end s : Spec.parse_page s = None -> Spec.pages_of s = [].
Proof.
  intros Hp. unfold Spec.pages_of. destruct (length s); cbn; [reflexivity|].
  rewrite Hp. reflexivity.
Qed.

Lemma stream_segments_parsed s sp rest :
  Spec.parse_page s = Some (sp, rest) ->
  Spec.stream_segments s = Spec.page_segments sp ++ Spec.stream_segments rest.
Proof.
  intros Hp. unfold Spec.stream_segments. rewrite (pages_of_parsed _ _ _ Hp).
  reflexivity.
Qed.

Lemma pages_segments_ok : forall n s,
  Forall seg_ok (concat (map Spec.page_segments (Spec.pages_fuel n s))).
Proof.
  induction n as [|n IH]; intros s; cbn; [constructor|].
  destruct (Spec.parse_page s) as [[p rest]|] eqn:Hp; [|constructor].
  cbn. apply Forall_app. split; [|apply IH].
  apply parse_page_length in Hp. apply segments_ok. lia.
Qed.

Lemma stream_segments_ok s : Forall seg_ok (Spec.stream_segments s).
Proof. apply pages_segments_ok. Qed.

Lemma packets_of_ok s : Forall (Forall seg_ok) (Spec.packets_of s).
Proof.
  assert (H : Forall (Forall seg_ok) (fst (Spec.lace [] (Spec.stream_segments s)))).
  { pose proof (lace_flat (Spec.stream_segments s) []) as Hflat. cbn [app] in Hflat.
    pose proof (stream_segments_ok s) as Hok. rewrite <- Hflat in Hok.
    apply Forall_app in Hok as [Hok _]. apply Forall_concat_inv; auto. }
  unfold Spec.packets_of. destruct (Spec.pages_of s) as [|p ps]; auto.
  destruct (Spec.continued p); auto. apply Forall_drop; auto.
Qed.

(** *** What the reader will still return *)

Lemma isContinued_matches sp pg :
  page_matches sp pg -> OGG.isContinued pg = Spec.continued sp.
Proof.
  intros (Hh & _). unfold OGG.isContinued, Spec.continued. rewrite Hh. reflexivity.
Qed.

Lemma view_first o F u o1 :
  view o F -> OGG.first_page o = (Ok u, o1) ->
  exists pg, OGG.CurrentPage o1 = Some pg /\
    ((OGG.packetIndex o1 <= OGG.packetsCount pg)%nat ->
     view o1 F /\ length (OGG.packets pg) = S (OGG.packetsCount pg)) /\
    ((OGG.packetsCount pg < OGG.packetIndex o1)%nat ->
     (length (OGG.packets pg) <= OGG.packetIndex o1)%nat).
Proof.
  intros Hv Hf. apply first_page_Ok in Hf
    as [[Hi ->] | (Hi & u' & o0 & pg & Hr & Hpg & ->)].
  - unfold view in *. rewrite Hi in *.
    destruct Hv as (pg & gs & tr & Hpg & Hc & Hel & HF).
    exists pg. split; auto.
    apply (f_equal length) in Hel as Hlen.
    rewrite !length_map, length_app, length_drop, length_map in Hlen. cbn in Hlen.
    split; [intros _ | intros; lia].
    split; [eauto 10 | lia].
  - unfold view in Hv. rewrite Hi in Hv. subst F.
    apply readPage_Ok in Hr as (sp & pg' & Hp & _ & Hpg' & Hm).
    rewrite Hpg in Hpg'. injection Hpg' as <-.
    exists pg. split; [destruct o0; exact Hpg|].
    rewrite (isContinued_matches _ _ Hm).
    destruct Hm as (_ & Hc & Hel & _).
    apply (f_equal length) in Hel as Hlen.
    rewrite !length_map, length_app, length_map in Hlen. cbn in Hlen.
    replace (OGG.packetIndex (OGG.set_initialized true
               (OGG.set_packetIndex (if Spec.continued sp then 1 else 0)%nat o0)))
      with (if Spec.continued sp then 1 else 0)%nat by (destruct o0; reflexivity).
    split; [|intros; lia].
    intros Hk. split; [|lia].
    unfold view.
    replace (OGG.initialized (OGG.set_initialized true
               (OGG.set_packetIndex (if Spec.continued sp then 1 else 0)%nat o0)))
      with true by (destruct o0; reflexivity).
    set (k := (if Spec.continued sp then 1 else 0)%nat) in *.
    set (gs := fst (Spec.lace [] (Spec.page_segments sp))) in *.
    set (tr := snd (Spec.lace [] (Spec.page_segments sp))) in *.
    exists pg, (drop k gs), tr.
    replace (OGG.CurrentPage (OGG.set_initialized true (OGG.set_packetIndex k o0)))
      with (OGG.CurrentPage o0) by (destruct o0; reflexivity).
    replace (OGG.packetIndex (OGG.set_initialized true (OGG.set_packetIndex k o0)))
      with k by (destruct o0; reflexivity).
    replace (OGG.stream (OGG.set_initialized true (OGG.set_packetIndex k o0)))
      with (OGG.stream o0) by (destruct o0; reflexivity).
    split; [exact Hpg|]. split; [rewrite length_drop; lia|].
    split.
    + rewrite <- skipn_map, Hel, drop_app_le by (rewrite length_map; lia).
      rewrite skipn_map. reflexivity.
    + unfold Spec.packets_of. rewrite (pages_of_parsed _ _ _ Hp).
      rewrite (stream_segments_parsed _ _ _ Hp), lace_app. cbn [fst].
      fold gs tr. fold k.
      replace (if Spec.continued sp then drop 1 (gs ++ fst (Spec.lace tr (Spec.stream_segments (OGG.stream o0)))) else gs ++ fst (Spec.lace tr (Spec.stream_segments (OGG.stream o0))))
        with (drop k (gs ++ fst (Spec.lace tr (Spec.stream_segments (OGG.stream o0)))))
        by (unfold k; destruct (Spec.continued sp); reflexivity).
      rewrite drop_app_le by lia. reflexivity.
Qed.

Lemma view_Ok g o F p o' :
  view o F -> step g o = inl (Ok p, o') ->
  exists grp F', F = grp :: F' /\ elems p = Spec.seg_bytes grp /\ view o' F'.
Proof.
  intros Hv Hs.
  apply step_Ok in Hs as (u & o1 & pg & Hf & Hpg & Hne & Hp & ->).
  pose proof (first_page_initialized _ _ _ Hf) as [Hi1 _].
  destruct (view_first _ _ _ _ Hv Hf) as (pg' & Hpg' & Hle & Hgt).
  rewrite Hpg in Hpg'. injection Hpg' as <-.
  apply lookup_lt_Some in Hp as Hlt.
  destruct (Nat.le_gt_cases (OGG.packetIndex o1) (OGG.packetsCount pg)) as [Hk|Hk];
    [|specialize (Hgt Hk); lia].
  destruct (Hle Hk) as (Hv1 & Hlen). unfold view in Hv1. rewrite Hi1 in Hv1.
  destruct Hv1 as (pg' & gs & tr & Hpg' & Hc & Hel & ->).
  rewrite Hpg in Hpg'. injection Hpg' as <-.
  destruct gs as [|grp gs]; [cbn in Hc; lia|].
  rewrite (drop_S _ _ _ Hp) in Hel. cbn in Hel. injection Hel as Hp0 Hel.
  exists grp, (gs ++ fst (Spec.lace tr (Spec.stream_segments (OGG.stream o1)))).
  split; [reflexivity|]. split; [exact Hp0|].
  unfold view, arm.
  set (o2 := OGG.set_packetIndex (S (OGG.packetIndex o1)) o1).
  assert (Ho2 : OGG.initialized o2 = true /\ OGG.CurrentPage o2 = Some pg /\
                OGG.packetIndex o2 = S (OGG.packetIndex o1) /\
                OGG.stream o2 = OGG.stream o1).
  { unfold o2. destruct o1; cbn in *. auto. }
  destruct Ho2 as (Hi2 & Hpg2 & Hidx2 & Hs2).
  assert (Ho3 : forall b : bool, OGG.initialized (if b then OGG.set_lastPacket true o2 else o2) = true /\
                OGG.CurrentPage (if b then OGG.set_lastPacket true o2 else o2) = Some pg /\
                OGG.packetIndex (if b then OGG.set_lastPacket true o2 else o2) = S (OGG.packetIndex o1) /\
                OGG.stream (if b then OGG.set_lastPacket true o2 else o2) = OGG.stream o1).
  { intros []; [destruct o2; cbn in *|]; auto. }
  destruct (Ho3 ((OGG.packetIndex o2 =? OGG.packetsCount pg)%nat && OGG.isLast pg))
    as (-> & Hpg3 & -> & ->).
  exists pg, gs, tr. repeat split; auto. cbn in Hc. lia.
Qed.

Lemma prepend_first_lace tr segs :
  prepend_first (Spec.seg_bytes tr)
    (map Spec.seg_bytes (fst (Spec.lace [] segs)) ++ [Spec.seg_bytes (snd (Spec.lace [] segs))])
  = map Spec.seg_bytes (fst (Spec.lace tr segs)) ++ [Spec.seg_bytes (snd (Spec.lace tr segs))].
Proof.
  rewrite (lace_cur segs tr).
  destruct (fst (Spec.lace [] segs)) as [|g gs]; cbn [prepend_first map app fst snd];
    rewrite seg_bytes_app; reflexivity.
Qed.

Lemma lace_cur_length tr segs :
  length (fst (Spec.lace tr segs)) = length (fst (Spec.lace [] segs)).
Proof.
  rewrite (lace_cur segs tr). destruct (fst (Spec.lace [] segs)); reflexivity.
Qed.

Lemma elems_append g s xs : elems (OGG.append g s xs) = elems s ++ xs.
Proof. unfold OGG.append. destruct (_ <=? _)%nat; reflexivity. Qed.

Lemma carry_elems g rest o2 u o3 pg2 :
  carry g rest o2 = (Ok u, o3) -> OGG.CurrentPage o2 = Some pg2 ->
  exists pg3, OGG.CurrentPage o3 = Some pg3 /\
    OGG.header pg3 = OGG.header pg2 /\
    OGG.packetsCount pg3 = OGG.packetsCount pg2 /\
    length (OGG.packets pg3) = length (OGG.packets pg2) /\
    map elems (OGG.packets pg3) = prepend_first (elems rest) (map elems (OGG.packets pg2)).
Proof.
  intros Hc Hpg2. apply carry_Ok in Hc as (_ & _ & [[Hl ->] | (Hl & pg & p0 & Hpg & Hp0 & Hpg3)]).
  - exists pg2. repeat split; auto. unfold len in Hl.
    destruct (elems rest); [|discriminate]. destruct (map elems (OGG.packets pg2)); reflexivity.
  - rewrite Hpg2 in Hpg. injection Hpg as <-.
    eexists. split; [exact Hpg3|]. cbn. repeat split.
    + apply length_insert.
    + destruct (OGG.packets pg2) as [|q qs]; [discriminate|].
      cbn in Hp0. injection Hp0 as ->. cbn. rewrite elems_append. reflexivity.
Qed.

Lemma view_more g o F o4 :
  view o F -> step g o = inr o4 -> view o4 F.
Proof.
  intros Hv Hs.
  apply step_more in Hs
    as (u & o1 & pg & rest & u2 & o2 & u3 & o3 & Hf & Hpg & Hidx & Hrest & Hr & Hc & ->).
  pose proof (first_page_initialized _ _ _ Hf) as [Hi1 _].
  destruct (view_first _ _ _ _ Hv Hf) as (pg' & Hpg' & Hle & _).
  rewrite Hpg in Hpg'. injection Hpg' as <-.
  destruct (Hle ltac:(lia)) as (Hv1 & Hlen). unfold view in Hv1. rewrite Hi1 in Hv1.
  destruct Hv1 as (pg' & gs & tr & Hpg' & Hcnt & Hel & ->).
  rewrite Hpg in Hpg'. injection Hpg' as <-.
  destruct gs as [|? ?]; [|cbn in Hcnt; lia]. cbn [app map] in *.
  rewrite Hidx, (drop_S _ _ _ Hrest) in Hel. cbn in Hel. injection Hel as Hrb _.
  pose proof (readPage_cursor _ _ _ Hr) as (Hi2 & _).
  apply readPage_Ok in Hr as (sp & pg2 & Hp & _ & Hpg2 & Hm).
  rewrite note_granule_stream in Hp.
  assert (Hi2' : OGG.initialized o2 = true).
  { rewrite Hi2. unfold note_granule. destruct (negb _); destruct o1; exact Hi1. }
  pose proof (carry_Ok _ _ _ _ _ Hc) as (Hs3 & (Hi3 & _) & _).
  destruct (carry_elems _ _ _ _ _ _ Hc Hpg2) as (pg3 & Hpg3 & _ & Hc3 & _ & Hel3).
  destruct Hm as (_ & Hc2 & Hel2 & _).
  rewrite Hel2, Hrb, prepend_first_lace in Hel3.
  unfold view.
  cbn [OGG.initialized OGG.CurrentPage OGG.packetIndex OGG.stream OGG.set_packetIndex].
  rewrite Hi3, Hi2'.
  exists pg3, (fst (Spec.lace tr (Spec.page_segments sp))),
         (snd (Spec.lace tr (Spec.page_segments sp))).
  rewrite drop_0, Hs3.
  split; [exact Hpg3|]. split; [rewrite Hc3, Hc2; symmetry; apply lace_cur_length|].
  split; [exact Hel3|].
  rewrite (stream_segments_parsed _ _ _ Hp), lace_app. reflexivity.
Qed.

(** Every packet the reader returns is the next packet of the stream. *)
Lemma pulled_view g o r o' :
  pulled g o r o' -> forall F p, r = Ok p -> view o F ->
  exists grp F', F = grp :: F' /\ elems p = Spec.seg_bytes grp /\ view o' F'.
Proof.
  induction 1 as [o r o' Hs | o o3 r o' Hs _ IH]; intros F p -> Hv.
  - eapply view_Ok; eauto.
  - eapply IH; eauto. eapply view_more; eauto.
Qed.

Lemma pulls_view g o ps o' :
  pulls g o ps o' -> forall F, view o F -> Forall (Forall seg_ok) F ->
  Forall2 is_packet ps (take (length ps) F) /\ view o' (drop (length ps) F).
Proof.
  induction 1 as [o | o p o1 ps o2 Hn _ IH]; intros F Hv Hok.
  - cbn. rewrite drop_0. split; [constructor | exact Hv].
  - apply NextPacket_pulled in Hn.
    destruct (pulled_view _ _ _ _ Hn F p eq_refl Hv) as (grp & F' & -> & Hp & Hv').
    inversion Hok as [|? ? Hg Hok']; subst.
    destruct (IH F' Hv' Hok') as (H2 & Hv2).
    cbn. split; [|exact Hv2]. constructor; [|exact H2].
    split; [exact Hp|]. unfold len. rewrite Hp. symmetry. apply seg_ok_total; auto.
Qed.

(** C5: the packets that successive calls return on a new reader are,
    in order, what the lacing values of the pages delimit: each is the
    concatenation of a maximal run of segments of 255 bytes closed by
    a segment of fewer bytes, runs going on across page boundaries, and
    its length is the sum of the sizes of its segments. *)
Theorem C5_packets_are_their_segments g s ps o :
  pulls g (OGG.NewOggReader s) ps o ->
  Forall2 (fun p grp =>
             elems p = concat (map snd grp) /\
             len p = sum_list_with (fun sg => Spec.seg_size (fst sg)) grp)
          ps (take (length ps) (Spec.packets_of s)).
Proof.
  intros H. eapply pulls_view in H as [H _].
  - exact H.
  - reflexivity.
  - apply packets_of_ok.
Qed.

Lemma C5_witness :
  exists p o,
    OGG.NextPacket g0 (OGG.NewOggReader demo_stream) = (Ok p, o) /\
    Forall2 (fun p grp =>
             elems p = concat (map snd grp) /\
             len p = sum_list_with (fun sg => Spec.seg_size (fst sg)) grp)
          [p] (take 1 (Spec.packets_of demo_stream)).
Proof.
  destruct (OGG.NextPacket g0 (OGG.NewOggReader demo_stream)) as [r o] eqn:E.
  vm_compute in E. injection E as <- <-.
  eexists _, _. split; [reflexivity|].
  refine (C5_packets_are_their_segments g0 demo_stream [_] _ _).
  eapply pulls_cons; [vm_compute; reflexivity | apply pulls_nil].
Defined.

(** *** Granule positions *)

Lemma granule_matches sp pg :
  page_matches sp pg -> OGG.AbsoluteGranulePosition (OGG.header pg) = Spec.granule sp.
Proof. intros (Hh & _). rewrite Hh. reflexivity. Qed.

Lemma note_granule_position pg o :
  OGG.lastPagePosition (note_granule pg o) =
  upd_granule (OGG.lastPagePosition o) (OGG.AbsoluteGranulePosition (OGG.header pg)).
Proof.
  unfold note_granule, upd_granule.
  destruct (_ =? -1); cbn [negb]; [reflexivity | destruct o; reflexivity].
Qed.

Lemma first_page_granules o u o1 :
  OGG.first_page o = (Ok u, o1) ->
  granules o1 = granules o /\ OGG.lastPagePosition o1 = OGG.lastPagePosition o /\
  OGG.lastPacket o1 = OGG.lastPacket o.
Proof.
  intros Hf. apply first_page_Ok in Hf
    as [[Hi ->] | (Hi & u' & o0 & pg & Hr & Hpg & ->)]; [auto|].
  pose proof (readPage_cursor _ _ _ Hr) as (_ & Hlp & _ & Hpos).
  apply readPage_Ok in Hr as (sp & pg' & Hp & _ & Hpg' & Hm).
  rewrite Hpg in Hpg'. injection Hpg' as <-.
  unfold granules.
  cbn [OGG.initialized OGG.CurrentPage OGG.stream OGG.lastPagePosition OGG.lastPacket
       OGG.set_initialized OGG.set_packetIndex].
  rewrite Hi, Hpg, (pages_of_parsed _ _ _ Hp), (granule_matches _ _ Hm). auto.
Qed.

Lemma seen_Ok g all o p o' :
  seen all o -> step g o = inl (Ok p, o') -> seen all o'.
Proof.
  intros (pre & Hall & Hpos) Hs.
  apply step_Ok in Hs as (u & o1 & pg & Hf & Hpg & _ & _ & ->).
  apply first_page_granules in Hf as (Hg & Hp1 & _).
  exists pre. rewrite <- Hg in Hall. rewrite <- Hp1 in Hpos.
  unfold arm. destruct (_ && _); split; auto.
Qed.

Lemma seen_more g all o o4 :
  seen all o -> step g o = inr o4 -> seen all o4.
Proof.
  intros (pre & Hall & Hpos) Hs.
  apply step_more in Hs
    as (u & o1 & pg & rest & u2 & o2 & u3 & o3 & Hf & Hpg & _ & _ & Hr & Hc & ->).
  pose proof (first_page_initialized _ _ _ Hf) as [Hi1 _].
  apply first_page_granules in Hf as (Hg & Hp1 & _).
  rewrite <- Hg in Hall. rewrite <- Hp1 in Hpos.
  pose proof (readPage_cursor _ _ _ Hr) as (Hi2 & _ & _ & Hpos2).
  apply readPage_Ok in Hr as (sp & pg2 & Hp & _ & Hpg2 & Hm).
  rewrite note_granule_stream in Hp.
  pose proof (carry_Ok _ _ _ _ _ Hc) as (Hs3 & (Hi3 & _ & _ & Hpos3) & _).
  destruct (carry_elems _ _ _ _ _ _ Hc Hpg2) as (pg3 & Hpg3 & Hh3 & _).
  exists (pre ++ [OGG.AbsoluteGranulePosition (OGG.header pg)]). split.
  - rewrite Hall. unfold granules.
    cbn [OGG.initialized OGG.CurrentPage OGG.stream OGG.set_packetIndex].
    rewrite Hi1, Hpg, Hi3, Hi2, Hpg3, Hh3, Hs3, (pages_of_parsed _ _ _ Hp),
      (granule_matches _ _ Hm).
    replace (OGG.initialized (note_granule pg o1)) with true
      by (unfold note_granule; destruct (negb _); destruct o1; cbn in *; congruence).
    rewrite <- app_assoc. reflexivity.
  - cbn [OGG.lastPagePosition OGG.set_packetIndex].
    rewrite Hpos3, Hpos2, note_granule_position, fold_left_app, Hpos. reflexivity.
Qed.

Lemma seen_Err g all o e o' :
  seen all o -> step g o = inl (Err e, o') ->
  OGG.lastPagePosition o' = last_granule all.
Proof.
  intros (pre & Hall & Hpos) Hs. unfold last_granule.
  apply step_Err in Hs as [[Hi Hr] | (u & o1 & pg & rest & Hf & Hpg & _ & _ & Hr)].
  - pose proof (readPage_cursor _ _ _ Hr) as (_ & _ & _ & Hpos').
    apply readPage_Err in Hr. unfold granules in Hall.
    rewrite Hi, (pages_of_end _ Hr), app_nil_r in Hall. cbn in Hall.
    rewrite Hall, Hpos'. exact Hpos.
  - pose proof (first_page_initialized _ _ _ Hf) as [Hi1 _].
    apply first_page_granules in Hf as (Hg & Hp1 & _).
    rewrite <- Hg in Hall. rewrite <- Hp1 in Hpos.
    pose proof (readPage_cursor _ _ _ Hr) as (_ & _ & _ & Hpos').
    apply readPage_Err in Hr. rewrite note_granule_stream in Hr.
    unfold granules in Hall. rewrite Hi1, Hpg, (pages_of_end _ Hr) in Hall.
    cbn in Hall. rewrite Hall, Hpos', note_granule_position, fold_left_app, Hpos.
    reflexivity.
Qed.

Lemma pulled_seen g o r o' :
  pulled g o r o' -> forall all, seen all o ->
  (forall p, r = Ok p -> seen all o') /\
  (forall e, r = Err e -> OGG.lastPagePosition o' = last_granule all).
Proof.
  induction 1 as [o r o' Hs | o o3 r o' Hs _ IH]; intros all Hseen.
  - split.
    + intros p ->. eapply seen_Ok; eauto.
    + intros e ->. eapply seen_Err; eauto.
  - apply IH. eapply seen_more; eauto.
Qed.

Lemma pulls_seen g o ps o' :
  pulls g o ps o' -> forall all, seen all o -> seen all o'.
Proof.
  induction 1 as [o | o p o1 ps o2 Hn _ IH]; intros all Hseen; auto.
  apply IH. apply NextPacket_pulled in Hn.
  eapply (proj1 (pulled_seen _ _ _ _ Hn all Hseen)); eauto.
Qed.

Lemma last_granule_last l gr :
  last l = Some gr -> gr <> -1 -> last_granule l = gr.
Proof.
  intros Hl Hgr. apply last_Some in Hl as [l' ->].
  unfold last_granule. rewrite fold_left_app. cbn. unfold upd_granule.
  destruct (Z.eqb_spec gr (-1)); congruence.
Qed.

(** *** What is left to deliver *)

Lemma lace_count segs : forall cur,
  (length (fst (Spec.lace cur segs)) <= length segs)%nat.
Proof.
  induction segs as [|sg segs IH]; intros cur; cbn [Spec.lace]; [cbn; lia|].
  destruct (Nat.ltb _ 255).
  - specialize (IH []). destruct (Spec.lace [] segs). cbn in *. lia.
  - specialize (IH (cur ++ [sg])). cbn. lia.
Qed.

Lemma length_segments t : forall b, length (Spec.segments t b) = length t.
Proof. induction t; intros b; cbn; auto. Qed.

Lemma readPage_Ok_pending o u o' :
  OGG.readPage o = (Ok u, o') ->
  exists pg, OGG.CurrentPage o' = Some pg /\
    (length (OGG.stream o') + length (OGG.packets pg) + 26 <= length (OGG.stream o))%nat.
Proof.
  intros H. apply readPage_Ok in H as (sp & pg & Hp & _ & Hpg & (_ & _ & Hel & _)).
  exists pg. split; auto.
  apply parse_page_length in Hp as (Hl & _).
  apply (f_equal length) in Hel. rewrite !length_map, length_app, length_map in Hel.
  pose proof (lace_count (Spec.page_segments sp) []) as Hc.
  unfold Spec.page_segments in Hc at 2. rewrite length_segments in Hc.
  cbn in Hel. lia.
Qed.

Lemma first_page_pending o u o1 :
  OGG.first_page o = (Ok u, o1) -> (OPUS.pending o1 <= OPUS.pending o)%nat.
Proof.
  intros Hf. apply first_page_Ok in Hf
    as [[Hi ->] | (Hi & u' & o0 & pg & Hr & Hpg & ->)]; [lia|].
  apply readPage_Ok_pending in Hr as (pg' & Hpg' & Hl).
  rewrite Hpg in Hpg'. injection Hpg' as <-.
  unfold OPUS.pending.
  cbn [OGG.initialized OGG.CurrentPage OGG.packetIndex OGG.stream
       OGG.set_initialized OGG.set_packetIndex].
  rewrite Hi, Hpg. lia.
Qed.

Lemma step_Ok_pending g o p o' :
  step g o = inl (Ok p, o') -> (OPUS.pending o' < OPUS.pending o)%nat.
Proof.
  intros Hs. apply step_Ok in Hs as (u & o1 & pg & Hf & Hpg & _ & Hp & ->).
  pose proof (first_page_initialized _ _ _ Hf) as [Hi1 _].
  apply first_page_pending in Hf. apply lookup_lt_Some in Hp.
  assert (OPUS.pending (arm pg (OGG.set_packetIndex (S (OGG.packetIndex o1)) o1))
          < OPUS.pending o1)%nat; [|lia].
  unfold OPUS.pending, arm.
  destruct (_ && _);
    cbn [OGG.initialized OGG.CurrentPage OGG.packetIndex OGG.stream
         OGG.set_lastPacket OGG.set_packetIndex];
    rewrite Hi1, Hpg; lia.
Qed.

Lemma step_more_pending g o o4 :
  step g o = inr o4 -> (OPUS.pending o4 < OPUS.pending o)%nat.
Proof.
  intros Hs. apply step_more in Hs
    as (u & o1 & pg & rest & u2 & o2 & u3 & o3 & Hf & Hpg & _ & _ & Hr & Hc & ->).
  pose proof (first_page_initialized _ _ _ Hf) as [Hi1 _].
  apply first_page_pending in Hf.
  apply readPage_Ok_pending in Hr as (pg2 & Hpg2 & Hl).
  rewrite note_granule_stream in Hl.
  pose proof (carry_Ok _ _ _ _ _ Hc) as (Hs3 & _).
  destruct (carry_elems _ _ _ _ _ _ Hc Hpg2) as (pg3 & Hpg3 & _ & _ & Hlen3 & _).
  assert (OPUS.pending (OGG.set_packetIndex 0 o3) < OPUS.pending o1)%nat; [|lia].
  unfold OPUS.pending.
  cbn [OGG.initialized OGG.CurrentPage OGG.packetIndex OGG.stream OGG.set_packetIndex].
  rewrite Hpg3, Hs3, Hlen3. destruct (OGG.initialized o3), (OGG.initialized o1); lia.
Qed.

Lemma pulled_pending g o r o' :
  pulled g o r o' -> forall p, r = Ok p -> (OPUS.pending o' < OPUS.pending o)%nat.
Proof.
  induction 1 as [o r o' Hs | o o3 r o' Hs _ IH]; intros p ->.
  - eapply step_Ok_pending; eauto.
  - apply step_more_pending in Hs. specialize (IH p eq_refl). lia.
Qed.

Lemma NextPacket_pending g o p o' :
  OGG.NextPacket g o = (Ok p, o') -> (OPUS.pending o' < OPUS.pending o)%nat.
Proof. intros H. apply NextPacket_pulled in H. eapply pulled_pending; eauto. Qed.

(** *** The latch of the Ogg reader *)

Lemma step_Ok_latch g o p o' :
  step g o = inl (Ok p, o') ->
  exists pg, OGG.CurrentPage o' = Some pg /\
    (0 < OGG.packetIndex o')%nat /\
    OGG.packets pg !! (OGG.packetIndex o' - 1)%nat = Some p /\
    OGG.lastPacket o' =
      OGG.lastPacket o ||
      ((OGG.packetIndex o' =? OGG.packetsCount pg)%nat && OGG.isLast pg).
Proof.
  intros Hs. apply step_Ok in Hs as (u & o1 & pg & Hf & Hpg & _ & Hp & ->).
  apply first_page_granules in Hf as (_ & _ & Hlp).
  exists pg. unfold arm.
  cbn [OGG.packetIndex OGG.set_packetIndex].
  destruct ((S (OGG.packetIndex o1) =? OGG.packetsCount pg)%nat && OGG.isLast pg) eqn:Hb;
    cbn [OGG.CurrentPage OGG.packetIndex OGG.lastPacket OGG.set_lastPacket OGG.set_packetIndex];
    rewrite ?Hb, ?Nat.sub_0_r, <- Hlp.
  - replace (S (OGG.packetIndex o1) - 1)%nat with (OGG.packetIndex o1) by lia.
    rewrite orb_true_r. repeat split; auto with lia.
  - replace (S (OGG.packetIndex o1) - 1)%nat with (OGG.packetIndex o1) by lia.
    rewrite orb_false_r. repeat split; auto with lia.
Qed.

Lemma step_more_latch g o o4 :
  step g o = inr o4 -> OGG.lastPacket o4 = OGG.lastPacket o.
Proof.
  intros Hs. apply step_more in Hs
    as (u & o1 & pg & rest & u2 & o2 & u3 & o3 & Hf & Hpg & _ & _ & Hr & Hc & ->).
  apply first_page_granules in Hf as (_ & _ & Hlp).
  pose proof (readPage_cursor _ _ _ Hr) as (_ & Hlp2 & _).
  pose proof (carry_Ok _ _ _ _ _ Hc) as (_ & (_ & Hlp3 & _) & _).
  cbn [OGG.lastPacket OGG.set_packetIndex]. rewrite Hlp3, Hlp2, <- Hlp.
  unfold note_granule. destruct (negb _); destruct o1; reflexivity.
Qed.

Lemma pulled_latch g o r o' :
  pulled g o r o' -> forall p, r = Ok p ->
  exists pg, OGG.CurrentPage o' = Some pg /\
    (0 < OGG.packetIndex o')%nat /\
    OGG.packets pg !! (OGG.packetIndex o' - 1)%nat = Some p /\
    OGG.lastPacket o' =
      OGG.lastPacket o ||
      ((OGG.packetIndex o' =? OGG.packetsCount pg)%nat && OGG.isLast pg).
Proof.
  induction 1 as [o r o' Hs | o o3 r o' Hs _ IH]; intros p ->.
  - eapply step_Ok_latch; eauto.
  - apply step_more_latch in Hs. rewrite <- Hs. eapply IH; eauto.
Qed.

(** ** The Opus reader *)

Lemma cast_Ok_never {A B} (r : outcome A) (b : B) : @cast A B r <> Ok b.
Proof. destruct r; discriminate. Qed.

Lemma readIDHeader_eq g o :
  OPUS.readIDHeader g o =
  match OGG.NextPacket g (OPUS.OGGReader o) with
  | (Ok hp, og) =>
      match parseID hp with
      | Ok h => (Ok tt, OPUS.set_idheader h (OPUS.set_OGGReader og o))
      | r => (cast r, OPUS.set_OGGReader og o)
      end
  | (r, og) => (cast r, OPUS.set_OGGReader og o)
  end.
Proof.
  unfold OPUS.readIDHeader, parseID. unfold bind at 1. unfold OPUS.onOgg.
  destruct (OGG.NextPacket g (OPUS.OGGReader o)) as [[hp| | |] og]; try reflexivity.
  unfold bind at 1, lift at 1.
  destruct (reslice hp 0 8) as [prefix| | |]; try reflexivity. cbn [obind].
  destruct (negb _); [reflexivity|].
  unfold bind at 1, lift at 1.
  destruct (index hp 8) as [version| | |]; try reflexivity. cbn [obind].
  unfold bind at 1, lift at 1.
  destruct (index hp 9) as [channels| | |]; try reflexivity. cbn [obind].
  destruct (_ =? 0); [reflexivity|].
  unfold bind at 1, lift at 1.
  destruct (reslice hp 10 12) as [b1| | |]; try reflexivity. cbn [obind].
  unfold bind at 1, lift at 1.
  destruct (OPUS.Uint16 b1) as [preSkip| | |]; try reflexivity. cbn [obind].
  unfold bind at 1, lift at 1.
  destruct (reslice hp 12 16) as [b2| | |]; try reflexivity. cbn [obind].
  unfold bind at 1, lift at 1.
  destruct (OPUS.Uint32 b2) as [rate| | |]; try reflexivity. cbn [obind].
  unfold bind at 1, lift at 1.
  destruct (reslice hp 16 18) as [b3| | |]; try reflexivity. cbn [obind].
  unfold bind at 1, lift at 1.
  destruct (OPUS.Uint16 b3) as [gain| | |]; try reflexivity. cbn [obind].
  unfold bind at 1, lift at 1.
  destruct (index hp 18) as [family| | |]; try reflexivity. cbn [obind].
  destruct (negb _); reflexivity.
Qed.

Lemma readTags_eq g o :
  OPUS.readTags g o =
  match OGG.NextPacket g (OPUS.OGGReader o) with
  | (Ok hp, og) =>
      match parseTags hp with
      | Ok v => (Ok tt, OPUS.set_VendorName v (OPUS.set_OGGReader og o))
      | r => (cast r, OPUS.set_OGGReader og o)
      end
  | (r, og) => (cast r, OPUS.set_OGGReader og o)
  end.
Proof.
  unfold OPUS.readTags, parseTags. unfold bind at 1. unfold OPUS.onOgg.
  destruct (OGG.NextPacket g (OPUS.OGGReader o)) as [[hp| | |] og]; try reflexivity.
  unfold bind at 1, lift at 1.
  destruct (reslice hp 0 8) as [prefix| | |]; try reflexivity. cbn [obind].
  destruct (negb _); [reflexivity|].
  unfold bind at 1, lift at 1.
  destruct (reslice hp 8 12) as [b| | |]; try reflexivity. cbn [obind].
  unfold bind at 1, lift at 1.
  destruct (OPUS.Uint32 b) as [n| | |]; try reflexivity.
Qed.

Lemma O_NextPacket_fuel_step g f o :
  OPUS.NextPacket_fuel g (S f) o =
  match ostep g o with
  | inl res => res
  | inr o3 => OPUS.NextPacket_fuel g f o3
  end.
Proof.
  cbn [OPUS.NextPacket_fuel]. unfold ostep.
  unfold bind at 1, get at 1.
  destruct (OPUS.LastPacket o); [reflexivity|].
  unfold bind at 1.
  destruct ((if negb (OPUS.initialized o) then OPUS.readHeaders g else ret ()) o)
    as [[u| | |] o1]; try reflexivity.
  unfold bind at 1, OPUS.onOgg at 1.
  destruct (OGG.NextPacket g (OPUS.OGGReader o1)) as [[data| | |] og]; try reflexivity.
  unfold bind at 1, lift at 1.
  destruct (OPUS.readPacketConfig _) as [pkt| | |]; try reflexivity.
  unfold bind at 1, get at 1. unfold bind at 1.
  cbn [OPUS.OGGReader OPUS.set_OGGReader].
  replace ((if OGG.lastPacket og then modify (OPUS.set_LastPacket true) else ret ())
             (OPUS.set_OGGReader og o1))
    with (Ok tt, if OGG.lastPacket og
                 then OPUS.set_LastPacket true (OPUS.set_OGGReader og o1)
                 else OPUS.set_OGGReader og o1)
    by (destruct (OGG.lastPacket og); reflexivity).
  cbn iota. unfold bind at 1, lift at 1.
  destruct (reslice data 0 2) as [prefix| | |]; try reflexivity.
  destruct (OGG.bytes_eqb _ _); reflexivity.
Qed.

Lemma readHeaders_eq g o :
  OPUS.readHeaders g o =
  match OPUS.readIDHeader g o with
  | (Ok _, o1) =>
      match OPUS.readTags g o1 with
      | (Ok _, o2) => (Ok tt, OPUS.set_initialized true o2)
      | (r, o2) => (cast r, o2)
      end
  | (r, o1) => (cast r, o1)
  end.
Proof.
  unfold OPUS.readHeaders. unfold bind at 1.
  destruct (OPUS.readIDHeader g o) as [[?| | |] o1]; try reflexivity.
  unfold bind at 1. destruct (OPUS.readTags g o1) as [[?| | |] o2]; reflexivity.
Qed.

Lemma le_uint_bound bs : 0 <= le_uint bs < 256 ^ Z.of_nat (length bs).
Proof.
  induction bs as [|b bs IH]; [cbn; lia|].
  cbn [le_uint length]. rewrite Nat2Z.inj_succ, Z.pow_succ_r by lia.
  pose proof (byte_to_Z_range b). lia.
Qed.

Lemma Uint16_bound b v : OPUS.Uint16 b = Ok v -> 0 <= v <= 65535.
Proof.
  unfold OPUS.Uint16. destruct (index b 1); try discriminate. intros [= <-].
  pose proof (le_uint_bound (take 2 (elems b))) as H.
  assert (256 ^ Z.of_nat (length (take 2 (elems b))) <= 256 ^ 2).
  { apply Z.pow_le_mono_r; [lia|]. rewrite length_take. lia. }
  lia.
Qed.

Lemma obind_Ok {A B} (r : outcome A) (k : A -> outcome B) b :
  obind r k = Ok b -> exists a, r = Ok a /\ k a = Ok b.
Proof. destruct r; cbn; try discriminate. eauto. Qed.

Ltac outcome_inv H :=
  repeat first
    [ apply obind_Ok in H as (? & ? & H)
    | match type of H with
      | (if ?c then _ else _) = _ => destruct c eqn:?; [discriminate H|]
      end ].

Lemma parseID_PreSkip hp h : parseID hp = Ok h -> 0 <= OPUS.PreSkip h <= 65535.
Proof.
  unfold parseID. intros H. outcome_inv H. injection H as <-. cbn.
  eapply Uint16_bound; eauto.
Qed.

Lemma obind_fuel {A B} (r : outcome A) (k : A -> outcome B) :
  r <> OutOfFuel -> (forall a, k a <> OutOfFuel) -> obind r k <> OutOfFuel.
Proof. destruct r; cbn; auto; discriminate. Qed.

Lemma Uint16_fuel b : OPUS.Uint16 b <> OutOfFuel.
Proof. unfold OPUS.Uint16, index. destruct (_ !! _); discriminate. Qed.
Lemma Uint32_fuel b : OPUS.Uint32 b <> OutOfFuel.
Proof. unfold OPUS.Uint32, index. destruct (_ !! _); discriminate. Qed.

Ltac obind_fuel_steps :=
  repeat first
    [ apply reslice_fuel | apply index_fuel | apply Uint16_fuel | apply Uint32_fuel
    | discriminate
    | apply obind_fuel; [ | intros ? ]
    | match goal with |- (if ?c then _ else _) <> _ => destruct c end ].

Lemma parseID_fuel hp : parseID hp <> OutOfFuel.
Proof. unfold parseID. obind_fuel_steps. Qed.

Lemma parseTags_fuel hp : parseTags hp <> OutOfFuel.
Proof. unfold parseTags. obind_fuel_steps. Qed.

Lemma cast_fuel {A B} (r : outcome A) :
  r <> OutOfFuel -> (forall a, r <> Ok a) -> @cast A B r <> OutOfFuel.
Proof. destruct r; cbn; intros H1 H2; try discriminate; try congruence. Qed.

Lemma readIDHeader_facts g o r o1 :
  OPUS.readIDHeader g o = (r, o1) ->
  books_kept o o1 /\ OPUS.LastPacket o1 = OPUS.LastPacket o /\
  OPUS.initialized o1 = OPUS.initialized o /\
  r <> OutOfFuel /\
  (OPUS.skipped o = 0 -> sane o -> sane o1) /\
  (forall u, r = Ok u ->
     (OPUS.pending (OPUS.OGGReader o1) < OPUS.pending (OPUS.OGGReader o))%nat).
Proof.
  rewrite readIDHeader_eq.
  destruct (OGG.NextPacket g (OPUS.OGGReader o)) as [[hp| | |] og] eqn:Hn.
  - destruct (parseID hp) as [h| | |] eqn:Hh; intros [= <- <-].
    + split; [split; reflexivity|]. repeat (split; [first [reflexivity|discriminate]|]).
      split.
      * intros Hz (Hs & Hp & Hi). apply parseID_PreSkip in Hh.
        unfold sane. cbn. rewrite Hz. repeat split; auto; lia.
      * intros _ _. cbn. eapply NextPacket_pending; eauto.
    + split; [split; reflexivity|]. repeat (split; [first [reflexivity|discriminate]|]).
      split; [intros _ Hs; exact Hs | discriminate].
    + split; [split; reflexivity|]. repeat (split; [first [reflexivity|discriminate]|]).
      split; [intros _ Hs; exact Hs | discriminate].
    + exfalso; eapply parseID_fuel; eauto.
  - intros [= <- <-].
    split; [split; reflexivity|]. repeat (split; [first [reflexivity|discriminate]|]).
    split; [intros _ Hs; exact Hs | discriminate].
  - intros [= <- <-].
    split; [split; reflexivity|]. repeat (split; [first [reflexivity|discriminate]|]).
    split; [intros _ Hs; exact Hs | discriminate].
  - exfalso. eapply NextPacket_total; eauto.
Qed.

Lemma readTags_facts g o r o1 :
  OPUS.readTags g o = (r, o1) ->
  books_kept o o1 /\ OPUS.LastPacket o1 = OPUS.LastPacket o /\
  OPUS.initialized o1 = OPUS.initialized o /\
  OPUS.idheader o1 = OPUS.idheader o /\
  r <> OutOfFuel /\
  (forall u, r = Ok u ->
     (OPUS.pending (OPUS.OGGReader o1) < OPUS.pending (OPUS.OGGReader o))%nat).
Proof.
  rewrite readTags_eq.
  destruct (OGG.NextPacket g (OPUS.OGGReader o)) as [[hp| | |] og] eqn:Hn.
  - destruct (parseTags hp) as [h| | |] eqn:Hh; intros [= <- <-].
    + split; [split; reflexivity|]. repeat (split; [first [reflexivity|discriminate]|]).
      intros _ _. cbn. eapply NextPacket_pending; eauto.
    + split; [split; reflexivity|]. repeat (split; [first [reflexivity|discriminate]|]).
      discriminate.
    + split; [split; reflexivity|]. repeat (split; [first [reflexivity|discriminate]|]).
      discriminate.
    + exfalso; eapply parseTags_fuel; eauto.
  - intros [= <- <-].
    split; [split; reflexivity|]. repeat (split; [first [reflexivity|discriminate]|]).
    discriminate.
  - intros [= <- <-].
    split; [split; reflexivity|]. repeat (split; [first [reflexivity|discriminate]|]).
    discriminate.
  - exfalso. eapply NextPacket_total; eauto.
Qed.

Lemma sane_same o o' :
  OPUS.skipped o' = OPUS.skipped o -> OPUS.idheader o' = OPUS.idheader o ->
  (OPUS.initialized o' = false -> OPUS.initialized o = false) ->
  sane o -> sane o'.
Proof.
  unfold sane. intros -> -> Hi (H1 & H2 & H3). repeat split; auto; try lia.
Qed.

Lemma readHeaders_facts g o r o1 :
  OPUS.readHeaders g o = (r, o1) ->
  books_kept o o1 /\ OPUS.LastPacket o1 = OPUS.LastPacket o /\
  r <> OutOfFuel /\
  (OPUS.initialized o = false -> sane o -> sane o1) /\
  (forall u, r = Ok u ->
     OPUS.initialized o1 = true /\
     (OPUS.pending (OPUS.OGGReader o1) < OPUS.pending (OPUS.OGGReader o))%nat) /\
  ((forall u, r <> Ok u) -> OPUS.initialized o1 = OPUS.initialized o).
Proof.
  rewrite readHeaders_eq.
  destruct (OPUS.readIDHeader g o) as [r1 o1'] eqn:H1.
  apply readIDHeader_facts in H1 as ((Hd1 & Hs1) & Hl1 & Hi1 & Hf1 & Hsane1 & Hp1).
  assert (Hsane : OPUS.initialized o = false -> sane o -> sane o1').
  { intros Hi Hs. apply Hsane1; auto. apply Hs; auto. }
  destruct r1 as [u1| | |]; [| | |congruence].
  2,3: intros [= <- <-]; (split; [split; assumption|]); (split; [assumption|]);
    (split; [discriminate|]); (split; [exact Hsane|]);
    (split; [discriminate | intros _; assumption]).
  destruct (OPUS.readTags g o1') as [r2 o2] eqn:H2.
  apply readTags_facts in H2 as ((Hd2 & Hs2) & Hl2 & Hi2 & Hh2 & Hf2 & Hp2).
  assert (Hsane2 : OPUS.initialized o = false -> sane o -> sane o2).
  { intros Hi Hs. eapply sane_same; [exact Hs2 | exact Hh2 | | apply Hsane; auto].
    congruence. }
  destruct r2 as [u2| | |]; [| | |congruence]; intros [= <- <-].
  - split; [split; cbn; congruence|]. split; [cbn; congruence|].
    split; [discriminate|]. split.
    + intros Hi Hs. specialize (Hsane2 Hi Hs). destruct Hsane2 as (A & B & C).
      unfold sane. cbn. repeat split; auto; try lia.
    + split; [|intros H; exfalso; eapply H; eauto].
      intros _ _. cbn. split; auto.
      specialize (Hp1 u1 eq_refl). specialize (Hp2 u2 eq_refl). lia.
  - split; [split; congruence|]. split; [congruence|].
    split; [discriminate|]. split; [exact Hsane2|].
    split; [discriminate | intros _; congruence].
  - split; [split; congruence|]. split; [congruence|].
    split; [discriminate|]. split; [exact Hsane2|].
    split; [discriminate | intros _; congruence].
Qed.

(** *** Arithmetic of [int] *)

Lemma wrap64_small z : - 2 ^ 63 <= z < 2 ^ 63 -> wrap64 z = z.
Proof. intros H. unfold wrap64. rewrite Z.mod_small; lia. Qed.

Lemma wrap64_range z : - 2 ^ 63 <= wrap64 z < 2 ^ 63.
Proof. unfold wrap64. pose proof (Z.mod_pos_bound (z + 2 ^ 63) (2 ^ 64)). lia. Qed.

Lemma wrap64_add_l a b : wrap64 (wrap64 a + b) = wrap64 (a + b).
Proof.
  unfold wrap64. f_equal.
  replace ((a + 2 ^ 63) mod 2 ^ 64 - 2 ^ 63 + b + 2 ^ 63)
    with ((a + 2 ^ 63) mod 2 ^ 64 + b) by lia.
  rewrite Zplus_mod_idemp_l. f_equal. lia.
Qed.

(** *** The TOC of a packet *)

Lemma frames_bound data v :
  TOC.getFramesNumberInPacket data = Ok v -> 0 <= v <= 63.
Proof.
  unfold TOC.getFramesNumberInPacket.
  destruct (index data 0) as [p0| | |]; try discriminate.
  destruct (_ =? 0); [intros [= <-]; lia|].
  destruct (negb _); [intros [= <-]; lia|].
  destruct (index data 1) as [p1| | |]; try discriminate.
  intros [= <-]. destruct p1; vm_compute; split; discriminate.
Qed.

Lemma samples_bound data v :
  TOC.getSamplesPerFrame data = Ok v -> 120 <= v <= 2880.
Proof.
  unfold TOC.getSamplesPerFrame.
  destruct (index data 0) as [d0| | |]; try discriminate.
  destruct d0; vm_compute; intros [= <-]; split; discriminate.
Qed.

Lemma readPacketConfig_Ok data pkt :
  OPUS.readPacketConfig (OPUS.mkPacket OPUS.zero_Config data) = Ok pkt ->
  OPUS.PacketData pkt = data /\
  0 <= OPUS.FramesNumber (OPUS.config pkt) <= 63 /\
  120 <= OPUS.SamplesNumberPerFrame (OPUS.config pkt) <= 2880 /\
  OPUS.TotalSamples (OPUS.config pkt) =
    OPUS.FramesNumber (OPUS.config pkt) * OPUS.SamplesNumberPerFrame (OPUS.config pkt) /\
  TOC.getFramesNumberInPacket data = Ok (OPUS.FramesNumber (OPUS.config pkt)) /\
  TOC.getSamplesPerFrame data = Ok (OPUS.SamplesNumberPerFrame (OPUS.config pkt)).
Proof.
  unfold OPUS.readPacketConfig. cbn [OPUS.PacketData].
  destruct (_ <? 1)%nat; [discriminate|].
  destruct (index data 0) as [p0| | |]; try discriminate.
  destruct (TOC.getFramesNumberInPacket data) as [fr| | |] eqn:Hf; try discriminate.
  destruct (TOC.getSamplesPerFrame data) as [sa| | |] eqn:Hs; try discriminate.
  intros [= <-]. cbn.
  apply frames_bound in Hf as Hfb. apply samples_bound in Hs as Hsb.
  repeat split; try lia. unfold int_mul. apply wrap64_small. nia.
Qed.

Lemma readPacketConfig_fuel p : OPUS.readPacketConfig p <> OutOfFuel.
Proof.
  unfold OPUS.readPacketConfig, TOC.getFramesNumberInPacket, TOC.getSamplesPerFrame, index.
  destruct (_ <? 1)%nat; [discriminate|].
  destruct (elems (OPUS.PacketData p) !! 0%nat); [|discriminate].
  destruct (_ =? 0); [|destruct (negb _); [|destruct (_ !! 1%nat); [|discriminate]]];
    repeat match goal with |- context [if ?c then _ else _] => destruct c end;
    discriminate.
Qed.

(** *** Pre-skip and duration *)

Lemma account_spec pkt o :
  sane o -> OPUS.initialized o = true ->
  0 <= OPUS.FramesNumber (OPUS.config pkt) <= 63 ->
  120 <= OPUS.SamplesNumberPerFrame (OPUS.config pkt) <= 2880 ->
  OPUS.TotalSamples (OPUS.config pkt) =
    OPUS.FramesNumber (OPUS.config pkt) * OPUS.SamplesNumberPerFrame (OPUS.config pkt) ->
  let raw := OPUS.TotalSamples (OPUS.config pkt) in
  let need := OPUS.PreSkip (OPUS.idheader o) - OPUS.skipped o in
  let pkt' := fst (OPUS.account pkt o) in
  let o' := snd (OPUS.account pkt o) in
  (0 < need ->
     OPUS.TotalSamples (OPUS.config pkt') = raw - Z.min need raw /\
     OPUS.skipped o' = OPUS.skipped o + Z.min need raw) /\
  (need <= 0 ->
     OPUS.TotalSamples (OPUS.config pkt') = raw /\ OPUS.skipped o' = OPUS.skipped o) /\
  sane o'.
Proof.
  destruct o as [og [cap ver ch ps rate gain fam] vn cp sk ini lp du].
  destruct pkt as [[cc sm fr sa tot] data].
  unfold sane, OPUS.account.
  cbn [OPUS.skipped OPUS.idheader OPUS.PreSkip OPUS.initialized OPUS.config
       OPUS.FramesNumber OPUS.SamplesNumberPerFrame OPUS.TotalSamples].
  intros (Hs & Hp & Hi) -> Hf Hsa ->.
  destruct (Z.ltb_spec 0 sa); [|lia].
  assert (Hraw : 0 <= fr * sa <= 181440) by nia.
  assert (Hneed : int_sub ps sk = ps - sk).
  { unfold int_sub. apply wrap64_small. lia. }
  rewrite Hneed.
  destruct (Z.ltb_spec 0 fr) as [Hfr|Hfr].
  - destruct (Z.ltb_spec 0 (ps - sk)) as [Hn|Hn].
    + destruct (Z.ltb_spec (fr * sa) (ps - sk)) as [Hlt|Hge]; cbn;
        unfold int_sub, int_add; rewrite !wrap64_small by lia;
        (split; [intros _; split; lia|]); (split; [intros; lia|]);
        (split; [lia|]); (split; [lia|]); discriminate.
    + cbn. split; [intros; lia|]. split; [auto|]. auto.
  - assert (fr * sa = 0) by nia.
    cbn. split; [intros; split; lia|]. split; [auto|]. auto.
Qed.

Lemma account_frame pkt o :
  let pkt' := fst (OPUS.account pkt o) in
  let o' := snd (OPUS.account pkt o) in
  OPUS.OGGReader o' = OPUS.OGGReader o /\ OPUS.idheader o' = OPUS.idheader o /\
  OPUS.initialized o' = OPUS.initialized o /\ OPUS.LastPacket o' = OPUS.LastPacket o /\
  OPUS.PacketData pkt' = OPUS.PacketData pkt /\
  OPUS.FramesNumber (OPUS.config pkt') = OPUS.FramesNumber (OPUS.config pkt) /\
  OPUS.SamplesNumberPerFrame (OPUS.config pkt') =
    OPUS.SamplesNumberPerFrame (OPUS.config pkt).
Proof.
  unfold OPUS.account.
  destruct (0 <? OPUS.SamplesNumberPerFrame _); [|cbn; auto 10].
  destruct (0 <? OPUS.FramesNumber _); [|cbn; auto 10].
  destruct (0 <? int_sub _ _); cbn; auto 10.
Qed.

Lemma account_duration pkt o :
  0 <= OPUS.FramesNumber (OPUS.config pkt) <= 63 ->
  120 <= OPUS.SamplesNumberPerFrame (OPUS.config pkt) <= 2880 ->
  OPUS.TotalSamples (OPUS.config pkt) =
    OPUS.FramesNumber (OPUS.config pkt) * OPUS.SamplesNumberPerFrame (OPUS.config pkt) ->
  - 2 ^ 63 <= OPUS.Duration o < 2 ^ 63 ->
  let pkt' := fst (OPUS.account pkt o) in
  let o' := snd (OPUS.account pkt o) in
  OPUS.Duration o' = wrap64 (OPUS.Duration o + duration_of pkt') /\
  0 <= OPUS.TotalSamples (OPUS.config pkt') <= 181440.
Proof.
  destruct o as [og idh vn cp sk ini lp du].
  destruct pkt as [[cc sm fr sa tot] data].
  unfold OPUS.account, duration_of.
  cbn [OPUS.skipped OPUS.idheader OPUS.initialized OPUS.config OPUS.Duration
       OPUS.FramesNumber OPUS.SamplesNumberPerFrame OPUS.TotalSamples].
  intros Hf Hsa -> Hd.
  destruct (Z.ltb_spec 0 sa); [|lia].
  assert (Hraw : 0 <= fr * sa <= 181440) by nia.
  assert (Hdur : forall t, 0 <= t <= 181440 ->
            int_div (int_mul t 1000000) 48000 = t * 1000000 / 48000).
  { intros t Ht. unfold int_div, int_mul. rewrite (wrap64_small (t * 1000000)) by lia.
    rewrite Z.quot_div_nonneg by lia.
    apply wrap64_small.
    assert (0 <= t * 1000000 / 48000 <= t * 1000000).
    { split; [apply Z.div_pos; lia | apply Z.div_le_upper_bound; lia]. }
    lia. }
  destruct (Z.ltb_spec 0 fr) as [Hfr|Hfr].
  - destruct (Z.ltb_spec 0 (int_sub (OPUS.PreSkip idh) sk)) as [Hn|Hn].
    + set (need := int_sub (OPUS.PreSkip idh) sk) in *.
      destruct (Z.ltb_spec (fr * sa) need) as [Hlt|Hge]; cbn.
      * unfold int_sub. rewrite Z.sub_diag, (wrap64_small 0) by lia.
        unfold int_add. rewrite Hdur by lia. split; auto; lia.
      * unfold int_sub. rewrite (wrap64_small (fr * sa - need)) by lia.
        unfold int_add. rewrite Hdur by lia. split; auto; lia.
    + cbn. unfold int_add. rewrite Hdur by lia. split; auto.
  - assert (Hz : fr * sa = 0) by nia.
    cbn. rewrite Hz. cbn. rewrite Z.add_0_r, wrap64_small by lia. split; auto; lia.
Qed.

(** *** One call of the Opus reader's [NextPacket], case by case *)

Lemma headers_facts g o r o1 :
  headers g o = (r, o1) ->
  books_kept o o1 /\ OPUS.LastPacket o1 = OPUS.LastPacket o /\
  r <> OutOfFuel /\
  (sane o -> sane o1) /\
  (forall u, r = Ok u ->
     OPUS.initialized o1 = true /\
     (OPUS.pending (OPUS.OGGReader o1) <= OPUS.pending (OPUS.OGGReader o))%nat /\
     (OPUS.initialized o = true -> o1 = o)).
Proof.
  unfold headers. destruct (OPUS.initialized o) eqn:Hi; cbn [negb].
  - intros [= <- <-]. split; [split; reflexivity|]. split; [reflexivity|].
    split; [discriminate|]. split; [auto|]. intros u _. auto.
  - intros H. apply readHeaders_facts in H as (Hb & Hl & Hf & Hs & Hok & _).
    split; [exact Hb|]. split; [exact Hl|]. split; [exact Hf|].
    split; [auto|]. intros u Hu. destruct (Hok u Hu) as [Hini Hp].
    split; [exact Hini|]. split; [lia | discriminate].
Qed.

Lemma ostep_Ok g o pkt' o' :
  ostep g o = inl (Ok pkt', o') ->
  exists u o1 data og pkt prefix,
    OPUS.LastPacket o = false /\
    headers g o = (Ok u, o1) /\
    OGG.NextPacket g (OPUS.OGGReader o1) = (Ok data, og) /\
    OPUS.readPacketConfig (OPUS.mkPacket OPUS.zero_Config data) = Ok pkt /\
    reslice data 0 2 = Ok prefix /\
    OGG.bytes_eqb (elems prefix) OPUS.Op = false /\
    OPUS.account pkt (latched og (OPUS.set_OGGReader og o1)) = (pkt', o').
Proof.
  unfold ostep. fold (headers g o).
  destruct (OPUS.LastPacket o) eqn:Hl; [discriminate|].
  destruct (headers g o) as [[u| | |] o1]; try discriminate.
  destruct (OGG.NextPacket g (OPUS.OGGReader o1)) as [[data| | |] og] eqn:Hn;
    try discriminate.
  destruct (OPUS.readPacketConfig _) as [pkt| | |] eqn:Hc; try discriminate.
  destruct (reslice data 0 2) as [prefix| | |] eqn:Hr; try discriminate.
  destruct (OGG.bytes_eqb _ _) eqn:Hop; [discriminate|].
  fold (latched og (OPUS.set_OGGReader og o1)).
  destruct (OPUS.account _ _) as [p o4] eqn:Ha.
  intros [= <- <-]. exists u, o1, data, og, pkt, prefix. repeat split; auto.
Qed.

Lemma ostep_more g o o3 :
  ostep g o = inr o3 ->
  exists u o1 data og pkt prefix,
    OPUS.LastPacket o = false /\
    headers g o = (Ok u, o1) /\
    OGG.NextPacket g (OPUS.OGGReader o1) = (Ok data, og) /\
    OPUS.readPacketConfig (OPUS.mkPacket OPUS.zero_Config data) = Ok pkt /\
    reslice data 0 2 = Ok prefix /\
    OGG.bytes_eqb (elems prefix) OPUS.Op = true /\
    o3 = latched og (OPUS.set_OGGReader og o1).
Proof.
  unfold ostep. fold (headers g o).
  destruct (OPUS.LastPacket o) eqn:Hl; [discriminate|].
  destruct (headers g o) as [[u| | |] o1]; try discriminate.
  destruct (OGG.NextPacket g (OPUS.OGGReader o1)) as [[data| | |] og] eqn:Hn;
    try discriminate.
  destruct (OPUS.readPacketConfig _) as [pkt| | |] eqn:Hc; try discriminate.
  destruct (reslice data 0 2) as [prefix| | |] eqn:Hr; try discriminate.
  destruct (OGG.bytes_eqb _ _) eqn:Hop; [|destruct (OPUS.account _ _); discriminate].
  intros [= <-]. exists u, o1, data, og, pkt, prefix. repeat split; auto.
Qed.

Lemma latched_frame og o :
  books_kept o (latched og o) /\
  OPUS.idheader (latched og o) = OPUS.idheader o /\
  OPUS.initialized (latched og o) = OPUS.initialized o /\
  OPUS.OGGReader (latched og o) = OPUS.OGGReader o /\
  OPUS.LastPacket (latched og o) = OPUS.LastPacket o || OGG.lastPacket og.
Proof.
  unfold latched, books_kept. destruct (OGG.lastPacket og); cbn;
    rewrite ?orb_true_r, ?orb_false_r; auto 10.
Qed.

Lemma set_OGGReader_sane og o : sane o -> sane (OPUS.set_OGGReader og o).
Proof. intros H. exact H. Qed.

Lemma latched_sane og o : sane o -> sane (latched og o).
Proof. unfold latched. destruct (OGG.lastPacket og); intros H; exact H. Qed.

Lemma books_kept_refl o : books_kept o o.
Proof. split; reflexivity. Qed.

Lemma books_kept_trans a b c : books_kept a b -> books_kept b c -> books_kept a c.
Proof. unfold books_kept. intuition congruence. Qed.

Lemma ostep_fail g o r o' :
  ostep g o = inl (r, o') -> (forall p, r <> Ok p) ->
  books_kept o o' /\ r <> OutOfFuel /\ (sane o -> sane o').
Proof.
  unfold ostep. fold (headers g o).
  destruct (OPUS.LastPacket o).
  { intros [= <- <-] _. split; [apply books_kept_refl|]. split; [discriminate|auto]. }
  destruct (headers g o) as [r1 o1] eqn:Hh.
  apply headers_facts in Hh as (Hb & _ & Hf & Hs & _).
  destruct r1 as [u| | |]; [| | |congruence].
  2,3: intros [= <- <-] _; (split; [exact Hb|]); (split; [discriminate|exact Hs]).
  destruct (OGG.NextPacket g (OPUS.OGGReader o1)) as [[data| | |] og] eqn:Hn.
  2,3: intros [= <- <-] _; (split; [exact Hb|]); (split; [discriminate|exact Hs]).
  2: exfalso; eapply NextPacket_total; eauto.
  destruct (OPUS.readPacketConfig _) as [pkt| | |] eqn:Hc.
  2,3: intros [= <- <-] _; (split; [exact Hb|]); (split; [discriminate|exact Hs]).
  2: exfalso; eapply readPacketConfig_fuel; eauto.
  fold (latched og (OPUS.set_OGGReader og o1)).
  pose proof (latched_frame og (OPUS.set_OGGReader og o1)) as (Hk & _).
  assert (Hb' : books_kept o (latched og (OPUS.set_OGGReader og o1))).
  { eapply books_kept_trans; [exact Hb|exact Hk]. }
  destruct (reslice data 0 2) as [prefix| | |] eqn:Hr.
  2,3: intros [= <- <-] _; (split; [exact Hb'|]); (split; [discriminate|]);
       intros Hsane; apply latched_sane; apply Hs; exact Hsane.
  2: exfalso; eapply reslice_fuel; eauto.
  destruct (OGG.bytes_eqb _ _); [discriminate|].
  destruct (OPUS.account _ _). intros [= <- <-] H. exfalso. eapply H; eauto.
Qed.

Lemma ostep_fuel g o o' : ostep g o <> inl (OutOfFuel, o').
Proof.
  intros H. apply ostep_fail in H as (_ & H & _); [congruence | discriminate].
Qed.

Lemma ostep_more_pending g o o3 :
  ostep g o = inr o3 ->
  (OPUS.pending (OPUS.OGGReader o3) < OPUS.pending (OPUS.OGGReader o))%nat.
Proof.
  intros H. apply ostep_more in H
    as (u & o1 & data & og & pkt & prefix & _ & Hh & Hn & _ & _ & _ & ->).
  apply headers_facts in Hh as (_ & _ & _ & _ & Hok).
  destruct (Hok u eq_refl) as (_ & Hp & _).
  apply NextPacket_pending in Hn.
  destruct (latched_frame og (OPUS.set_OGGReader og o1)) as (_ & _ & _ & -> & _).
  cbn. lia.
Qed.

Lemma O_NextPacket_fuel_enough g : forall f o o',
  (OPUS.pending (OPUS.OGGReader o) < f)%nat ->
  OPUS.NextPacket_fuel g f o <> (OutOfFuel, o').
Proof.
  induction f as [|f IH]; intros o o' Hf; [lia|].
  rewrite O_NextPacket_fuel_step. destruct (ostep g o) as [[r o1]|o3] eqn:Hs.
  - intros [= -> ->]. eapply ostep_fuel; eauto.
  - apply ostep_more_pending in Hs. apply IH. lia.
Qed.

Lemma O_NextPacket_fuel_mono g : forall f o r o',
  OPUS.NextPacket_fuel g f o = (r, o') -> r <> OutOfFuel ->
  forall f', (f <= f')%nat -> OPUS.NextPacket_fuel g f' o = (r, o').
Proof.
  induction f as [|f IH]; intros o r o' H Hr f' Hf'.
  - cbn in H. injection H as <- _. congruence.
  - destruct f' as [|f']; [lia|].
    rewrite O_NextPacket_fuel_step in H |- *.
    destruct (ostep g o) as [[r1 o1]|o3]; [exact H|].
    eapply IH; eauto. lia.
Qed.

Lemma O_NextPacket_total g o o' : OPUS.NextPacket g o <> (OutOfFuel, o').
Proof. apply O_NextPacket_fuel_enough. lia. Qed.

Lemma O_NextPacket_fuel_stable g f o :
  (OPUS.pending (OPUS.OGGReader o) < f)%nat ->
  OPUS.NextPacket_fuel g f o = OPUS.NextPacket g o.
Proof.
  intros Hf. unfold OPUS.NextPacket.
  destruct (OPUS.NextPacket_fuel g (S (OPUS.pending (OPUS.OGGReader o))) o)
    as [r o'] eqn:H.
  assert (Hr : r <> OutOfFuel).
  { intros ->. eapply O_NextPacket_fuel_enough; [|exact H]. lia. }
  eapply O_NextPacket_fuel_mono; eauto.
Qed.

(** The Opus reader's [NextPacket] as a loop over [ostep]. *)
Lemma O_NextPacket_step g o :
  OPUS.NextPacket g o =
  match ostep g o with
  | inl res => res
  | inr o3 => OPUS.NextPacket g o3
  end.
Proof.
  unfold OPUS.NextPacket at 1. rewrite O_NextPacket_fuel_step.
  destruct (ostep g o) as [res|o3] eqn:Hs; [reflexivity|].
  apply O_NextPacket_fuel_stable. apply ostep_more_pending in Hs. lia.
Qed.

Lemma O_NextPacket_fuel_pulled g : forall f o r o',
  OPUS.NextPacket_fuel g f o = (r, o') -> r <> OutOfFuel -> opulled g o r o'.
Proof.
  induction f as [|f IH]; intros o r o' H Hr.
  - cbn in H. injection H as <- _. congruence.
  - rewrite O_NextPacket_fuel_step in H.
    destruct (ostep g o) as [[r1 o1]|o3] eqn:Hs.
    + injection H as <- <-. apply opulled_done; auto.
    + eapply opulled_more; eauto.
Qed.

Lemma O_NextPacket_pulled g o r o' :
  OPUS.NextPacket g o = (r, o') -> opulled g o r o'.
Proof.
  intros H. eapply O_NextPacket_fuel_pulled; [exact H|].
  intros ->. eapply O_NextPacket_total; eauto.
Qed.

Lemma reslice_prefix_Op data prefix :
  reslice data 0 2 = Ok prefix ->
  (exists tl, elems data = "O"%byte :: "p"%byte :: tl) ->
  OGG.bytes_eqb (elems prefix) OPUS.Op = true.
Proof.
  intros Hr [tl Htl]. unfold reslice in Hr.
  destruct (_ && _); [|discriminate]. injection Hr as <-.
  unfold backing. rewrite Htl. reflexivity.
Qed.

(** A call that returns a packet: the reader before the accounting,
    the packet before the accounting, and the Ogg reader it came from. *)
Lemma opulled_Ok g o r o' :
  opulled g o r o' -> forall pkt', r = Ok pkt' ->
  exists o3 pkt og1,
    books_kept o o3 /\ (sane o -> sane o3) /\
    OPUS.initialized o3 = true /\
    (OPUS.initialized o = true -> OPUS.idheader o3 = OPUS.idheader o) /\
    OPUS.LastPacket o = false /\
    OPUS.LastPacket o3 = OGG.lastPacket (OPUS.OGGReader o3) /\
    OGG.NextPacket g og1 = (Ok (OPUS.PacketData pkt), OPUS.OGGReader o3) /\
    OPUS.readPacketConfig (OPUS.mkPacket OPUS.zero_Config (OPUS.PacketData pkt)) = Ok pkt /\
    ~ (exists tl, elems (OPUS.PacketData pkt) = "O"%byte :: "p"%byte :: tl) /\
    OPUS.account pkt o3 = (pkt', o').
Proof.
  induction 1 as [o r o' Hs | o o3 r o' Hs _ IH]; intros pkt' ->.
  - apply ostep_Ok in Hs
      as (u & o1 & data & og & pkt & prefix & Hl & Hh & Hn & Hc & Hr & Hop & Ha).
    apply headers_facts in Hh as (Hb & Hl1 & _ & Hs1 & Hok).
    destruct (Hok u eq_refl) as (Hi1 & _ & Hsame).
    destruct (latched_frame og (OPUS.set_OGGReader og o1)) as (Hk & Hid & Hini & Hog & Hlp).
    pose proof (readPacketConfig_Ok _ _ Hc) as (Hdata & _).
    exists (latched og (OPUS.set_OGGReader og o1)), pkt, (OPUS.OGGReader o1).
    split; [eapply books_kept_trans; [exact Hb|exact Hk]|].
    split; [intros Hsane; apply latched_sane; apply Hs1; exact Hsane|].
    split; [rewrite Hini; exact Hi1|].
    split; [intros Hi; rewrite Hid, (Hsame Hi); reflexivity|].
    split; [exact Hl|].
    split; [rewrite Hlp, Hog; cbn; rewrite Hl1, Hl; reflexivity|].
    rewrite Hdata, Hog. cbn [OPUS.OGGReader OPUS.set_OGGReader].
    split; [exact Hn|]. split; [exact Hc|]. split; [|exact Ha].
    intros Htl. rewrite (reslice_prefix_Op _ _ Hr Htl) in Hop. discriminate.
  - apply ostep_more in Hs
      as (u & o1 & data & og & pkt & prefix & Hl & Hh & Hn & Hc & Hr & Hop & ->).
    apply headers_facts in Hh as (Hb & Hl1 & _ & Hs1 & Hok).
    destruct (Hok u eq_refl) as (Hi1 & _ & Hsame).
    destruct (latched_frame og (OPUS.set_OGGReader og o1)) as (Hk & Hid & Hini & Hog & Hlp).
    destruct (IH pkt' eq_refl)
      as (o3 & pkt3 & og1 & Hb3 & Hs3 & Hi3 & Hid3 & Hl3 & Hlp3 & Hn3 & Hc3 & Hop3 & Ha3).
    exists o3, pkt3, og1.
    split; [eapply books_kept_trans; [eapply books_kept_trans; [exact Hb|exact Hk]|exact Hb3]|].
    split; [intros Hsane; apply Hs3; apply latched_sane; apply Hs1; exact Hsane|].
    split; [exact Hi3|].
    split; [intros Hi; rewrite Hid3 by (rewrite Hini; exact Hi1);
            rewrite Hid, (Hsame Hi); reflexivity|].
    split; [exact Hl|]. auto 10.
Qed.

Lemma opulled_fail g o r o' :
  opulled g o r o' -> (forall p, r <> Ok p) ->
  books_kept o o' /\ (sane o -> sane o').
Proof.
  induction 1 as [o r o' Hs | o o3 r o' Hs _ IH]; intros Hr.
  - apply ostep_fail in Hs as (Hb & _ & Hsane); auto.
  - apply ostep_more in Hs
      as (u & o1 & data & og & pkt & prefix & Hl & Hh & Hn & Hc & Hrs & Hop & ->).
    apply headers_facts in Hh as (Hb & Hl1 & _ & Hs1 & Hok).
    destruct (latched_frame og (OPUS.set_OGGReader og o1)) as (Hk & _).
    destruct (IH Hr) as (Hb3 & Hs3).
    split; [eapply books_kept_trans; [eapply books_kept_trans; [exact Hb|exact Hk]|exact Hb3]|].
    intros Hsane. apply Hs3. apply latched_sane. apply Hs1. exact Hsane.
Qed.

Lemma O_NextPacket_sane g o r o' :
  OPUS.NextPacket g o = (r, o') -> sane o -> sane o'.
Proof.
  intros H Hsane. apply O_NextPacket_pulled in H.
  destruct r as [pkt'| | |].
  - destruct (opulled_Ok _ _ _ _ H pkt' eq_refl)
      as (o3 & pkt & og1 & _ & Hs3 & Hi3 & _ & _ & _ & _ & Hc & _ & Ha).
    apply readPacketConfig_Ok in Hc as (_ & Hf & Hsa & Ht & _).
    pose proof (account_spec pkt o3 (Hs3 Hsane) Hi3 Hf Hsa Ht) as (_ & _ & Hs').
    rewrite Ha in Hs'. exact Hs'.
  - eapply opulled_fail; eauto; discriminate.
  - eapply opulled_fail; eauto; discriminate.
  - eapply opulled_fail; eauto; discriminate.
Qed.

Lemma run_sane g o pkts o' : run g o pkts o' -> sane o -> sane o'.
Proof.
  induction 1 as [o | o pkt o1 pkts o2 Hn _ IH | o r o1 pkts o2 Hn _ _ IH]; intros Hs; auto.
  - apply IH. eapply O_NextPacket_sane; eauto.
  - apply IH. eapply O_NextPacket_sane; eauto.
Qed.

Lemma NewOpusReader_sane s : sane (OPUS.NewOpusReader s).
Proof. unfold sane. cbn. repeat split; lia. Qed.

(** ** Claims about the Opus reader *)

Lemma pre_skip_step g o pkt o' :
  sane o -> OPUS.NextPacket g o = (Ok pkt, o') ->
  let raw := OPUS.FramesNumber (OPUS.config pkt) * OPUS.SamplesNumberPerFrame (OPUS.config pkt) in
  let need := OPUS.PreSkip (OPUS.idheader o') - OPUS.skipped o in
  (0 < need ->
     OPUS.TotalSamples (OPUS.config pkt) = raw - Z.min need raw /\
     OPUS.skipped o' = OPUS.skipped o + Z.min need raw) /\
  (need <= 0 ->
     OPUS.TotalSamples (OPUS.config pkt) = raw /\ OPUS.skipped o' = OPUS.skipped o) /\
  (exists og, OGG.NextPacket g og = (Ok (OPUS.PacketData pkt), OPUS.OGGReader o')) /\
  sane o' /\ OPUS.initialized o' = true /\
  (OPUS.initialized o = true -> OPUS.idheader o' = OPUS.idheader o) /\
  0 <= raw.
Proof.
  intros Hsane H. apply O_NextPacket_pulled in H.
  destruct (opulled_Ok _ _ _ _ H pkt eq_refl)
    as (o3 & pkt0 & og1 & (_ & Hsk) & Hs3 & Hi3 & Hid & _ & _ & Hn & Hc & _ & Ha).
  apply readPacketConfig_Ok in Hc as (_ & Hf & Hsa & Ht & _).
  pose proof (account_spec pkt0 o3 (Hs3 Hsane) Hi3 Hf Hsa Ht) as (Hpos & Hneg & Hs').
  pose proof (account_frame pkt0 o3) as (Hog & Hidh & Hini & _ & Hdata & Hfr & Hsam).
  rewrite Ha in Hpos, Hneg, Hs', Hog, Hidh, Hini, Hdata, Hfr, Hsam.
  cbn [fst snd] in *. cbv zeta.
  rewrite Hfr, Hsam, Hidh, <- Hsk, <- Ht.
  split; [exact Hpos|]. split; [exact Hneg|].
  split; [exists og1; rewrite Hdata, Hog; exact Hn|].
  split; [exact Hs'|]. split; [congruence|]. split; [exact Hid|]. nia.
Qed.

Lemma duration_step g o pkt o' :
  OPUS.NextPacket g o = (Ok pkt, o') ->
  - 2 ^ 63 <= OPUS.Duration o < 2 ^ 63 ->
  OPUS.Duration o' = wrap64 (OPUS.Duration o + duration_of pkt) /\
  0 <= OPUS.TotalSamples (OPUS.config pkt) <= 181440.
Proof.
  intros H Hd. apply O_NextPacket_pulled in H.
  destruct (opulled_Ok _ _ _ _ H pkt eq_refl)
    as (o3 & pkt0 & og1 & (Hdu & _) & _ & _ & _ & _ & _ & _ & Hc & _ & Ha).
  apply readPacketConfig_Ok in Hc as (_ & Hf & Hsa & Ht & _).
  rewrite <- Hdu in Hd.
  pose proof (account_duration pkt0 o3 Hf Hsa Ht Hd) as Hacc.
  rewrite Ha in Hacc. cbn [fst snd] in Hacc. rewrite <- Hdu. exact Hacc.
Qed.

Lemma run_duration g o pkts o' :
  run g o pkts o' -> forall d, OPUS.Duration o = wrap64 d ->
  OPUS.Duration o' = wrap64 (d + total_duration pkts) /\ 0 <= total_duration pkts.
Proof.
  induction 1 as [o | o pkt o1 pkts o2 Hn _ IH | o r o1 pkts o2 Hn Hr _ IH]; intros d Hd.
  - cbn. rewrite Z.add_0_r. split; [exact Hd | lia].
  - apply duration_step in Hn as (Hdu & Ht); [|rewrite Hd; apply wrap64_range].
    rewrite Hd, wrap64_add_l in Hdu. destruct (IH _ Hdu) as (IH1 & IH2).
    unfold total_duration in *. cbn [map foldr].
    assert (0 <= duration_of pkt) by (unfold duration_of; apply Z.div_pos; lia).
    split; [rewrite IH1; f_equal; lia | lia].
  - apply O_NextPacket_pulled in Hn. apply opulled_fail in Hn as ((Hdu & _) & _); auto.
    apply IH. congruence.
Qed.

(** *** What the header parsers do with short packets *)

Lemma reslice_Ok_iff s lo hi :
  (lo <= hi <= cap s)%nat ->
  reslice s lo hi = Ok (Slice (take (hi - lo) (drop lo (backing s))) (drop hi (backing s))).
Proof.
  intros H. unfold reslice.
  destruct (Nat.leb_spec lo hi); [|lia]. destruct (Nat.leb_spec hi (cap s)); [|lia].
  reflexivity.
Qed.

Lemma reslice_Panic s lo hi :
  (hi < lo \/ cap s < hi)%nat -> reslice s lo hi = Panic slice_bounds_out_of_range.
Proof.
  intros H. unfold reslice.
  destruct (Nat.leb_spec lo hi); destruct (Nat.leb_spec hi (cap s)); try reflexivity; lia.
Qed.

Lemma index_short s i : (len s <= i)%nat -> index s i = Panic index_out_of_range.
Proof. intros H. unfold index. rewrite lookup_ge_None_2; auto. Qed.

Lemma bytes_eqb_neq a b : a <> b -> OGG.bytes_eqb a b = false.
Proof.
  intros H. destruct (OGG.bytes_eqb a b) eqn:E; auto.
  apply bytes_eqb_eq in E. contradiction.
Qed.

Lemma bytes_eqb_refl a : OGG.bytes_eqb a a = true.
Proof. apply bytes_eqb_eq. reflexivity. Qed.

Lemma parseID_short_cap hp :
  (cap hp < 8)%nat -> parseID hp = Panic slice_bounds_out_of_range.
Proof. intros H. unfold parseID. rewrite reslice_Panic by lia. reflexivity. Qed.

Lemma parseID_bad_magic hp :
  (8 <= cap hp)%nat -> take 8 (backing hp) <> OPUS.opusHeadPrefix ->
  parseID hp = Err (errors_New "opusreader: invalid id header prefix").
Proof.
  intros H Hm. unfold parseID. rewrite reslice_Ok_iff by lia. cbn [obind elems].
  change (8 - 0)%nat with 8%nat.
  rewrite drop_0, bytes_eqb_neq by exact Hm. reflexivity.
Qed.

Lemma parseID_short hp :
  (8 <= cap hp)%nat -> take 8 (backing hp) = OPUS.opusHeadPrefix -> (len hp < 19)%nat ->
  (exists p, parseID hp = Panic p) \/
  ((10 <= len hp)%nat /\ elems hp !! 9%nat = Some x00 /\
   parseID hp = Err (errors_New "opusreader: channels count < 1")).
Proof.
  intros H Hm Hl. unfold parseID. rewrite reslice_Ok_iff by lia. cbn [obind elems].
  change (8 - 0)%nat with 8%nat.
  rewrite drop_0, Hm, bytes_eqb_refl. cbn [negb].
  destruct (index hp 8) as [v| p| p|] eqn:H8; cbn [obind]; eauto;
    try (exfalso; eapply index_Err; eauto; fail);
    try (exfalso; eapply index_fuel; eauto; fail).
  destruct (index hp 9) as [ch| p| p|] eqn:H9; cbn [obind]; eauto;
    try (exfalso; eapply index_Err; eauto; fail);
    try (exfalso; eapply index_fuel; eauto; fail).
  destruct (Z.eqb_spec (byte_to_Z ch) 0) as [Hch|Hch].
  { right. unfold index in H9. destruct (elems hp !! 9%nat) as [c|] eqn:Hc; [|discriminate].
    injection H9 as ->. apply lookup_lt_Some in Hc as Hlt. unfold len.
    split; [lia|]. split; [|reflexivity].
    f_equal. destruct ch; vm_compute in Hch; try discriminate. reflexivity. }
  left.
  assert (H18 : index hp 18 = Panic index_out_of_range) by (apply index_short; lia).
  destruct (reslice hp 10 12) as [b1|e|p|] eqn:E1; cbn [obind]; eauto;
    try (exfalso; eapply reslice_Err; eauto; fail);
    try (exfalso; eapply reslice_fuel; eauto; fail).
  destruct (OPUS.Uint16 b1) as [ps|e|p|] eqn:E2; cbn [obind]; eauto;
    try (exfalso; revert E2; unfold OPUS.Uint16, index; destruct (_ !! _); discriminate).
  destruct (reslice hp 12 16) as [b2|e|p|] eqn:E3; cbn [obind]; eauto;
    try (exfalso; eapply reslice_Err; eauto; fail);
    try (exfalso; eapply reslice_fuel; eauto; fail).
  destruct (OPUS.Uint32 b2) as [ra|e|p|] eqn:E4; cbn [obind]; eauto;
    try (exfalso; revert E4; unfold OPUS.Uint32, index; destruct (_ !! _); discriminate).
  destruct (reslice hp 16 18) as [b3|e|p|] eqn:E5; cbn [obind]; eauto;
    try (exfalso; eapply reslice_Err; eauto; fail);
    try (exfalso; eapply reslice_fuel; eauto; fail).
  destruct (OPUS.Uint16 b3) as [ga|e|p|] eqn:E6; cbn [obind]; eauto;
    try (exfalso; revert E6; unfold OPUS.Uint16, index; destruct (_ !! _); discriminate).
  rewrite H18. cbn [obind]. eauto.
Qed.

Lemma parseID_no_channels hp :
  (8 <= cap hp)%nat -> take 8 (backing hp) = OPUS.opusHeadPrefix ->
  elems hp !! 9%nat = Some x00 ->
  parseID hp = Err (errors_New "opusreader: channels count < 1").
Proof.
  intros H Hm H9. unfold parseID. rewrite reslice_Ok_iff by lia. cbn [obind elems].
  change (8 - 0)%nat with 8%nat.
  rewrite drop_0, Hm, bytes_eqb_refl. cbn [negb].
  assert (Hv : exists v, elems hp !! 8%nat = Some v).
  { apply lookup_lt_is_Some. apply lookup_lt_Some in H9. lia. }
  destruct Hv as [v Hv]. unfold index. rewrite Hv, H9. reflexivity.
Qed.

Lemma parseTags_short_cap hp :
  (cap hp < 8)%nat -> parseTags hp = Panic slice_bounds_out_of_range.
Proof. intros H. unfold parseTags. rewrite reslice_Panic by lia. reflexivity. Qed.

Lemma parseTags_bad_magic hp :
  (8 <= cap hp)%nat -> take 8 (backing hp) <> OPUS.opusTagsPrefix ->
  parseTags hp = Err (errors_New "opusreader: invalid tags header prefix").
Proof.
  intros H Hm. unfold parseTags. rewrite reslice_Ok_iff by lia. cbn [obind elems].
  change (8 - 0)%nat with 8%nat.
  rewrite drop_0, bytes_eqb_neq by exact Hm. reflexivity.
Qed.

Lemma parseTags_magic hp :
  (8 <= cap hp)%nat -> take 8 (backing hp) = OPUS.opusTagsPrefix ->
  ((cap hp < 12 \/ vendor_end hp < 12 \/ cap hp < vendor_end hp)%nat ->
   parseTags hp = Panic slice_bounds_out_of_range) /\
  ((12 <= vendor_end hp <= cap hp)%nat ->
   parseTags hp = Ok (Slice (take (vendor_end hp - 12) (drop 12 (backing hp)))
                            (drop (vendor_end hp) (backing hp)))).
Proof.
  intros H Hm. unfold parseTags. rewrite reslice_Ok_iff by lia. cbn [obind elems].
  change (8 - 0)%nat with 8%nat.
  rewrite drop_0, Hm, bytes_eqb_refl. cbn [negb].
  destruct (Nat.lt_ge_cases (cap hp) 12) as [Hc|Hc].
  { rewrite reslice_Panic by lia. cbn [obind]. split; [reflexivity | lia]. }
  rewrite reslice_Ok_iff by lia. cbn [obind].
  change (12 - 8)%nat with 4%nat.
  assert (Hu : OPUS.Uint32 (Slice (take 4 (drop 8 (backing hp))) (drop 12 (backing hp)))
               = Ok (le_uint (take 4 (drop 8 (backing hp))))).
  { unfold OPUS.Uint32, index. cbn [elems].
    assert (Hlen : length (take 4 (drop 8 (backing hp))) = 4%nat).
    { rewrite length_take, length_drop. unfold cap in Hc. lia. }
    destruct (_ !! 3%nat) eqn:Hl.
    - rewrite take_take. reflexivity.
    - apply lookup_ge_None in Hl. lia. }
  rewrite Hu. cbn [obind]. fold (vendor_end hp).
  split; intros Hv.
  - apply reslice_Panic. lia.
  - apply reslice_Ok_iff. lia.
Qed.

(** ** Sample streams *)

Example demo_opus_packets :
  map (fun o => fst (OPUS.NextPacket g0 (demo_calls o (OPUS.NewOpusReader demo_opus))))
      [0; 1; 2; 3]%nat
  = [Ok (OPUS.mkPacket (OPUS.mkConfig 15 0 1 960 648) (Slice [x78; x01; x02] ["O"; "p"; x00]))%byte;
     Ok (OPUS.mkPacket (OPUS.mkConfig 15 0 2 960 1920) (Slice [x79; x01] [x7b; x02; x05]))%byte;
     Ok (OPUS.mkPacket (OPUS.mkConfig 15 0 2 960 1920) (Slice [x7b; x02; x05] []))%byte;
     Err (errors_New "opusreader: EOS")].
Proof. vm_compute. reflexivity. Qed.

(** C3: for a packet returned by a reader that was made by
    [NewOpusReader] and called any number of times, with
    [raw = frames * samples per frame] and
    [need = pre-skip - skipped so far]: if [need > 0] the packet
    reports [raw - min need raw] samples and [skipped] grows by
    [min need raw]; otherwise it reports [raw] and [skipped] stays.  The
    payload is the slice the Ogg reader returned.  A pre-skip above the
    samples of the packet is carried to the next returned packet; one
    that the packet covers leaves the next packet whole. *)
Theorem C3_pre_skip g s pkts o pkt o' :
  run g (OPUS.NewOpusReader s) pkts o ->
  OPUS.NextPacket g o = (Ok pkt, o') ->
  let raw := OPUS.FramesNumber (OPUS.config pkt)
             * OPUS.SamplesNumberPerFrame (OPUS.config pkt) in
  let need := OPUS.PreSkip (OPUS.idheader o') - OPUS.skipped o in
  (0 < need ->
     OPUS.TotalSamples (OPUS.config pkt) = raw - Z.min need raw /\
     OPUS.skipped o' = OPUS.skipped o + Z.min need raw) /\
  (need <= 0 ->
     OPUS.TotalSamples (OPUS.config pkt) = raw /\ OPUS.skipped o' = OPUS.skipped o) /\
  (exists og, OGG.NextPacket g og = (Ok (OPUS.PacketData pkt), OPUS.OGGReader o')) /\
  (forall pkt2 o2, OPUS.NextPacket g o' = (Ok pkt2, o2) ->
     let raw2 := OPUS.FramesNumber (OPUS.config pkt2)
                 * OPUS.SamplesNumberPerFrame (OPUS.config pkt2) in
     (raw < need ->
        OPUS.TotalSamples (OPUS.config pkt) = 0 /\
        OPUS.TotalSamples (OPUS.config pkt2) = raw2 - Z.min (need - raw) raw2) /\
     (need <= raw ->
        OPUS.TotalSamples (OPUS.config pkt2) = raw2 /\
        OPUS.skipped o2 = OPUS.skipped o')).
Proof.
  intros Hrun Hn raw need.
  pose proof (run_sane _ _ _ _ Hrun (NewOpusReader_sane s)) as Hsane.
  destruct (pre_skip_step g o pkt o' Hsane Hn)
    as (Hpos & Hneg & Hdata & Hsane' & Hini' & _ & Hraw).
  fold raw need in Hpos, Hneg, Hraw.
  split; [exact Hpos|]. split; [exact Hneg|]. split; [exact Hdata|].
  intros pkt2 o2 Hn2 raw2.
  destruct (pre_skip_step g o' pkt2 o2 Hsane' Hn2)
    as (Hpos2 & Hneg2 & _ & _ & _ & Hid2 & Hraw2).
  rewrite (Hid2 Hini') in Hpos2, Hneg2. fold raw2 in Hpos2, Hneg2, Hraw2.
  split.
  - intros Hlt. destruct (Hpos ltac:(lia)) as (Ht & Hsk).
    rewrite Z.min_r in Ht, Hsk by lia.
    split; [lia|]. replace (need - raw) with
      (OPUS.PreSkip (OPUS.idheader o') - OPUS.skipped o') by (unfold need; lia).
    apply Hpos2. unfold need in *. lia.
  - intros Hle. apply Hneg2.
    destruct (Z.lt_ge_cases 0 need) as [Hp|Hp].
    + destruct (Hpos Hp) as (_ & Hsk). rewrite Z.min_l in Hsk by lia.
      unfold need in *. lia.
    + destruct (Hneg Hp) as (_ & Hsk). unfold need in *. lia.
Qed.

(** The first audio packet of the sample stream: 960 samples, of which
    the pre-skip of 312 takes its share. *)
Lemma C3_pre_skip_witness :
  exists pkt o',
    OPUS.NextPacket g0 (OPUS.NewOpusReader demo_opus) = (Ok pkt, o') /\
    OPUS.TotalSamples (OPUS.config pkt) = 960 - Z.min 312 960 /\
    OPUS.skipped o' = 0 + Z.min 312 960.
Proof.
  destruct (OPUS.NextPacket g0 (OPUS.NewOpusReader demo_opus)) as [r o'] eqn:E.
  assert (Hr : r = Ok (OPUS.mkPacket (OPUS.mkConfig 15 0 1 960 648)
                         (Slice [x78; x01; x02] ["O"; "p"; x00])%byte)).
  { apply (f_equal fst) in E. vm_compute in E. symmetry. exact E. }
  subst r. eexists _, o'. split; [reflexivity|].
  pose proof (C3_pre_skip g0 demo_opus [] _ _ _ (run_nil _ _) E) as H.
  cbv zeta in H. destruct H as (Hpos & _).
  assert (Hps : OPUS.PreSkip (OPUS.idheader o') = 312).
  { apply (f_equal snd) in E. cbn [snd] in E. rewrite <- E. vm_compute. reflexivity. }
  rewrite Hps in Hpos. cbn in Hpos. apply Hpos. reflexivity.
Defined.

(** C4: the accumulated duration of a reader made by [NewOpusReader]
    is the sum, over the packets its calls have returned, of
    [total_samples * 1000000 / 48000]; the sum is carried in a 64-bit
    [int], and is exact as long as it fits.  Calls that return no
    packet, and packets that are skipped inside a call, add nothing. *)
Theorem C4_duration g s pkts o :
  run g (OPUS.NewOpusReader s) pkts o ->
  let total :=
    foldr Z.add 0
      (map (fun pkt => OPUS.TotalSamples (OPUS.config pkt) * 1000000 / 48000) pkts) in
  OPUS.Duration o = wrap64 total /\
  (total < 2 ^ 63 -> OPUS.Duration o = total).
Proof.
  intros Hrun total.
  destruct (run_duration _ _ _ _ Hrun 0 eq_refl) as (Hd & Hpos).
  change (total_duration pkts) with total in Hd, Hpos. rewrite Z.add_0_l in Hd.
  split; [exact Hd|]. intros Hlt. rewrite Hd. apply wrap64_small. lia.
Qed.

Lemma C4_duration_witness :
  OPUS.Duration (demo_calls 4 (OPUS.NewOpusReader demo_opus))
  = 648 * 1000000 / 48000 + (1920 * 1000000 / 48000 + (1920 * 1000000 / 48000 + 0)).
Proof.
  assert (Hrun : run g0 (OPUS.NewOpusReader demo_opus)
            [OPUS.mkPacket (OPUS.mkConfig 15 0 1 960 648)
               (Slice [x78; x01; x02] ["O"; "p"; x00])%byte;
             OPUS.mkPacket (OPUS.mkConfig 15 0 2 960 1920)
               (Slice [x79; x01] [x7b; x02; x05])%byte;
             OPUS.mkPacket (OPUS.mkConfig 15 0 2 960 1920)
               (Slice [x7b; x02; x05] [])%byte]
            (demo_calls 4 (OPUS.NewOpusReader demo_opus))).
  { eapply run_packet; [vm_compute; reflexivity|].
    eapply run_packet; [vm_compute; reflexivity|].
    eapply run_packet; [vm_compute; reflexivity|].
    eapply run_none; [vm_compute; reflexivity | discriminate |].
    apply run_nil. }
  apply (proj2 (C4_duration g0 demo_opus _ _ Hrun)). reflexivity.
Defined.





Lemma O_NextPacket_EOS g o :
  OPUS.LastPacket o = true ->
  OPUS.NextPacket g o = (Err (errors_New "opusreader: EOS"), o).
Proof. intros H. rewrite O_NextPacket_step. unfold ostep. rewrite H. reflexivity. Qed.



Lemma readPacketConfig_Op data :
  (exists tl, elems data = "O"%byte :: "p"%byte :: tl) ->
  exists pkt, OPUS.readPacketConfig (OPUS.mkPacket OPUS.zero_Config data) = Ok pkt.
Proof.
  intros [tl Htl]. unfold OPUS.readPacketConfig, TOC.getFramesNumberInPacket,
    TOC.getSamplesPerFrame, index, len.
  cbn [OPUS.PacketData]. rewrite Htl. cbn. eexists. reflexivity.
Qed.

Lemma reslice_Op data :
  (exists tl, elems data = "O"%byte :: "p"%byte :: tl) ->
  exists prefix, reslice data 0 2 = Ok prefix.
Proof.
  intros [tl Htl]. rewrite reslice_Ok_iff; [eauto|].
  unfold cap, backing. rewrite Htl. cbn. lia.
Qed.

(** C9: a call of the Opus reader first has the headers, which it
    reads itself when the reader is not initialized, and then pulls a
    packet.  When that packet, the first after the headers or any later
    one, begins with the bytes [O] [p], the call goes on as a call on
    the reader as it is after the pull (with the latch copied): that
    reader is initialized, the duration and the skipped count are as
    they were before the call, and the result of the call is the result
    for the packets that follow.  The packet the call returns, if any,
    is not the pulled one, and no call on any reader returns a packet
    that begins with [O] [p], whatever the packet is otherwise. *)
Theorem C9_skips_Op_packets g o u o1 data og :
  OPUS.LastPacket o = false ->
  headers g o = (Ok u, o1) ->
  OGG.NextPacket g (OPUS.OGGReader o1) = (Ok data, og) ->
  (exists tl, elems data = "O"%byte :: "p"%byte :: tl) ->
  let o2 := latched og (OPUS.set_OGGReader og o1) in
  OPUS.NextPacket g o = OPUS.NextPacket g o2 /\
  OPUS.initialized o2 = true /\
  OPUS.Duration o2 = OPUS.Duration o /\
  OPUS.skipped o2 = OPUS.skipped o /\
  (OPUS.initialized o = true -> o1 = o) /\
  (forall pkt o', OPUS.NextPacket g o = (Ok pkt, o') ->
     OPUS.PacketData pkt <> data) /\
  (forall r pkt r', OPUS.NextPacket g r = (Ok pkt, r') ->
     ~ (exists tl, elems (OPUS.PacketData pkt) = "O"%byte :: "p"%byte :: tl)).
Proof.
  intros Hl Hh Hn Hop o2.
  assert (Hstep : ostep g o = inr o2).
  { unfold ostep. fold (headers g o). rewrite Hl, Hh, Hn.
    destruct (readPacketConfig_Op data Hop) as [pkt ->].
    destruct (reslice_Op data Hop) as [prefix Hr]. rewrite Hr.
    rewrite (reslice_prefix_Op _ _ Hr Hop). reflexivity. }
  destruct (headers_facts _ _ _ _ Hh) as ((Hd & Hs) & _ & _ & _ & Hok).
  destruct (Hok u eq_refl) as (Hi & _ & Hsame).
  assert (Hnone : forall r pkt r', OPUS.NextPacket g r = (Ok pkt, r') ->
            ~ (exists tl, elems (OPUS.PacketData pkt) = "O"%byte :: "p"%byte :: tl)).
  { intros r pkt r' H. apply O_NextPacket_pulled in H.
    destruct (opulled_Ok _ _ _ _ H pkt eq_refl)
      as (o3 & pkt0 & og1 & _ & _ & _ & _ & _ & _ & _ & _ & Hnot & Ha).
    pose proof (account_frame pkt0 o3) as (_ & _ & _ & _ & Hdata & _).
    rewrite Ha in Hdata. cbn [fst] in Hdata. rewrite Hdata. exact Hnot. }
  split; [rewrite O_NextPacket_step, Hstep; reflexivity|].
  split; [unfold o2, latched; destruct (OGG.lastPacket og); exact Hi|].
  split; [unfold o2, latched; destruct (OGG.lastPacket og); exact Hd|].
  split; [unfold o2, latched; destruct (OGG.lastPacket og); exact Hs|].
  split; [exact Hsame|].
  split; [|exact Hnone].
  intros pkt o' H Heq. apply (Hnone _ _ _ H). rewrite Heq. exact Hop.
Qed.

(** The first call on a stream whose third packet is [O p 00] reads
    the two headers, pulls that packet and returns the packet after
    it. *)
Lemma C9_skips_Op_packets_witness :
  let o := OPUS.NewOpusReader demo_early_Op in
  OPUS.initialized o = false /\
  exists o1 og,
    headers g0 o = (Ok tt, o1) /\
    OGG.NextPacket g0 (OPUS.OGGReader o1)
      = (Ok (Slice ["O"; "p"; x00] [x78; x01; x02])%byte, og) /\
    OPUS.NextPacket g0 o = OPUS.NextPacket g0 (OPUS.set_OGGReader og o1) /\
    fst (OPUS.NextPacket g0 o)
      = Ok (OPUS.mkPacket (OPUS.mkConfig 15 0 1 960 648)
              (Slice [x78; x01; x02] [])%byte).
Proof.
  intros o. split; [reflexivity|].
  destruct (headers g0 o) as [u o1] eqn:Eh.
  assert (Hu : u = Ok tt).
  { apply (f_equal fst) in Eh. vm_compute in Eh. symmetry. exact Eh. }
  assert (Ho1 : o1 = snd (headers g0 o)) by (rewrite Eh; reflexivity).
  subst u.
  destruct (OGG.NextPacket g0 (OPUS.OGGReader o1)) as [r og] eqn:E.
  assert (Hr : r = Ok (Slice ["O"; "p"; x00] [x78; x01; x02])%byte).
  { apply (f_equal fst) in E. rewrite Ho1 in E. vm_compute in E. symmetry. exact E. }
  subst r. exists o1, og. split; [reflexivity|]. split; [exact E|].
  assert (Hlp : OGG.lastPacket og = false).
  { apply (f_equal snd) in E. cbn [snd] in E. rewrite <- E, Ho1. vm_compute. reflexivity. }
  pose proof (C9_skips_Op_packets g0 o tt o1 _ og eq_refl Eh E
                (ex_intro _ [x00]%byte eq_refl)) as (H & _).
  unfold latched in H. rewrite Hlp in H. split; [exact H|]. vm_compute. reflexivity.
Defined.

(** C10 (as amended): the header parsers check no length.  For the
    first packet: when fewer than 8 bytes can be sliced the access is
    out of range; when the first 8 bytes of its backing array are not
    the magic the result is the bad-magic error, whatever the length;
    when they are the magic, a packet whose tenth byte declares 0
    channels gets the channel-count error, and any other packet shorter
    than 19 bytes an access out of range.  For the
    second packet: the same for the first 8 bytes; after the magic the
    access is out of range exactly when the capacity of the packet, not
    its length, is below 12 or below the end of the vendor string, or
    when that end, computed in 32 bits, falls below 12. *)
Theorem C10_header_bounds g o hp og :
  OGG.NextPacket g (OPUS.OGGReader o) = (Ok hp, og) ->
  let o1 := OPUS.set_OGGReader og o in
  ((cap hp < 8)%nat ->
     OPUS.readIDHeader g o = (Panic slice_bounds_out_of_range, o1)) /\
  ((8 <= cap hp)%nat -> take 8 (backing hp) <> OPUS.opusHeadPrefix ->
     OPUS.readIDHeader g o
       = (Err (errors_New "opusreader: invalid id header prefix"), o1)) /\
  ((8 <= cap hp)%nat -> take 8 (backing hp) = OPUS.opusHeadPrefix ->
   elems hp !! 9%nat = Some x00 ->
     OPUS.readIDHeader g o
       = (Err (errors_New "opusreader: channels count < 1"), o1)) /\
  ((8 <= cap hp)%nat -> take 8 (backing hp) = OPUS.opusHeadPrefix ->
   (len hp < 19)%nat -> elems hp !! 9%nat <> Some x00 ->
     exists p, OPUS.readIDHeader g o = (Panic p, o1)) /\
  ((cap hp < 8)%nat ->
     OPUS.readTags g o = (Panic slice_bounds_out_of_range, o1)) /\
  ((8 <= cap hp)%nat -> take 8 (backing hp) <> OPUS.opusTagsPrefix ->
     OPUS.readTags g o
       = (Err (errors_New "opusreader: invalid tags header prefix"), o1)) /\
  ((8 <= cap hp)%nat -> take 8 (backing hp) = OPUS.opusTagsPrefix ->
   let stop := Z.to_nat (wrap32 (12 + le_uint (take 4 (drop 8 (backing hp))))) in
   ((cap hp < 12 \/ stop < 12 \/ cap hp < stop)%nat ->
      OPUS.readTags g o = (Panic slice_bounds_out_of_range, o1)) /\
   ((12 <= stop <= cap hp)%nat ->
      OPUS.readTags g o
        = (Ok tt, OPUS.set_VendorName
                    (Slice (take (stop - 12) (drop 12 (backing hp)))
                           (drop stop (backing hp))) o1))).
Proof.
  intros Hn o1. rewrite readIDHeader_eq, readTags_eq, Hn. fold o1.
  split; [intros H; rewrite parseID_short_cap by exact H; reflexivity|].
  split; [intros H Hm; rewrite parseID_bad_magic by assumption; reflexivity|].
  split; [intros H Hm H9; rewrite parseID_no_channels by assumption; reflexivity|].
  split.
  { intros H Hm Hl H9.
    destruct (parseID_short hp H Hm Hl) as [[p ->] | (_ & B & _)]; [eauto | contradiction]. }
  split; [intros H; rewrite parseTags_short_cap by exact H; reflexivity|].
  split; [intros H Hm; rewrite parseTags_bad_magic by assumption; reflexivity|].
  intros H Hm stop. destruct (parseTags_magic hp H Hm) as (A & B).
  fold (vendor_end hp) in stop. subst stop.
  split; intros Hs; [rewrite (A Hs) | rewrite (B Hs)]; reflexivity.
Qed.

(** The first packet of this stream has 8 bytes, which are not the
    magic: the result is the bad-magic error. *)
Lemma C10_header_bounds_witness :
  fst (OPUS.readIDHeader g0 (OPUS.NewOpusReader demo_not_opus))
  = Err (errors_New "opusreader: invalid id header prefix").
Proof.
  destruct (OGG.NextPacket g0 (OPUS.OGGReader (OPUS.NewOpusReader demo_not_opus)))
    as [r og] eqn:E.
  assert (Hr : r = Ok (Slice ["N"; "o"; "t"; "O"; "p"; "u"; "s"; "!"] [])%byte).
  { apply (f_equal fst) in E. vm_compute in E. symmetry. exact E. }
  subst r.
  destruct (C10_header_bounds g0 _ _ og E) as (_ & H & _).
  rewrite H; [reflexivity | cbn; lia | discriminate].
Defined.

(** C10 as stated fails: a first packet of 8 bytes is shorter than 19
    bytes, and the reader does not index out of range but returns the
    bad-magic error. *)
Lemma C10_counterexample :
  exists hp og,
    OGG.NextPacket g0 (OGG.NewOggReader demo_not_opus) = (Ok hp, og) /\
    (len hp < 19)%nat /\
    fst (OPUS.readIDHeader g0 (OPUS.NewOpusReader demo_not_opus))
      = Err (errors_New "opusreader: invalid id header prefix") /\
    ~ (exists p, fst (OPUS.readIDHeader g0 (OPUS.NewOpusReader demo_not_opus)) = Panic p).
Proof.
  eexists _, _. split; [vm_compute; reflexivity|].
  split; [vm_compute; lia|].
  assert (H : fst (OPUS.readIDHeader g0 (OPUS.NewOpusReader demo_not_opus))
              = Err (errors_New "opusreader: invalid id header prefix"))
    by (vm_compute; reflexivity).
  split; [exact H|]. rewrite H. intros [p Hp]. discriminate.
Qed.

Lemma readPage_zero_segments o hd rest :
  OGG.stream o = hd ++ rest -> length hd = 27%nat ->
  take 4 hd = OGG.capturePattern -> nth 4 hd x00 = x00 -> nth 26 hd x00 = x00 ->
  exists o', OGG.readPage o = (Panic index_out_of_range, o') /\
             OGG.lastPacket o' = OGG.lastPacket o.
Proof.
  intros Hs Hl Hc Hv Hn.
  destruct o as [s br ini cp lp pi lpp]. cbn in Hs. subst s.
  do 27 (destruct hd as [|? hd]; [discriminate Hl|]).
  destruct hd; [|discriminate Hl].
  cbn in Hc, Hv, Hn. injection Hc as -> -> -> ->. subst.
  eexists. split; [cbn -[wrap64 le_uint]; reflexivity|]. reflexivity.
Qed.

(** C7: a page whose header declares no segment makes the page read
    panic, on the index [SegmentsNumber-1] of the empty segment table
    (255 in [uint8]); so does a call of [NextPacket] that comes to such
    a page, at the start of the stream or after a page is used up. *)
Theorem C7_zero_segment_page_panics g o hd rest :
  OGG.stream o = hd ++ rest -> length hd = 27%nat ->
  take 4 hd = OGG.capturePattern -> nth 4 hd x00 = x00 -> nth 26 hd x00 = x00 ->
  fst (OGG.readPage o) = Panic index_out_of_range /\
  (OGG.initialized o = false ->
   fst (OGG.NextPacket g o) = Panic index_out_of_range) /\
  (forall pg tr,
     OGG.initialized o = true -> OGG.CurrentPage o = Some pg ->
     OGG.packetIndex o = OGG.packetsCount pg ->
     OGG.packets pg !! OGG.packetsCount pg = Some tr ->
     fst (OGG.NextPacket g o) = Panic index_out_of_range).
Proof.
  intros Hs Hl Hc Hv Hn.
  destruct (readPage_zero_segments o hd rest Hs Hl Hc Hv Hn) as (o' & Hr & _).
  split; [rewrite Hr; reflexivity|]. split.
  - intros Hi. rewrite NextPacket_step. unfold step.
    rewrite first_page_eq, Hi, Hr. reflexivity.
  - intros pg tr Hi Hpg Hidx Htr. rewrite NextPacket_step. unfold step.
    rewrite first_page_eq, Hi, Hpg, Hidx, Nat.eqb_refl, Htr.
    assert (Hs' : OGG.stream (note_granule pg o) = hd ++ rest)
      by (rewrite note_granule_stream; exact Hs).
    destruct (readPage_zero_segments _ hd rest Hs' Hl Hc Hv Hn) as (o2 & -> & _).
    reflexivity.
Qed.

Lemma C7_zero_segment_page_panics_witness :
  fst (OGG.NextPacket g0 (OGG.NewOggReader demo_empty_page)) = Panic index_out_of_range.
Proof.
  refine (proj1 (proj2 (C7_zero_segment_page_panics g0 (OGG.NewOggReader demo_empty_page)
            (demo_page x00 x00 x00 [] [])
            (demo_page x00 x00 x01 [x01]%byte [x78]%byte) _ _ _ _ _)) _);
    reflexivity.
Defined.

Lemma pulled_Ok_initialized g o r o' :
  pulled g o r o' -> forall p, r = Ok p -> OGG.initialized o' = true.
Proof.
  induction 1 as [o r o' Hs | o o3 r o' Hs _ IH]; intros p ->; [|eauto].
  apply step_Ok in Hs as (u & o1 & pg & Hf & _ & _ & _ & ->).
  apply first_page_initialized in Hf as [Hi _].
  unfold arm. destruct (_ && _); cbn; exact Hi.
Qed.

Lemma pulls_last g o ps o' :
  pulls g o ps o' -> ps <> [] ->
  exists pg, OGG.initialized o' = true /\ OGG.CurrentPage o' = Some pg.
Proof.
  induction 1 as [o | o p o1 ps o2 Hn Hps IH]; intros Hne; [congruence|].
  destruct ps as [|q ps].
  - inversion Hps; subst. apply NextPacket_pulled in Hn.
    destruct (pulled_latch _ _ _ _ Hn p eq_refl) as (pg & Hpg & _).
    exists pg. split; [eapply pulled_Ok_initialized; eauto | exact Hpg].
  - apply IH. discriminate.
Qed.

(** C8 (as amended): the last-granule field is brought up to date
    before each next page is read, with the granule position of the
    page that is left unless that is -1.  So when a call of the Ogg
    reader's [NextPacket] fails, after any number of calls that
    returned a packet, the field holds the last granule position other
    than -1 among all pages of the stream, which is that of the last
    page when that is not -1.  Before that, and so when the latch and
    the end-of-stream flag are raised, the field holds the last such
    granule position among the pages before the current one; and the
    Opus reader, once [LastPacket] is set, fails without calling the
    Ogg reader again. *)
Theorem C8_last_granule g s ps o :
  pulls g (OGG.NewOggReader s) ps o ->
  let all := map Spec.granule (Spec.pages_of s) in
  (forall e o', OGG.NextPacket g o = (Err e, o') ->
     OGG.lastPagePosition o' = last_granule all /\
     (forall gr, last all = Some gr -> gr <> -1 -> OGG.lastPagePosition o' = gr)) /\
  (ps <> [] ->
   exists pre pg,
     OGG.CurrentPage o = Some pg /\
     all = pre ++ OGG.AbsoluteGranulePosition (OGG.header pg)
                  :: map Spec.granule (Spec.pages_of (OGG.stream o)) /\
     OGG.lastPagePosition o = last_granule pre) /\
  (forall op, OPUS.LastPacket op = true ->
     OPUS.NextPacket g op = (Err (errors_New "opusreader: EOS"), op)).
Proof.
  intros Hp all.
  assert (Hseen : seen all (OGG.NewOggReader s)).
  { exists []. split; reflexivity. }
  apply (pulls_seen _ _ _ _ Hp) in Hseen.
  split; [|split].
  - intros e o' Hn. apply NextPacket_pulled in Hn.
    destruct (pulled_seen _ _ _ _ Hn all Hseen) as [_ He].
    specialize (He e eq_refl). split; [exact He|].
    intros gr Hl Hgr. rewrite He. apply last_granule_last; auto.
  - intros Hne. destruct (pulls_last _ _ _ _ Hp Hne) as (pg & Hi & Hpg).
    destruct Hseen as (pre & Hall & Hpos). unfold granules in Hall.
    rewrite Hi, Hpg in Hall. exists pre, pg. auto.
  - intros op. apply O_NextPacket_EOS.
Qed.

Lemma C8_last_granule_witness :
  exists p1 o1 p2 o2 o3,
    OGG.NextPacket g0 (OGG.NewOggReader demo_stream2) = (Ok p1, o1) /\
    OGG.NextPacket g0 o1 = (Ok p2, o2) /\
    OGG.NextPacket g0 o2 = (Err io_EOF, o3) /\
    OGG.lastPagePosition o3 = 9.
Proof.
  destruct (OGG.NextPacket g0 (OGG.NewOggReader demo_stream2)) as [r1 o1] eqn:E1.
  assert (Ho1 : o1 = snd (OGG.NextPacket g0 (OGG.NewOggReader demo_stream2)))
    by (rewrite E1; reflexivity).
  assert (Hr1 : exists p1, r1 = Ok p1).
  { apply (f_equal fst) in E1. vm_compute in E1. eexists. symmetry. exact E1. }
  destruct Hr1 as [p1 ->].
  destruct (OGG.NextPacket g0 o1) as [r2 o2] eqn:E2.
  assert (Ho2 : o2 = snd (OGG.NextPacket g0 o1)) by (rewrite E2; reflexivity).
  assert (Hr2 : exists p2, r2 = Ok p2).
  { apply (f_equal fst) in E2. rewrite Ho1 in E2. vm_compute in E2.
    eexists. symmetry. exact E2. }
  destruct Hr2 as [p2 ->].
  destruct (OGG.NextPacket g0 o2) as [r3 o3] eqn:E3.
  assert (Hr3 : r3 = Err io_EOF).
  { apply (f_equal fst) in E3. rewrite Ho2, Ho1 in E3. vm_compute in E3.
    symmetry. exact E3. }
  subst r3.
  exists p1, o1, p2, o2, o3.
  split; [reflexivity|]. split; [exact E2|]. split; [exact E3|].
  assert (Hp : pulls g0 (OGG.NewOggReader demo_stream2) [p1; p2] o2).
  { eapply pulls_cons; [exact E1|]. eapply pulls_cons; [exact E2|]. apply pulls_nil. }
  destruct (C8_last_granule g0 demo_stream2 _ _ Hp) as (H & _).
  destruct (H _ _ E3) as (_ & Hlast).
  apply Hlast; [vm_compute; reflexivity | discriminate].
Defined.

(** C8 as stated fails: on the sample stream the pages have granule
    positions 0, 0, 16 and 32; when the third call has returned the
    last packet the latch and [LastPacket] are set, the fourth call
    fails with the EOS error, and the field holds 16, not 32. *)
Lemma C8_counterexample :
  let o3 := demo_calls 3 (OPUS.NewOpusReader demo_opus) in
  let o4 := demo_calls 4 (OPUS.NewOpusReader demo_opus) in
  map Spec.granule (Spec.pages_of demo_opus) = [0; 0; 16; 32] /\
  OGG.lastPacket (OPUS.OGGReader o3) = true /\
  OPUS.LastPacket o3 = true /\
  OGG.lastPagePosition (OPUS.OGGReader o3) = 16 /\
  fst (OPUS.NextPacket g0 o3) = Err (errors_New "opusreader: EOS") /\
  OGG.lastPagePosition (OPUS.OGGReader o4) = 16 /\
  OGG.lastPagePosition (OPUS.OGGReader o4) <> 32.
Proof. vm_compute. repeat split; discriminate. Qed.

(** * Further properties of the readers *)

(** ** The count of the bytes read *)

Lemma reads_refl o : reads o o 0 0.
Proof.
  split; [lia|]. split; [reflexivity|].
  intros H. rewrite Z.add_0_r. symmetry. apply wrap64_small. exact H.
Qed.

Lemma reads_trans o o1 o2 c1 k1 c2 k2 :
  reads o o1 c1 k1 -> reads o1 o2 c2 k2 -> reads o o2 (c1 + c2) (k1 + k2).
Proof.
  intros (Hb1 & Hs1 & Hc1) (Hb2 & Hs2 & Hc2).
  rewrite Hs1 in Hb2, Hs2. rewrite length_drop in Hb2.
  split; [lia|]. split; [rewrite Hs2, drop_drop; reflexivity|].
  intros Hr. specialize (Hc1 Hr). rewrite Hc1 in Hc2.
  rewrite Hc2 by apply wrap64_range.
  rewrite wrap64_add_l. f_equal. lia.
Qed.

Lemma tracks_bind {A B} (m : M OGG.OGGReader A) (k : A -> M OGG.OGGReader B) :
  tracks m -> (forall a, tracks (k a)) -> tracks (bind m k).
Proof.
  intros Hm Hk o r o' H. unfold bind in H.
  destruct (m o) as [[a|e|p|] o1] eqn:E.
  - destruct (Hm _ _ _ E) as (c1 & k1 & Hr1 & Hx1).
    destruct (Hk a _ _ _ H) as (c2 & k2 & Hr2 & Hx2).
    exists (c1 + c2)%nat, (k1 + k2)%nat.
    split; [exact (reads_trans _ _ _ _ _ _ _ Hr1 Hr2)|].
    intros Hne. rewrite (Hx1 ltac:(discriminate)), (Hx2 Hne). reflexivity.
  - injection H as <- <-. destruct (Hm _ _ _ E) as (c & k0 & Hr & Hx).
    exists c, k0. split; [exact Hr|]. intros Hne. apply Hx. congruence.
  - injection H as <- <-. destruct (Hm _ _ _ E) as (c & k0 & Hr & Hx).
    exists c, k0. split; [exact Hr|]. intros _. apply Hx. discriminate.
  - injection H as <- <-. destruct (Hm _ _ _ E) as (c & k0 & Hr & Hx).
    exists c, k0. split; [exact Hr|]. intros _. apply Hx. discriminate.
Qed.

Lemma tracks_same {A} (m : M OGG.OGGReader A) :
  (forall o r o', m o = (r, o') ->
     OGG.stream o' = OGG.stream o /\
     OGG.bytesReadSuccesfully o' = OGG.bytesReadSuccesfully o) ->
  tracks m.
Proof.
  intros H o r o' E. destruct (H _ _ _ E) as [Hs Hb].
  exists 0%nat, 0%nat. split; [|reflexivity].
  split; [lia|]. split; [rewrite Hs; reflexivity|].
  intros Hr. rewrite Hb, Z.add_0_r. symmetry. apply wrap64_small. exact Hr.
Qed.

Lemma tracks_modify (f : OGG.OGGReader -> OGG.OGGReader) :
  (forall o, OGG.stream (f o) = OGG.stream o /\
             OGG.bytesReadSuccesfully (f o) = OGG.bytesReadSuccesfully o) ->
  tracks (modify f).
Proof. intros H. apply tracks_same. intros o r o' [= _ <-]. apply H. Qed.

Lemma tracks_lift {A} (r : outcome A) : tracks (lift r).
Proof. apply tracks_same. intros o r' o' [= _ <-]. auto. Qed.

Lemma tracks_ret {A} (a : A) : tracks (ret a).
Proof. apply tracks_same. intros o r' o' [= _ <-]. auto. Qed.

Lemma tracks_get : tracks get.
Proof. apply tracks_same. intros o r' o' [= _ <-]. auto. Qed.

Lemma tracks_getPage : tracks OGG.getPage.
Proof.
  apply tracks_same. intros o r o'. unfold OGG.getPage.
  destruct (OGG.CurrentPage o); intros [= _ <-]; auto.
Qed.

Lemma tracks_modify_page f : tracks (OGG.modify_page f).
Proof.
  unfold OGG.modify_page. apply tracks_bind; [apply tracks_getPage|].
  intros pg. apply tracks_modify. intros o. split; reflexivity.
Qed.

(** A read and the count that follows it. *)
Lemma tracks_read {A} (n : nat) (z : Z) (K : list byte -> M OGG.OGGReader A) :
  z = Z.of_nat n -> (forall d, tracks (K d)) ->
  tracks (d <- OGG.ReadFull n ;; OGG.advance z ;;; K d).
Proof.
  intros -> HK o r o' H. unfold bind at 1 in H. unfold OGG.ReadFull in H.
  destruct (n =? 0)%nat eqn:En.
  - apply Nat.eqb_eq in En. subst n. unfold bind, OGG.advance, modify in H.
    destruct (HK _ _ _ _ H) as (c & k & (Hb & Hs & Hc) & Hx).
    exists c, k. split; [|exact Hx]. cbn in Hb, Hs, Hc.
    split; [exact Hb|]. split; [exact Hs|].
    intros Hr. rewrite Hc by apply wrap64_range.
    rewrite wrap64_add_l. f_equal. lia.
  - destruct (OGG.stream o) as [|b s] eqn:Es.
    + injection H as <- <-. exists 0%nat, 0%nat. split; [apply reads_refl|reflexivity].
    + destruct (n <=? length (b :: s))%nat eqn:El.
      * apply Nat.leb_le in El. unfold bind, OGG.advance, modify in H.
        destruct (HK _ _ _ _ H) as (c & k & (Hb & Hs & Hc) & Hx).
        cbn [OGG.stream OGG.bytesReadSuccesfully OGG.set_stream
             OGG.set_bytesReadSuccesfully] in Hb, Hs, Hc.
        rewrite length_drop in Hb.
        exists (n + c)%nat, (n + k)%nat. split.
        -- split; [rewrite Es; lia|]. split; [rewrite Hs, Es, drop_drop; reflexivity|].
           intros Hr. rewrite Hc by apply wrap64_range.
           rewrite wrap64_add_l. f_equal. lia.
        -- intros Hne. rewrite Hx by exact Hne. reflexivity.
      * apply Nat.leb_gt in El. injection H as <- <-.
        exists 0%nat, (length (b :: s)). split; [|intros Hne; congruence].
        split; [rewrite Es; lia|]. split; [cbn [OGG.stream OGG.set_stream]; rewrite Es, drop_all; reflexivity|].
        intros Hr. cbn [OGG.bytesReadSuccesfully OGG.set_stream].
        rewrite Z.add_0_r. symmetry. apply wrap64_small. exact Hr.
Qed.

Create HintDb count.
#[local] Hint Resolve tracks_lift tracks_ret tracks_get tracks_getPage
  tracks_modify_page : count.

Ltac count_steps :=
  repeat first
    [ solve [auto with count]
    | apply tracks_read; [first [reflexivity | lia | idtac] | intros ?]
    | apply tracks_modify; intros ?; split; reflexivity
    | apply tracks_bind; [|intros ?]
    | match goal with
      | |- tracks (if ?c then _ else _) => destruct c
      | |- context [OGG.walk ?t] => destruct (OGG.walk t) as [[[? ?] ?] ?]
      | a : (_ * _)%type |- _ => destruct a
      | |- tracks (fail _) => apply tracks_lift
      end ].

Lemma tracks_readPageHeader : tracks OGG.readPageHeader.
Proof.
  unfold OGG.readPageHeader. count_steps.
  unfold byte_to_Z. rewrite N_nat_Z. reflexivity.
Qed.

Lemma tracks_readPageContent : tracks OGG.readPageContent.
Proof. unfold OGG.readPageContent. count_steps. Qed.

Lemma tracks_readPage : tracks OGG.readPage.
Proof.
  unfold OGG.readPage.
  apply tracks_bind; [apply tracks_modify; intros ?; split; reflexivity|intros _].
  apply tracks_bind; [apply tracks_readPageHeader|intros _].
  apply tracks_bind; [apply tracks_readPageContent|intros _].
  apply tracks_modify_page.
Qed.

#[local] Hint Resolve tracks_readPage : count.

Lemma tracks_first_page : tracks OGG.first_page.
Proof. unfold OGG.first_page. count_steps. Qed.

#[local] Hint Resolve tracks_first_page : count.

Lemma tracks_NextPacket_fuel g : forall f, tracks (OGG.NextPacket_fuel g f).
Proof.
  induction f as [|f IH]; cbn [OGG.NextPacket_fuel]; [apply tracks_lift|].
  count_steps.
Qed.

Lemma tracks_NextPacket g : tracks (OGG.NextPacket g).
Proof. intros o r o' H. exact (tracks_NextPacket_fuel g _ _ _ _ H). Qed.


(** X3: a call of [NextPacket] takes a prefix of the stream and adds
    to [bytesReadSuccesfully] the length of that prefix, in 64 bits;
    only a call that ends in [io.ErrUnexpectedEOF] has taken bytes that
    it has not counted. *)
Theorem X3_bytes_read_are_counted g o r o' :
  - 2 ^ 63 <= OGG.bytesReadSuccesfully o < 2 ^ 63 ->
  OGG.NextPacket g o = (r, o') ->
  exists c k : nat,
    (c <= k <= length (OGG.stream o))%nat /\
    OGG.stream o' = drop k (OGG.stream o) /\
    OGG.bytesReadSuccesfully o' = wrap64 (OGG.bytesReadSuccesfully o + Z.of_nat c) /\
    (r <> Err io_ErrUnexpectedEOF -> c = k).
Proof.
  intros Hr Hn. destruct (tracks_NextPacket g _ _ _ Hn) as (c & k & (Hb & Hs & Hc) & Hx).
  exists c, k. auto.
Qed.


(** ** What a page read does, from the bytes it finds *)

Lemma ReadFull_enough n o :
  (n <= length (OGG.stream o))%nat ->
  OGG.ReadFull n o = (Ok (take n (OGG.stream o)), OGG.set_stream (drop n (OGG.stream o)) o).
Proof.
  intros Hn. unfold OGG.ReadFull. destruct (Nat.eqb_spec n 0) as [->|Hn0].
  - rewrite take_0, drop_0. destruct o; reflexivity.
  - destruct (OGG.stream o) eqn:Hs; [cbn in Hn; lia|].
    destruct (Nat.leb_spec n (length (b :: l))); [reflexivity | lia].
Qed.

Lemma ReadFull_short n o :
  (length (OGG.stream o) < n)%nat ->
  OGG.ReadFull n o =
  match OGG.stream o with
  | [] => (Err io_EOF, o)
  | _ => (Err io_ErrUnexpectedEOF, OGG.set_stream [] o)
  end.
Proof.
  intros Hn. unfold OGG.ReadFull. destruct (Nat.eqb_spec n 0) as [->|Hn0]; [lia|].
  destruct (OGG.stream o) eqn:Hs; [reflexivity|].
  destruct (Nat.leb_spec n (length (b :: l))); [lia | reflexivity].
Qed.

Lemma readPageHeader_go o pg0 :
  OGG.CurrentPage o = Some pg0 ->
  let s := OGG.stream o in
  let n := Spec.seg_size (nth 26 (take 27 s) x00) in
  (27 <= length s)%nat ->
  OGG.bytes_eqb (take 4 (take 27 s)) OGG.capturePattern = true ->
  byte_to_Z (nth 4 (take 27 s) x00) = 0 ->
  (1 <= n <= length (drop 27 s))%nat ->
  exists o', OGG.readPageHeader o = (Ok tt, o').
Proof.
  intros Hpg s n Hlen Hcap Hver Hn.
  destruct o as [s0 br ini cp lp pi lpp]. cbn in Hpg, s. subst cp s.
  unfold OGG.readPageHeader.
  unfold bind at 1. rewrite ReadFull_enough by exact Hlen. ogg_simpl.
  unfold bind at 1. unfold OGG.advance at 1, modify at 1. ogg_simpl.
  unfold bind at 1. unfold OGG.modify_page at 1, bind at 1, OGG.getPage at 1, modify at 1.
  ogg_simpl.
  unfold bind at 1. unfold OGG.getPage at 1. ogg_simpl.
  rewrite Hcap, Hver. cbn [negb Z.eqb].
  fold (Spec.seg_size (nth 26 (take 27 s0) x00)). fold n.
  unfold bind at 1. rewrite ReadFull_enough by (ogg_simpl; lia). ogg_simpl.
  unfold bind at 1. unfold OGG.advance at 1, modify at 1. ogg_simpl.
  unfold bind at 1. unfold OGG.modify_page at 1, bind at 1, OGG.getPage at 1, modify at 1.
  ogg_simpl.
  destruct (OGG.walk _) as [[[sz total] count] sizes].
  unfold bind at 1. unfold OGG.modify_page at 1, bind at 1, OGG.getPage at 1, modify at 1.
  ogg_simpl.
  assert (Hidx : exists b, index (Slice (take n (drop 27 s0)) [])
              (Z.to_nat (wrap8 (byte_to_Z (nth 26 (take 27 s0) x00) - 1))) = Ok b).
  { unfold index. cbn [elems].
    destruct (take n (drop 27 s0) !! _) eqn:El; [eauto|].
    apply lookup_ge_None in El. rewrite length_take in El.
    pose proof (byte_to_Z_range (nth 26 (take 27 s0) x00)) as Hr.
    assert (Hnz : byte_to_Z (nth 26 (take 27 s0) x00) = Z.of_nat n).
    { unfold n, Spec.seg_size, byte_to_Z. rewrite N_nat_Z. reflexivity. }
    rewrite Hnz in El, Hr. unfold wrap8 in El.
    rewrite Z.mod_small in El by lia. lia. }
  destruct Hidx as [b Hb]. unfold bind at 1. unfold lift at 1. rewrite Hb.
  unfold OGG.modify_page, bind, OGG.getPage, modify. ogg_simpl.
  eexists. reflexivity.
Qed.

Lemma readPageHeader_empty o pg0 :
  OGG.CurrentPage o = Some pg0 -> OGG.stream o = [] ->
  OGG.readPageHeader o = (Err io_EOF, o).
Proof.
  intros Hpg Hs. unfold OGG.readPageHeader. unfold bind at 1.
  rewrite ReadFull_short by (rewrite Hs; cbn; lia). rewrite Hs. reflexivity.
Qed.

Lemma readPageHeader_short o pg0 :
  OGG.CurrentPage o = Some pg0 -> OGG.stream o <> [] ->
  (length (OGG.stream o) < 27)%nat ->
  OGG.readPageHeader o = (Err io_ErrUnexpectedEOF, OGG.set_stream [] o).
Proof.
  intros Hpg Hs Hl. unfold OGG.readPageHeader. unfold bind at 1.
  rewrite ReadFull_short by exact Hl.
  destruct (OGG.stream o); [congruence | reflexivity].
Qed.

Lemma readPageHeader_checks o pg0 :
  OGG.CurrentPage o = Some pg0 ->
  (27 <= length (OGG.stream o))%nat ->
  let data := take 27 (OGG.stream o) in
  (OGG.bytes_eqb (take 4 data) OGG.capturePattern = false ->
   OGG.readPageHeader o
   = (Err (errors_New "ogg: missing capture pattern"), header_read pg0 o)) /\
  (OGG.bytes_eqb (take 4 data) OGG.capturePattern = true ->
   byte_to_Z (nth 4 data x00) <> 0 ->
   OGG.readPageHeader o
   = (Err (errors_New "ogg: unsupported version"), header_read pg0 o)) /\
  (OGG.bytes_eqb (take 4 data) OGG.capturePattern = true ->
   byte_to_Z (nth 4 data x00) = 0 ->
   let n := Spec.seg_size (nth 26 data x00) in
   (length (drop 27 (OGG.stream o)) < n)%nat ->
   OGG.readPageHeader o
   = match drop 27 (OGG.stream o) with
     | [] => (Err io_EOF, header_read pg0 o)
     | _ => (Err io_ErrUnexpectedEOF, OGG.set_stream [] (header_read pg0 o))
     end).
Proof.
  intros Hpg Hlen data.
  destruct o as [s0 br ini cp lp pi lpp]. cbn in Hpg, Hlen, data. subst cp.
  unfold header_read. ogg_simpl.
  assert (Hstart : forall A (K : M OGG.OGGReader A),
    OGG.readPageHeader (OGG.mkReader s0 br ini (Some pg0) lp pi lpp) =
    (page <- OGG.getPage ;;
     if negb (OGG.bytes_eqb (OGG.CapturePattern (OGG.header page)) OGG.capturePattern)
     then fail "ogg: missing capture pattern"
     else if negb (byte_to_Z (OGG.Version (OGG.header page)) =? 0)
     then fail "ogg: unsupported version"
     else
       let n := OGG.SegmentsNumber (OGG.header page) in
       segmentTable <- OGG.ReadFull (N.to_nat (Byte.to_N n)) ;;
       OGG.advance (byte_to_Z n) ;;;
       OGG.modify_page (OGG.set_walk 0 [] 0) ;;;
       (let '(_, total, count, sizes) := OGG.walk segmentTable in
        OGG.modify_page (OGG.set_walk count sizes total)) ;;;
       last <- lift (index (Slice segmentTable [])
                           (Z.to_nat (wrap8 (byte_to_Z n - 1)))) ;;
       OGG.modify_page (OGG.set_needsContinue (byte_to_Z last =? 0xFF)))
      (OGG.mkReader (drop 27 s0) (wrap64 (br + 27)) ini
         (Some (OGG.set_header (OGG.binary_Read (take 27 s0)) pg0)) lp pi lpp)).
  { intros _ _. unfold OGG.readPageHeader.
    unfold bind at 1. rewrite ReadFull_enough by exact Hlen. ogg_simpl.
    unfold bind at 1. unfold OGG.advance at 1, modify at 1. ogg_simpl.
    unfold bind at 1. unfold OGG.modify_page at 1, bind at 1, OGG.getPage at 1, modify at 1.
    ogg_simpl. reflexivity. }
  specialize (Hstart unit (ret tt)). subst data.
  split; [|split].
  - intros Hc. rewrite Hstart.
    unfold bind at 1. unfold OGG.getPage at 1. ogg_simpl.
    rewrite Hc. reflexivity.
  - intros Hc Hv. rewrite Hstart.
    unfold bind at 1. unfold OGG.getPage at 1. ogg_simpl.
    apply Z.eqb_neq in Hv. rewrite Hc, Hv. reflexivity.
  - intros Hc Hv Hn. rewrite Hstart.
    unfold bind at 1. unfold OGG.getPage at 1. ogg_simpl.
    rewrite Hc, Hv. cbn [negb Z.eqb].
    unfold bind at 1. rewrite ReadFull_short by (ogg_simpl; exact Hn). ogg_simpl.
    destruct (drop 27 s0); reflexivity.
Qed.

Lemma readPageContent_short o pg :
  OGG.CurrentPage o = Some pg ->
  (length (OGG.stream o) < OGG.totalSize pg)%nat ->
  OGG.readPageContent o =
  match OGG.stream o with
  | [] => (Err io_EOF, o)
  | _ => (Err io_ErrUnexpectedEOF, OGG.set_stream [] o)
  end.
Proof.
  intros Hpg Hl. unfold OGG.readPageContent.
  unfold bind at 1. unfold OGG.getPage at 1. rewrite Hpg.
  unfold bind at 1. rewrite ReadFull_short by exact Hl.
  destruct (OGG.stream o); reflexivity.
Qed.

Lemma readPageContent_go o pg :
  OGG.CurrentPage o = Some pg ->
  OGG.packetsCount pg = length (OGG.packetSizes pg) ->
  (sum_list (OGG.packetSizes pg) <= OGG.totalSize pg)%nat ->
  (OGG.totalSize pg <= length (OGG.stream o))%nat ->
  exists o', OGG.readPageContent o = (Ok tt, o').
Proof.
  intros Hpg Hcount Hsum Hl. unfold OGG.readPageContent.
  unfold bind at 1. unfold OGG.getPage at 1. rewrite Hpg.
  unfold bind at 1. rewrite ReadFull_enough by exact Hl.
  unfold bind at 1. unfold OGG.advance at 1, modify at 1.
  set (data := take (OGG.totalSize pg) (OGG.stream o)).
  assert (Hdata : length data = OGG.totalSize pg).
  { unfold data. rewrite length_take. lia. }
  unfold bind at 1. unfold lift at 1.
  rewrite slice_packets_Ok;
    [| rewrite length_replicate; lia | lia].
  unfold bind at 1. unfold lift at 1.
  unfold len. cbn [elems]. rewrite reslice_fresh by lia.
  rewrite length_app, length_app, length_take, length_cuts, length_drop,
    length_replicate.
  destruct (Nat.ltb_spec (OGG.packetsCount pg)
              (0 `min` (OGG.packetsCount pg + 1)
               + (length (OGG.packetSizes pg)
                  + (OGG.packetsCount pg + 1 - (0 + length (OGG.packetSizes pg))))));
    [|lia].
  unfold OGG.modify_page, bind, OGG.getPage, modify. ogg_simpl. rewrite Hpg.
  eexists. reflexivity.
Qed.

Lemma new_page_stream o :
  OGG.stream (OGG.set_CurrentPage (Some OGG.new_OGGPage) o) = OGG.stream o.
Proof. destruct o; reflexivity. Qed.

(** A page that the stream holds in full, with a segment table that is
    not empty, is read. *)
Lemma readPage_parsed o sp rest :
  Spec.parse_page (OGG.stream o) = Some (sp, rest) -> Spec.table sp <> [] ->
  exists o', OGG.readPage o = (Ok tt, o').
Proof.
  intros Hp Ht. unfold Spec.parse_page in Hp.
  set (s := OGG.stream o) in *.
  destruct (Nat.ltb_spec (length s) 27) as [|Hlen]; [discriminate|].
  rewrite take_take in Hp. change (4 `min` 27)%nat with 4%nat in Hp.
  destruct (OGG.bytes_eqb (take 4 s) OGG.capturePattern) eqn:Hcap; [|discriminate].
  destruct (byte_to_Z (nth 4 (take 27 s) x00) =? 0) eqn:Hver; [|discriminate].
  cbn [andb] in Hp. apply Z.eqb_eq in Hver.
  set (n := Spec.seg_size (nth 26 (take 27 s) x00)) in *.
  destruct (Nat.ltb_spec (length (drop 27 s)) n) as [|Hn]; [discriminate|].
  set (tbl := take n (drop 27 s)) in *.
  destruct (Nat.ltb_spec (length (drop n (drop 27 s))) (Spec.body_size tbl)) as [|Hb];
    [discriminate|].
  injection Hp as <- <-. cbn [Spec.table] in Ht.
  assert (Hn1 : (1 <= n)%nat).
  { destruct n; [|lia]. exfalso. apply Ht. reflexivity. }
  set (oA := OGG.set_CurrentPage (Some OGG.new_OGGPage) o).
  assert (HsA : OGG.stream oA = s) by apply new_page_stream.
  assert (HpA : OGG.CurrentPage oA = Some OGG.new_OGGPage) by (destruct o; reflexivity).
  destruct (readPageHeader_go oA _ HpA) as [o2 Hh]; rewrite ?HsA; auto.
  { rewrite take_take. exact Hcap. }
  pose proof (readPageHeader_Ok _ _ _ _ HpA Hh) as Hfacts. cbv zeta in Hfacts.
  rewrite HsA in Hfacts. fold n tbl in Hfacts.
  destruct Hfacts as (_ & _ & _ & _ & Hs2 & nc & Hpg2).
  rewrite (walk_facts tbl []) in Hpg2.
  destruct (readPageContent_go o2 _ Hpg2) as [o3 Hc]; ogg_simpl.
  { rewrite length_map. reflexivity. }
  { apply lace_total. }
  { rewrite Hs2. exact Hb. }
  pose proof Hc as Hc'.
  eapply readPageContent_Ok in Hc' as (_ & _ & Hpg3); [| exact Hpg2 | |]; ogg_simpl;
    [| rewrite length_map; reflexivity | apply lace_total].
  unfold OGG.readPage.
  unfold bind at 1. unfold modify at 1. fold oA.
  unfold bind at 1. rewrite Hh.
  unfold bind at 1. rewrite Hc.
  unfold OGG.modify_page, bind, OGG.getPage, modify. rewrite Hpg3.
  eexists. reflexivity.
Qed.

Lemma readPage_fails o :
  let s := OGG.stream o in
  let n := Spec.seg_size (nth 26 (take 27 s) x00) in
  let tbl := take n (drop 27 s) in
  ((length s < 27)%nat -> fst (OGG.readPage o) = Err (short_read s)) /\
  ((27 <= length s)%nat ->
   OGG.bytes_eqb (take 4 s) OGG.capturePattern = false ->
   fst (OGG.readPage o) = Err (errors_New "ogg: missing capture pattern")) /\
  ((27 <= length s)%nat ->
   OGG.bytes_eqb (take 4 s) OGG.capturePattern = true ->
   byte_to_Z (nth 4 (take 27 s) x00) <> 0 ->
   fst (OGG.readPage o) = Err (errors_New "ogg: unsupported version")) /\
  ((27 <= length s)%nat ->
   OGG.bytes_eqb (take 4 s) OGG.capturePattern = true ->
   byte_to_Z (nth 4 (take 27 s) x00) = 0 ->
   (length (drop 27 s) < n)%nat ->
   fst (OGG.readPage o) = Err (short_read (drop 27 s))) /\
  ((27 <= length s)%nat ->
   OGG.bytes_eqb (take 4 s) OGG.capturePattern = true ->
   byte_to_Z (nth 4 (take 27 s) x00) = 0 ->
   (n <= length (drop 27 s))%nat ->
   (length (drop n (drop 27 s)) < Spec.body_size tbl)%nat ->
   fst (OGG.readPage o) = Err (short_read (drop n (drop 27 s)))).
Proof.
  intros s n tbl.
  set (oA := OGG.set_CurrentPage (Some OGG.new_OGGPage) o).
  assert (HsA : OGG.stream oA = s) by apply new_page_stream.
  assert (HpA : OGG.CurrentPage oA = Some OGG.new_OGGPage) by (destruct o; reflexivity).
  assert (Hstart : OGG.readPage o =
    (OGG.readPageHeader ;;; OGG.readPageContent ;;;
     OGG.modify_page (OGG.set_page_initialized true)) oA) by reflexivity.
  rewrite Hstart. clear Hstart.
  split; [|split; [|split; [|split]]].
  - intros Hl. unfold bind at 1.
    destruct s as [|b s'] eqn:Es.
    + rewrite (readPageHeader_empty oA _ HpA HsA). reflexivity.
    + rewrite (readPageHeader_short oA _ HpA); [reflexivity | rewrite HsA; discriminate
                                                | rewrite HsA; exact Hl].
  - intros Hl Hc. unfold bind at 1.
    destruct (readPageHeader_checks oA _ HpA) as (H1 & _); [rewrite HsA; exact Hl|].
    rewrite H1; [reflexivity|]. rewrite HsA, take_take. exact Hc.
  - intros Hl Hc Hv. unfold bind at 1.
    destruct (readPageHeader_checks oA _ HpA) as (_ & H2 & _); [rewrite HsA; exact Hl|].
    rewrite H2; [reflexivity | rewrite HsA, take_take; exact Hc | rewrite HsA; exact Hv].
  - intros Hl Hc Hv Hn. unfold bind at 1.
    destruct (readPageHeader_checks oA _ HpA) as (_ & _ & H3); [rewrite HsA; exact Hl|].
    rewrite H3; [| rewrite HsA, take_take; exact Hc | rewrite HsA; exact Hv
                 | rewrite HsA; exact Hn].
    rewrite HsA. destruct (drop 27 s); reflexivity.
  - intros Hl Hc Hv Hn Hb.
    assert (Hn1 : (1 <= n)%nat).
    { destruct (Nat.eq_dec n 0%nat) as [E0|]; [|lia]. exfalso.
      unfold tbl in Hb. rewrite E0, take_0 in Hb. cbn in Hb. lia. }
    destruct (readPageHeader_go oA _ HpA) as [o2 Hh]; rewrite ?HsA; auto.
    { rewrite take_take. exact Hc. }
    pose proof (readPageHeader_Ok _ _ _ _ HpA Hh) as Hfacts. cbv zeta in Hfacts.
    rewrite HsA in Hfacts. fold n tbl in Hfacts.
    destruct Hfacts as (_ & _ & _ & _ & Hs2 & nc & Hpg2).
    rewrite (walk_facts tbl []) in Hpg2.
    unfold bind at 1. rewrite Hh. unfold bind at 1.
    rewrite (readPageContent_short o2 _ Hpg2) by (ogg_simpl; rewrite Hs2; exact Hb).
    rewrite Hs2. destruct (drop n (drop 27 s)); reflexivity.
Qed.

(** A page that the stream does not hold in full makes the read fail
    with an error. *)
Lemma readPage_unparsed o :
  Spec.parse_page (OGG.stream o) = None ->
  exists e o', OGG.readPage o = (Err e, o').
Proof.
  intros Hp. pose proof (readPage_fails o) as (H1 & H2 & H3 & H4 & H5).
  cbv zeta in *. unfold Spec.parse_page in Hp.
  set (s := OGG.stream o) in *.
  assert (Hgo : forall e, fst (OGG.readPage o) = Err e ->
                          exists e o', OGG.readPage o = (Err e, o')).
  { intros e He. destruct (OGG.readPage o) as [r o']. cbn in He. subst r. eauto. }
  destruct (Nat.ltb_spec (length s) 27) as [Hl|Hl]; [eapply Hgo; eauto|].
  rewrite take_take in Hp. change (4 `min` 27)%nat with 4%nat in Hp.
  destruct (OGG.bytes_eqb (take 4 s) OGG.capturePattern) eqn:Hcap;
    [|eapply Hgo; eauto].
  destruct (Z.eqb_spec (byte_to_Z (nth 4 (take 27 s) x00)) 0) as [Hv|Hv];
    [|eapply Hgo; eauto].
  cbn [andb] in Hp.
  destruct (Nat.ltb_spec (length (drop 27 s)) (Spec.seg_size (nth 26 (take 27 s) x00)))
    as [Hn|Hn]; [eapply Hgo; eauto|].
  destruct (Nat.ltb_spec
              (length (drop (Spec.seg_size (nth 26 (take 27 s) x00)) (drop 27 s)))
              (Spec.body_size (take (Spec.seg_size (nth 26 (take 27 s) x00)) (drop 27 s))))
    as [Hb|Hb]; [eapply Hgo; eauto | discriminate].
Qed.

(** ** A reader after a failed page read *)

Lemma stays_unfilled_trans x y z :
  stays_unfilled x y -> stays_unfilled y z -> stays_unfilled x z.
Proof. unfold stays_unfilled. auto. Qed.

Lemma stays_unfilled_refl x : stays_unfilled x x.
Proof. unfold stays_unfilled. auto. Qed.

Lemma stays_unfilled_page o o' :
  OGG.CurrentPage o' = OGG.CurrentPage o -> stays_unfilled o o'.
Proof. intros H (pg & Hpg & Hp). exists pg. rewrite H. auto. Qed.

Lemma ReadFull_page n o r o' :
  OGG.ReadFull n o = (r, o') -> OGG.CurrentPage o' = OGG.CurrentPage o.
Proof.
  unfold OGG.ReadFull. destruct (n =? 0)%nat; [intros [= _ <-]; reflexivity|].
  destruct (OGG.stream o); [intros [= _ <-]; reflexivity|].
  destruct (_ <=? _)%nat; intros [= _ <-]; destruct o; reflexivity.
Qed.

Lemma unfilled_ReadFull n : preserves stays_unfilled (OGG.ReadFull n).
Proof. intros o r o' H. apply stays_unfilled_page. eapply ReadFull_page; eauto. Qed.

Lemma unfilled_advance n : preserves stays_unfilled (OGG.advance n).
Proof. intros o r o' [= _ <-]. apply stays_unfilled_page. destruct o; reflexivity. Qed.

Lemma unfilled_getPage : preserves stays_unfilled OGG.getPage.
Proof.
  intros o r o'. unfold OGG.getPage.
  destruct (OGG.CurrentPage o); intros [= _ <-]; apply stays_unfilled_refl.
Qed.

Lemma unfilled_modify_page f :
  (forall pg, OGG.packets (f pg) = OGG.packets pg) ->
  preserves stays_unfilled (OGG.modify_page f).
Proof.
  intros Hf o r o'. unfold OGG.modify_page, bind, OGG.getPage, modify.
  destruct (OGG.CurrentPage o) as [pg|] eqn:Hpg; intros [= _ <-];
    [|apply stays_unfilled_refl].
  intros (pg' & Hpg' & Hp). rewrite Hpg in Hpg'. injection Hpg' as <-.
  exists (f pg). split; [destruct o; reflexivity | rewrite Hf; exact Hp].
Qed.

Lemma unfilled_readPageHeader : preserves stays_unfilled OGG.readPageHeader.
Proof.
  unfold OGG.readPageHeader.
  repeat first
    [ apply unfilled_ReadFull | apply unfilled_advance | apply unfilled_getPage
    | apply unfilled_modify_page; intros ?; reflexivity
    | apply preserves_lift; apply stays_unfilled_refl
    | apply preserves_bind; [exact stays_unfilled_trans | | intros ?]
    | match goal with
      | |- preserves _ (if ?c then _ else _) => destruct c
      | |- context [OGG.walk ?t] => destruct (OGG.walk t) as [[[? ?] ?] ?]
      | |- preserves _ (fail _) => apply preserves_lift; apply stays_unfilled_refl
      end ].
Qed.

Lemma readPageContent_Err_page o e o' :
  OGG.readPageContent o = (Err e, o') -> OGG.CurrentPage o' = OGG.CurrentPage o.
Proof.
  intros H. unfold OGG.readPageContent, OGG.advance in H.
  err_step H.
  apply bind_Err in H as [H | (? & ? & Hr & H)]; [eapply ReadFull_page; eauto|].
  exfalso. err_step H. err_step H. destruct x3 as [pkts off]. err_step H.
  destruct (_ <? _)%nat; [eapply modify_page_Err; eauto | discriminate].
Qed.

Lemma readPage_Err_unfilled o e o' :
  OGG.readPage o = (Err e, o') -> unfilled o'.
Proof.
  intros H. unfold OGG.readPage in H.
  apply bind_Err in H as [H | (? & oA & HA & H)]; [discriminate|].
  apply modify_Ok in HA as ->.
  assert (HuA : unfilled (OGG.set_CurrentPage (Some OGG.new_OGGPage) o)).
  { exists OGG.new_OGGPage. split; [destruct o|]; reflexivity. }
  apply bind_Err in H as [H | (? & o2 & Hh & H)].
  { exact (unfilled_readPageHeader _ _ _ H HuA). }
  pose proof (unfilled_readPageHeader _ _ _ Hh HuA) as Hu2.
  apply bind_Err in H as [H | (? & o3 & Hc & H)].
  - apply readPageContent_Err_page in H. destruct Hu2 as (pg & Hpg & Hp).
    exists pg. rewrite H. auto.
  - exfalso. eapply modify_page_Err; eauto.
Qed.

(** Such a reader, once it has been initialized, panics on the next
    call, whatever its stream. *)
Lemma unfilled_panics g o :
  OGG.initialized o = true -> unfilled o ->
  OGG.NextPacket g o = (Panic index_out_of_range, o).
Proof.
  intros Hi (pg & Hpg & Hp). rewrite NextPacket_step. unfold step.
  rewrite first_page_eq, Hi, Hpg, Hp.
  destruct (_ =? _)%nat; reflexivity.
Qed.

Lemma note_granule_initialized pg o :
  OGG.initialized (note_granule pg o) = OGG.initialized o.
Proof. unfold note_granule. destruct (negb _); destruct o; reflexivity. Qed.

Lemma step_more_initialized g o o4 : step g o = inr o4 -> OGG.initialized o4 = true.
Proof.
  intros Hs. apply step_more in Hs
    as (u & o1 & pg & rest & u2 & o2 & u3 & o3 & Hf & _ & _ & _ & Hr & Hc & ->).
  apply first_page_initialized in Hf as [Hi1 _].
  apply readPage_cursor in Hr as (Hi2 & _).
  apply carry_Ok in Hc as (_ & (Hi3 & _) & _).
  cbn [OGG.initialized OGG.set_packetIndex].
  rewrite Hi3, Hi2, note_granule_initialized. exact Hi1.
Qed.

Lemma pulled_Err_state g o r o' :
  pulled g o r o' -> forall e, r = Err e ->
  (OGG.initialized o = true \/ Spec.parse_page (OGG.stream o) <> None ->
   OGG.initialized o' = true /\ unfilled o') /\
  (OGG.initialized o = false -> Spec.parse_page (OGG.stream o) = None ->
   OGG.initialized o' = false).
Proof.
  induction 1 as [o r o' Hs | o o3 r o' Hs _ IH]; intros e ->.
  - apply step_Err in Hs as [[Hi Hr] | (u & o1 & pg & rest & Hf & _ & _ & _ & Hr)].
    + split.
      * intros [Hi' | Hp]; [congruence|]. exfalso. apply Hp.
        eapply readPage_Err; eauto.
      * intros _ _. apply readPage_cursor in Hr as (Hi' & _). congruence.
    + pose proof (first_page_initialized _ _ _ Hf) as [Hi1 Hsame].
      pose proof (readPage_cursor _ _ _ Hr) as (Hi2 & _).
      rewrite note_granule_initialized in Hi2.
      split.
      * intros _. split; [congruence | eapply readPage_Err_unfilled; eauto].
      * intros Hi Hp. exfalso.
        apply first_page_Ok in Hf as [[Hi' _] | (_ & u' & o0 & pg' & Hr0 & _)];
          [congruence|].
        apply readPage_Ok in Hr0 as (sp & ? & Hp' & _). congruence.
  - pose proof (step_more_initialized _ _ _ Hs) as Hi3.
    destruct (IH e eq_refl) as [IH1 _]. split.
    + intros _. apply IH1. left. exact Hi3.
    + intros Hi Hp. exfalso.
      apply step_more in Hs as (u & o1 & pg & rest & u2 & o2 & u3 & o3' & Hf & _).
      apply first_page_Ok in Hf as [[Hi' _] | (_ & u' & o0 & pg' & Hr0 & _)];
        [congruence|].
      apply readPage_Ok in Hr0 as (sp & ? & Hp' & _). congruence.
Qed.

(** X5: when a call of [NextPacket] fails with an error after the
    reader has read a page, the page it was reading is left without its
    packet slices, and every later call panics on the index into them,
    also after [ResetReader] has supplied a new stream. *)
Theorem X5_no_resume_after_first_page g o e o' :
  OGG.NextPacket g o = (Err e, o') ->
  OGG.initialized o = true \/ Spec.parse_page (OGG.stream o) <> None ->
  OGG.NextPacket g o' = (Panic index_out_of_range, o') /\
  forall reset,
    let o2 := snd (OGG.ResetReader reset o') in
    OGG.NextPacket g o2 = (Panic index_out_of_range, o2).
Proof.
  intros Hn Hc. apply NextPacket_pulled in Hn.
  destruct (pulled_Err_state _ _ _ _ Hn e eq_refl) as [H _].
  destruct (H Hc) as [Hi Hu]. split; [apply unfilled_panics; auto|].
  intros reset o2. apply unfilled_panics.
  - unfold o2, OGG.ResetReader, modify. destruct o'; exact Hi.
  - destruct Hu as (pg & Hpg & Hp). exists pg. split; [|exact Hp].
    unfold o2, OGG.ResetReader, modify. destruct o'; exact Hpg.
Qed.

(** X6: when the first page cannot be read, the call fails with an
    error and the reader stays uninitialized; after [ResetReader] the
    calls that succeed return the packets of the stream that [reset]
    supplied for the count of bytes read, from its first page on. *)
Theorem X6_resume_before_first_page g o :
  OGG.initialized o = false ->
  Spec.parse_page (OGG.stream o) = None ->
  exists e o',
    OGG.NextPacket g o = (Err e, o') /\
    OGG.initialized o' = false /\
    forall reset ps o2,
      pulls g (snd (OGG.ResetReader reset o')) ps o2 ->
      Forall2 (fun p grp =>
                 elems p = concat (map snd grp) /\
                 len p = sum_list_with (fun sg => Spec.seg_size (fst sg)) grp)
              ps (take (length ps)
                    (Spec.packets_of (reset (OGG.bytesReadSuccesfully o')))).
Proof.
  intros Hi Hp. destruct (readPage_unparsed o Hp) as (e & o' & Hr).
  assert (Hn : OGG.NextPacket g o = (Err e, o')).
  { rewrite NextPacket_step. unfold step. rewrite first_page_eq, Hi, Hr. reflexivity. }
  exists e, o'. split; [exact Hn|].
  apply NextPacket_pulled in Hn.
  destruct (pulled_Err_state _ _ _ _ Hn e eq_refl) as [_ H].
  specialize (H Hi Hp). split; [exact H|].
  intros reset ps o2 Hps. eapply pulls_view in Hps as [Hps _].
  - exact Hps.
  - unfold view, OGG.ResetReader, modify. cbn [snd].
    replace (OGG.initialized (OGG.set_stream _ o')) with (OGG.initialized o')
      by (destruct o'; reflexivity).
    rewrite H. destruct o'; reflexivity.
  - apply packets_of_ok.
Qed.

Lemma nth_take_lt {A} (l : list A) (d : A) : forall i n,
  (i < n)%nat -> nth i (take n l) d = nth i l d.
Proof.
  induction l as [|x l IH]; intros i n Hi.
  - rewrite take_nil. reflexivity.
  - destruct n; [lia|]. destruct i; [reflexivity|]. cbn. apply IH. lia.
Qed.

Lemma byte_to_Z_zero b : byte_to_Z b = 0 <-> b = x00.
Proof.
  split; [|intros ->; reflexivity].
  unfold byte_to_Z. intros H.
  assert (Hn : Byte.to_N b = Byte.to_N x00) by (cbn; lia).
  apply (f_equal Byte.of_N) in Hn. rewrite !Byte.of_to_N in Hn. congruence.
Qed.

Lemma first_call_Err g o e :
  OGG.initialized o = false -> fst (OGG.readPage o) = Err e ->
  fst (OGG.NextPacket g o) = Err e.
Proof.
  intros Hi Hr. rewrite NextPacket_step. unfold step. rewrite first_page_eq, Hi.
  destruct (OGG.readPage o) as [[u|e'|p|] o1]; cbn in Hr; try discriminate.
  injection Hr as ->. reflexivity.
Qed.

(** X7: the error of the first call, from the place where the stream
    falls short or goes wrong: [io.EOF] when a read finds no byte at
    all, [io.ErrUnexpectedEOF] when it finds too few, and the two
    errors of the header check. *)
Theorem X7_first_page_errors g o :
  OGG.initialized o = false ->
  let s := OGG.stream o in
  let n := Spec.seg_size (nth 26 s x00) in
  let body := Spec.body_size (take n (drop 27 s)) in
  let result := fst (OGG.NextPacket g o) in
  (s = [] -> result = Err io_EOF) /\
  (s <> [] -> (length s < 27)%nat -> result = Err io_ErrUnexpectedEOF) /\
  ((27 <= length s)%nat -> take 4 s <> OGG.capturePattern ->
   result = Err (errors_New "ogg: missing capture pattern")) /\
  ((27 <= length s)%nat -> take 4 s = OGG.capturePattern -> nth 4 s x00 <> x00 ->
   result = Err (errors_New "ogg: unsupported version")) /\
  ((27 <= length s)%nat -> take 4 s = OGG.capturePattern -> nth 4 s x00 = x00 ->
   (length s = 27%nat -> (0 < n)%nat -> result = Err io_EOF) /\
   ((27 < length s < 27 + n)%nat -> result = Err io_ErrUnexpectedEOF) /\
   (length s = (27 + n)%nat -> (0 < body)%nat -> result = Err io_EOF) /\
   ((27 + n < length s < 27 + n + body)%nat -> result = Err io_ErrUnexpectedEOF)).
Proof.
  intros Hi s n body result.
  pose proof (readPage_fails o) as (H1 & H2 & H3 & H4 & H5). cbv zeta in *.
  fold s in H1, H2, H3, H4, H5.
  assert (E4 : nth 4 (take 27 s) x00 = nth 4 s x00) by (apply nth_take_lt; lia).
  assert (E26 : nth 26 (take 27 s) x00 = nth 26 s x00) by (apply nth_take_lt; lia).
  rewrite E4 in H3, H4, H5. rewrite E26 in H4, H5.
  fold n in H4, H5. fold body in H5.
  unfold result.
  split; [|split; [|split; [|split]]].
  - intros Hs. apply first_call_Err; [exact Hi|]. rewrite H1; rewrite Hs; [reflexivity|cbn; lia].
  - intros Hs Hl. apply first_call_Err; [exact Hi|]. rewrite H1 by exact Hl.
    destruct s; [congruence | reflexivity].
  - intros Hl Hc. apply first_call_Err; [exact Hi|]. apply H2; [exact Hl|].
    apply bytes_eqb_neq. exact Hc.
  - intros Hl Hc Hv. apply first_call_Err; [exact Hi|]. apply H3; [exact Hl | |].
    + rewrite Hc. apply bytes_eqb_refl.
    + rewrite byte_to_Z_zero. exact Hv.
  - intros Hl Hc Hv.
    assert (Hc' : OGG.bytes_eqb (take 4 s) OGG.capturePattern = true)
      by (rewrite Hc; apply bytes_eqb_refl).
    assert (Hv' : byte_to_Z (nth 4 s x00) = 0) by (rewrite byte_to_Z_zero; exact Hv).
    assert (Hd : length (drop 27 s) = (length s - 27)%nat) by apply length_drop.
    assert (Hd2 : length (drop n (drop 27 s)) = (length s - 27 - n)%nat)
      by (rewrite !length_drop; reflexivity).
    split; [|split; [|split]].
    + intros Hs Hn. apply first_call_Err; [exact Hi|]. rewrite H4; auto; [|lia].
      destruct (drop 27 s); [reflexivity | cbn in Hd; lia].
    + intros Hs. apply first_call_Err; [exact Hi|]. rewrite H4; auto; [|lia].
      destruct (drop 27 s); [cbn in Hd; lia | reflexivity].
    + intros Hs Hb. apply first_call_Err; [exact Hi|]. rewrite H5; auto; [|lia|lia].
      destruct (drop n (drop 27 s)); [reflexivity | cbn in Hd2; lia].
    + intros Hs. apply first_call_Err; [exact Hi|]. rewrite H5; auto; [|lia|lia].
      destruct (drop n (drop 27 s)); [cbn in Hd2; lia | reflexivity].
Qed.

(** ** Every packet of a stream is delivered *)

Lemma packets_of_end s : Spec.parse_page s = None -> Spec.packets_of s = [].
Proof.
  intros H. unfold Spec.packets_of, Spec.stream_segments.
  rewrite (pages_of_end _ H). reflexivity.
Qed.

Lemma stream_segments_end s : Spec.parse_page s = None -> Spec.stream_segments s = [].
Proof. intros H. unfold Spec.stream_segments. rewrite (pages_of_end _ H). reflexivity. Qed.

Lemma no_empty_parsed s sp rest :
  Spec.parse_page s = Some (sp, rest) -> no_empty_page s ->
  Spec.table sp <> [] /\ no_empty_page rest.
Proof.
  intros Hp Hn. unfold no_empty_page in *. rewrite (pages_of_parsed _ _ _ Hp) in Hn.
  inversion Hn; subst. auto.
Qed.

(** The first page, for a reader in a state that [view] describes. *)
Lemma first_page_progress o F :
  view o F -> no_empty_page (OGG.stream o) ->
  (OGG.initialized o = false -> starts_clean (OGG.stream o)) ->
  (exists e o1, OGG.first_page o = (Err e, o1) /\ F = []) \/
  (exists o1 pg,
     OGG.first_page o = (Ok tt, o1) /\ view o1 F /\
     OGG.initialized o1 = true /\ OGG.CurrentPage o1 = Some pg /\
     (OGG.packetIndex o1 <= OGG.packetsCount pg)%nat /\
     length (OGG.packets pg) = S (OGG.packetsCount pg) /\
     no_empty_page (OGG.stream o1)).
Proof.
  intros Hv Hne Hclean.
  destruct (OGG.initialized o) eqn:Hi.
  - right. assert (Hf : OGG.first_page o = (Ok tt, o))
      by (rewrite first_page_eq, Hi; reflexivity).
    destruct (view_first _ _ _ _ Hv Hf) as (pg & Hpg & Hle & _).
    assert (Hk : (OGG.packetIndex o <= OGG.packetsCount pg)%nat).
    { unfold view in Hv. rewrite Hi in Hv.
      destruct Hv as (pg' & gs & tr & Hpg' & Hc & _). rewrite Hpg in Hpg'.
      injection Hpg' as <-. lia. }
    destruct (Hle Hk) as [Hv1 Hlen]. exists o, pg. auto 10.
  - destruct (Spec.parse_page (OGG.stream o)) as [[sp rest]|] eqn:Hp.
    + right. destruct (no_empty_parsed _ _ _ Hp Hne) as [Ht Hne'].
      destruct (readPage_parsed o sp rest Hp Ht) as [o0 Hr].
      pose proof (readPage_Ok _ _ _ Hr) as (sp' & pg & Hp' & _ & Hpg & Hm).
      rewrite Hp in Hp'. injection Hp' as <- Hrest.
      set (o1 := OGG.set_initialized true
                   (OGG.set_packetIndex (if OGG.isContinued pg then 1 else 0)%nat o0)).
      assert (Hf : OGG.first_page o = (Ok tt, o1)).
      { rewrite first_page_eq, Hi, Hr, Hpg. reflexivity. }
      destruct (view_first _ _ _ _ Hv Hf) as (pg' & Hpg' & Hle & _).
      assert (Hpg1 : OGG.CurrentPage o1 = Some pg) by (unfold o1; destruct o0; exact Hpg).
      rewrite Hpg1 in Hpg'. injection Hpg' as <-.
      assert (Hk : (OGG.packetIndex o1 <= OGG.packetsCount pg)%nat).
      { replace (OGG.packetIndex o1) with (if OGG.isContinued pg then 1 else 0)%nat
          by (unfold o1; destruct o0; reflexivity).
        rewrite (isContinued_matches _ _ Hm).
        destruct (Spec.continued sp) eqn:Hcont; [|lia].
        specialize (Hclean eq_refl). unfold starts_clean in Hclean.
        rewrite (pages_of_parsed _ _ _ Hp) in Hclean. specialize (Hclean Hcont).
        destruct Hm as (_ & Hc & _). rewrite Hc.
        destruct (fst (Spec.lace [] (Spec.page_segments sp))); [congruence | cbn; lia]. }
      destruct (Hle Hk) as [Hv1 Hlen].
      exists o1, pg. split; [exact Hf|]. split; [exact Hv1|].
      split; [unfold o1; destruct o0; reflexivity|]. split; [exact Hpg1|].
      split; [exact Hk|]. split; [exact Hlen|].
      replace (OGG.stream o1) with (OGG.stream o0) by (unfold o1; destruct o0; reflexivity).
      rewrite <- Hrest. exact Hne'.
    + left. destruct (readPage_unparsed o Hp) as (e & o1 & Hr).
      exists e, o1. split; [rewrite first_page_eq, Hi, Hr; reflexivity|].
      unfold view in Hv. rewrite Hi in Hv. rewrite Hv. apply packets_of_end. exact Hp.
Qed.

(** One turn of [NextPacket] on a stream without empty pages: a
    packet, when there is one left; an error, when there is none; or
    the next page. *)
Lemma step_progress g o F :
  view o F -> no_empty_page (OGG.stream o) ->
  (OGG.initialized o = false -> starts_clean (OGG.stream o)) ->
  (exists p o', step g o = inl (Ok p, o') /\ F <> []) \/
  (exists e o', step g o = inl (Err e, o') /\ F = []) \/
  (exists o4, step g o = inr o4 /\ no_empty_page (OGG.stream o4)).
Proof.
  intros Hv Hne Hclean.
  destruct (first_page_progress o F Hv Hne Hclean)
    as [(e & o1 & Hf & HF) | (o1 & pg & Hf & Hv1 & Hi1 & Hpg & Hk & Hlen & Hne1)].
  { right; left. exists e, o1. split; [|exact HF]. unfold step. rewrite Hf. reflexivity. }
  unfold view in Hv1. rewrite Hi1 in Hv1.
  destruct Hv1 as (pg' & gs & tr & Hpg' & Hc & Hel & HF).
  rewrite Hpg in Hpg'. injection Hpg' as <-.
  unfold step. rewrite Hf, Hpg.
  destruct (Nat.eqb_spec (OGG.packetIndex o1) (OGG.packetsCount pg)) as [Hidx|Hidx].
  - assert (Hgs : gs = []) by (destruct gs; [reflexivity | cbn in Hc; lia]).
    subst gs. cbn [app] in HF.
    destruct (OGG.packets pg !! OGG.packetsCount pg) as [rest|] eqn:Hrest;
      [|apply lookup_ge_None in Hrest; lia].
    destruct (Spec.parse_page (OGG.stream o1)) as [[sp rest']|] eqn:Hp.
    + right; right.
      destruct (no_empty_parsed _ _ _ Hp Hne1) as [Ht Hne'].
      assert (Hp' : Spec.parse_page (OGG.stream (note_granule pg o1)) = Some (sp, rest'))
        by (rewrite note_granule_stream; exact Hp).
      destruct (readPage_parsed _ sp rest' Hp' Ht) as [o2 Hr]. rewrite Hr.
      pose proof (readPage_Ok _ _ _ Hr) as (sp2 & pg2 & Hp2 & _ & Hpg2 & Hm).
      rewrite Hp' in Hp2. injection Hp2 as <- Hs2.
      assert (Hp0 : exists p0, OGG.packets pg2 !! 0%nat = Some p0).
      { destruct Hm as (_ & _ & Hel2 & _).
        destruct (OGG.packets pg2) as [|p0 l]; [|eauto].
        destruct (fst (Spec.lace [] (Spec.page_segments sp))); discriminate. }
      destruct Hp0 as [p0 Hp0].
      assert (Hcarry : exists o3, carry g rest o2 = (Ok tt, o3) /\
                                  OGG.stream o3 = OGG.stream o2).
      { unfold carry. rewrite Hpg2, Hp0.
        destruct (0 <? len rest)%nat; eexists; split; reflexivity. }
      destruct Hcarry as (o3 & -> & Hs3).
      eexists. split; [reflexivity|].
      cbn [OGG.stream OGG.set_packetIndex]. rewrite Hs3, <- Hs2. exact Hne'.
    + right; left.
      assert (Hp' : Spec.parse_page (OGG.stream (note_granule pg o1)) = None)
        by (rewrite note_granule_stream; exact Hp).
      destruct (readPage_unparsed _ Hp') as (e & o2 & ->).
      exists e, o2. split; [reflexivity|].
      rewrite HF, (stream_segments_end _ Hp). reflexivity.
  - left.
    destruct (OGG.packets pg !! OGG.packetIndex o1) as [p|] eqn:Hp;
      [|apply lookup_ge_None in Hp; lia].
    eexists _, _. split; [reflexivity|].
    rewrite HF. destruct gs; [cbn in Hc; lia | discriminate].
Qed.

Lemma progress_fuel g : forall f o F,
  (length (OGG.stream o) < f)%nat ->
  view o F -> no_empty_page (OGG.stream o) ->
  (OGG.initialized o = false -> starts_clean (OGG.stream o)) ->
  (F <> [] -> exists p o', OGG.NextPacket_fuel g f o = (Ok p, o')) /\
  (F = [] -> exists e o', OGG.NextPacket_fuel g f o = (Err e, o')).
Proof.
  induction f as [|f IH]; intros o F Hf Hv Hne Hclean; [lia|].
  rewrite NextPacket_fuel_step.
  destruct (step_progress g o F Hv Hne Hclean)
    as [(p & o' & -> & HF) | [(e & o' & -> & HF) | (o4 & Hs & Hne4)]].
  - split; [eauto | congruence].
  - split; [congruence | eauto].
  - rewrite Hs. apply IH.
    + apply step_more_stream in Hs. lia.
    + eapply view_more; eauto.
    + exact Hne4.
    + intros Hi. rewrite (step_more_initialized _ _ _ Hs) in Hi. discriminate.
Qed.

Lemma first_page_no_empty o u o1 :
  OGG.first_page o = (Ok u, o1) ->
  no_empty_page (OGG.stream o) -> no_empty_page (OGG.stream o1).
Proof.
  intros Hf Hne.
  apply first_page_Ok in Hf as [[_ ->] | (_ & u' & o0 & pg & Hr & _ & ->)]; [exact Hne|].
  apply readPage_Ok in Hr as (sp & _ & Hp & _).
  replace (OGG.stream (OGG.set_initialized true (OGG.set_packetIndex _ o0)))
    with (OGG.stream o0) by (destruct o0; reflexivity).
  exact (proj2 (no_empty_parsed _ _ _ Hp Hne)).
Qed.

Lemma arm_stream pg o : OGG.stream (arm pg o) = OGG.stream o.
Proof. unfold arm. destruct (_ && _); destruct o; reflexivity. Qed.

Lemma pulled_no_empty g o r o' :
  pulled g o r o' -> forall p, r = Ok p ->
  no_empty_page (OGG.stream o) -> no_empty_page (OGG.stream o').
Proof.
  induction 1 as [o r o' Hs | o o4 r o' Hs _ IH]; intros p -> Hne.
  - apply step_Ok in Hs as (u & o1 & pg & Hf & _ & _ & _ & ->).
    rewrite arm_stream. cbn [OGG.stream OGG.set_packetIndex].
    eapply first_page_no_empty; eauto.
  - apply (IH p eq_refl).
    apply step_more in Hs
      as (u & o1 & pg & rest & u2 & o2 & u3 & o3 & Hf & _ & _ & _ & Hr & Hc & ->).
    apply carry_Ok in Hc as (Hs3 & _).
    apply readPage_Ok in Hr as (sp & _ & Hp & _).
    rewrite note_granule_stream in Hp.
    cbn [OGG.stream OGG.set_packetIndex]. rewrite Hs3.
    refine (proj2 (no_empty_parsed _ _ _ Hp _)).
    eapply first_page_no_empty; eauto.
Qed.

Lemma pulls_no_empty g o ps o' :
  pulls g o ps o' -> no_empty_page (OGG.stream o) -> no_empty_page (OGG.stream o').
Proof.
  induction 1 as [o | o p o1 ps o2 Hn _ IH]; intros Hne; [exact Hne|].
  apply IH. apply NextPacket_pulled in Hn. eapply pulled_no_empty; eauto.
Qed.

(** X14: on a stream in which no page has an empty segment table and
    the first page, if flagged as continued, holds the end of a packet,
    the calls on a reader made by [NewOggReader] return every packet of
    the stream: a call returns a packet as long as there is one that
    has not been returned, and fails with an error after the last. *)
Theorem X14_every_packet_is_delivered g s ps o :
  pulls g (OGG.NewOggReader s) ps o ->
  no_empty_page s -> starts_clean s ->
  ((length ps < length (Spec.packets_of s))%nat ->
   exists p o', OGG.NextPacket g o = (Ok p, o')) /\
  (length ps = length (Spec.packets_of s) ->
   exists e o', OGG.NextPacket g o = (Err e, o')).
Proof.
  intros Hps Hne Hclean.
  pose proof (pulls_view _ _ _ _ Hps (Spec.packets_of s) eq_refl (packets_of_ok s))
    as [_ Hv].
  pose proof (pulls_no_empty _ _ _ _ Hps Hne) as Hne'.
  assert (Hclean' : OGG.initialized o = false -> starts_clean (OGG.stream o)).
  { intros Hi. destruct ps as [|p ps].
    - inversion Hps; subst. exact Hclean.
    - destruct (pulls_last _ _ _ _ Hps ltac:(discriminate)) as (pg & Hi' & _).
      congruence. }
  destruct (progress_fuel g (S (length (OGG.stream o))) o _ ltac:(lia) Hv Hne' Hclean')
    as [Hok Herr].
  split.
  - intros Hl. apply Hok. intros Hd. apply (f_equal length) in Hd.
    rewrite length_drop in Hd. cbn in Hd. lia.
  - intros Hl. apply Herr. rewrite Hl. apply drop_all.
Qed.

Lemma lace_all_full t : forall b cur,
  Forall (fun v => v = xff) t -> fst (Spec.lace cur (Spec.segments t b)) = [].
Proof.
  induction t as [|v t IH]; intros b cur Hf; [reflexivity|].
  inversion Hf; subst. cbn [Spec.segments Spec.lace fst]. cbn [Nat.ltb Nat.leb].
  change (Spec.seg_size xff <? 255)%nat with false. cbn iota. apply IH. assumption.
Qed.

(** X15: a first page that is flagged as continued and in which no
    packet ends (every entry of its segment table is 255) is read, the
    packet index is set to 1, and the call panics on the index into
    the one packet slice of the page. *)
Theorem X15_continued_first_page_without_end g o sp rest :
  OGG.initialized o = false ->
  Spec.parse_page (OGG.stream o) = Some (sp, rest) ->
  Spec.table sp <> [] ->
  Spec.continued sp = true ->
  Forall (fun v => v = xff) (Spec.table sp) ->
  fst (OGG.NextPacket g o) = Panic index_out_of_range.
Proof.
  intros Hi Hp Ht Hcont Hfull.
  destruct (readPage_parsed o sp rest Hp Ht) as [o0 Hr].
  pose proof (readPage_Ok _ _ _ Hr) as (sp' & pg & Hp' & _ & Hpg & Hm).
  rewrite Hp in Hp'. injection Hp' as <- _.
  pose proof (isContinued_matches _ _ Hm) as Hc. rewrite Hcont in Hc.
  destruct Hm as (_ & Hcount & Hel & _).
  unfold Spec.page_segments in Hcount, Hel.
  rewrite (lace_all_full _ _ _ Hfull) in Hcount, Hel. cbn in Hcount, Hel.
  rewrite NextPacket_step. unfold step.
  rewrite first_page_eq, Hi, Hr, Hpg, Hc.
  replace (OGG.CurrentPage (OGG.set_initialized true (OGG.set_packetIndex 1 o0)))
    with (OGG.CurrentPage o0) by (destruct o0; reflexivity).
  replace (OGG.packetIndex (OGG.set_initialized true (OGG.set_packetIndex 1 o0)))
    with 1%nat by (destruct o0; reflexivity).
  rewrite Hpg, Hcount. cbn [Nat.eqb].
  destruct (OGG.packets pg) as [|p0 [|p1 l]]; try discriminate. reflexivity.
Qed.

(** ** The packet configuration *)

Lemma samples_Ok b0 tl sp :
  exists v, TOC.getSamplesPerFrame (Slice (b0 :: tl) sp) = Ok v.
Proof.
  unfold TOC.getSamplesPerFrame, index. cbn [elems lookup list_lookup].
  destruct (negb _); [eauto|]. destruct (_ =? 0x60).
  - destruct (negb _); eauto.
  - destruct (_ =? 3); eauto.
Qed.

Lemma config_bits (b0 : byte) :
  Z.land (Z.shiftr (byte_to_Z b0) 3) 31 = byte_to_Z b0 / 8 /\
  Z.land (Z.shiftr (byte_to_Z b0) 2) 1 = (byte_to_Z b0 / 4) mod 2.
Proof. destruct b0; vm_compute; split; reflexivity. Qed.

Lemma frames_Ok b0 tl sp :
  Z.land (byte_to_Z b0) 3 <> 3 \/ tl <> [] ->
  exists fr, TOC.getFramesNumberInPacket (Slice (b0 :: tl) sp) = Ok fr.
Proof.
  intros Hc. unfold TOC.getFramesNumberInPacket, index. cbn [elems lookup list_lookup].
  destruct (Z.eqb_spec (Z.land (byte_to_Z b0) 3) 0); [eauto|].
  destruct (Z.eqb_spec (Z.land (byte_to_Z b0) 3) 3) as [E3|]; [|cbn; eauto].
  cbn [negb]. destruct Hc as [Hc|Hc]; [congruence|].
  destruct tl; [congruence|]. eauto.
Qed.

Lemma readPacketConfig_runs b0 tl sp :
  Z.land (byte_to_Z b0) 3 <> 3 \/ tl <> [] ->
  exists fr sa,
    OPUS.readPacketConfig (OPUS.mkPacket OPUS.zero_Config (Slice (b0 :: tl) sp))
    = Ok (OPUS.mkPacket
            (OPUS.mkConfig (Z.land (Z.shiftr (byte_to_Z b0) 3) 31)
                           (Z.land (Z.shiftr (byte_to_Z b0) 2) 1)
                           fr sa (int_mul fr sa))
            (Slice (b0 :: tl) sp)).
Proof.
  intros Hc. destruct (samples_Ok b0 tl sp) as [sa Hsa].
  destruct (frames_Ok b0 tl sp Hc) as [fr Hfr].
  exists fr, sa. unfold OPUS.readPacketConfig. cbn [OPUS.PacketData].
  rewrite Hfr, Hsa. reflexivity.
Qed.

(** X8: [readPacketConfig] fails with the TOC error on an empty
    packet, panics on a packet of one byte with packing code 3 (the
    frame count is read from the second byte), and otherwise stores
    the configuration number (the upper five bits of the first byte),
    the stereo bit, the frame count, the frame size and their product,
    which is at most [63 * 2880]; the payload is left as it is. *)
Theorem X8_packet_config (els sp : list byte) :
  let data := Slice els sp in
  let result := OPUS.readPacketConfig (OPUS.mkPacket OPUS.zero_Config data) in
  (els = [] -> result = Err (errors_New "opusreader: invalid TOC byte")) /\
  (forall b0, els = [b0] -> Z.land (byte_to_Z b0) 3 = 3 ->
     result = Panic index_out_of_range) /\
  (forall b0 tl, els = b0 :: tl -> Z.land (byte_to_Z b0) 3 <> 3 \/ tl <> [] ->
     exists pkt, result = Ok pkt /\
       OPUS.PacketData pkt = data /\
       OPUS.ConfigCode (OPUS.config pkt) = byte_to_Z b0 / 8 /\
       OPUS.SoundMode (OPUS.config pkt) = (byte_to_Z b0 / 4) mod 2 /\
       0 <= OPUS.FramesNumber (OPUS.config pkt) <= 63 /\
       120 <= OPUS.SamplesNumberPerFrame (OPUS.config pkt) <= 2880 /\
       OPUS.TotalSamples (OPUS.config pkt)
         = OPUS.FramesNumber (OPUS.config pkt)
           * OPUS.SamplesNumberPerFrame (OPUS.config pkt) /\
       0 <= OPUS.TotalSamples (OPUS.config pkt) <= 181440).
Proof.
  intros data result. split; [|split].
  - intros ->. reflexivity.
  - intros b0 -> Hc. unfold result, data, OPUS.readPacketConfig,
      TOC.getFramesNumberInPacket, index, len.
    cbn [OPUS.PacketData elems length Nat.ltb Nat.leb lookup list_lookup].
    rewrite Hc. reflexivity.
  - intros b0 tl -> Hc.
    destruct (readPacketConfig_runs b0 tl sp Hc) as (fr & sa & Hr).
    fold data in Hr. fold result in Hr.
    pose proof (readPacketConfig_Ok _ _ Hr) as (Hd & Hfb & Hsb & Ht & _).
    destruct (config_bits b0) as [Hcc Hsm].
    eexists. split; [exact Hr|]. cbn in *.
    rewrite Hcc, Hsm. repeat split; try lia; try reflexivity; try nia.
Qed.

(** X9: a packet of one byte that ends the body of its page has
    capacity 1, and the test for the [Op] prefix slices its first two
    bytes: the call of the Opus reader that pulls it, after the headers
    it has or reads itself, panics, after the packet has been taken
    from the Ogg reader. *)
Theorem X9_one_byte_packet_panics g o u o1 b0 og :
  OPUS.LastPacket o = false ->
  headers g o = (Ok u, o1) ->
  OGG.NextPacket g (OPUS.OGGReader o1) = (Ok (Slice [b0] []), og) ->
  Z.land (byte_to_Z b0) 3 <> 3 ->
  fst (OPUS.NextPacket g o) = Panic slice_bounds_out_of_range /\
  OPUS.OGGReader (snd (OPUS.NextPacket g o)) = og.
Proof.
  intros Hl Hh Hn Hc.
  destruct (readPacketConfig_runs b0 [] [] (or_introl Hc)) as (fr & sa & Hr).
  rewrite O_NextPacket_step. unfold ostep. fold (headers g o).
  rewrite Hl, Hh, Hn, Hr.
  unfold reslice, cap, backing. cbn [elems spare app length Nat.leb andb].
  destruct (OGG.lastPacket og); split; reflexivity.
Qed.

(** ** The headers of the Opus reader *)

Lemma headers_kept_refl o : headers_kept o o.
Proof. repeat split. Qed.

Lemma headers_kept_trans a b c :
  headers_kept a b -> headers_kept b c -> headers_kept a c.
Proof. unfold headers_kept. intuition congruence. Qed.

Lemma account_kept pkt o : headers_kept o (snd (OPUS.account pkt o)).
Proof.
  unfold OPUS.account.
  destruct (0 <? OPUS.SamplesNumberPerFrame _); [|apply headers_kept_refl].
  destruct (0 <? OPUS.FramesNumber _); [|apply headers_kept_refl].
  destruct (0 <? int_sub _ _); repeat split.
Qed.

Lemma latched_kept og o : headers_kept o (latched og (OPUS.set_OGGReader og o)).
Proof. unfold latched. destruct (OGG.lastPacket og); repeat split. Qed.

Lemma ostep_kept g o :
  OPUS.initialized o = true ->
  match ostep g o with
  | inl (_, o') => headers_kept o o'
  | inr o3 => headers_kept o o3
  end.
Proof.
  intros Hi. unfold ostep.
  destruct (OPUS.LastPacket o); [apply headers_kept_refl|].
  rewrite Hi. cbn [negb]. unfold ret.
  destruct (OGG.NextPacket g (OPUS.OGGReader o)) as [[data| | |] og];
    try (repeat split; fail).
  destruct (OPUS.readPacketConfig _) as [pkt| | |]; try (repeat split; fail).
  fold (latched og (OPUS.set_OGGReader og o)).
  pose proof (latched_kept og o) as Hk.
  destruct (reslice data 0 2) as [prefix| | |]; try exact Hk.
  destruct (OGG.bytes_eqb _ _); [exact Hk|].
  pose proof (account_kept pkt (latched og (OPUS.set_OGGReader og o))) as Ha.
  destruct (OPUS.account _ _) as [p o4]. cbn [snd] in Ha.
  eapply headers_kept_trans; eauto.
Qed.

Lemma opulled_kept g o r o' :
  opulled g o r o' -> OPUS.initialized o = true -> headers_kept o o'.
Proof.
  induction 1 as [o r o' Hs | o o3 r o' Hs _ IH]; intros Hi.
  - pose proof (ostep_kept g o Hi) as H. rewrite Hs in H. exact H.
  - pose proof (ostep_kept g o Hi) as H. rewrite Hs in H.
    eapply headers_kept_trans; [exact H|]. apply IH.
    destruct H as (_ & _ & ->). exact Hi.
Qed.

Lemma run_kept g o pkts o' :
  run g o pkts o' -> OPUS.initialized o = true -> headers_kept o o'.
Proof.
  induction 1 as [o | o pkt o1 pkts o2 Hn _ IH | o r o1 pkts o2 Hn _ _ IH]; intros Hi.
  - apply headers_kept_refl.
  - apply O_NextPacket_pulled in Hn. pose proof (opulled_kept _ _ _ _ Hn Hi) as H.
    eapply headers_kept_trans; [exact H|]. apply IH. destruct H as (_ & _ & ->). exact Hi.
  - apply O_NextPacket_pulled in Hn. pose proof (opulled_kept _ _ _ _ Hn Hi) as H.
    eapply headers_kept_trans; [exact H|]. apply IH. destruct H as (_ & _ & ->). exact Hi.
Qed.

(** X11: once the headers are read, no call changes the
    identification header or the vendor name, and the reader stays
    initialized, whatever the calls return. *)
Theorem X11_headers_are_read_once g o pkts o' :
  run g o pkts o' ->
  OPUS.initialized o = true ->
  OPUS.idheader o' = OPUS.idheader o /\
  OPUS.VendorName o' = OPUS.VendorName o /\
  OPUS.initialized o' = true.
Proof.
  intros Hrun Hi. destruct (run_kept _ _ _ _ Hrun Hi) as (H1 & H2 & H3).
  rewrite H3. auto.
Qed.

Lemma headers_read g o u o1 :
  headers g o = (Ok u, o1) -> OPUS.initialized o = false ->
  exists h t og1,
    OGG.NextPacket g (OPUS.OGGReader o) = (Ok h, og1) /\
    OGG.NextPacket g og1 = (Ok t, OPUS.OGGReader o1) /\
    parseID h = Ok (OPUS.idheader o1) /\
    parseTags t = Ok (OPUS.VendorName o1) /\
    OPUS.initialized o1 = true.
Proof.
  unfold headers. intros H Hi. rewrite Hi in H. cbn [negb] in H.
  rewrite readHeaders_eq, readIDHeader_eq in H.
  destruct (OGG.NextPacket g (OPUS.OGGReader o)) as [[h| | |] og1] eqn:Hn1;
    try discriminate.
  destruct (parseID h) as [hd| | |] eqn:Hid; try discriminate.
  rewrite readTags_eq in H. cbn [OPUS.OGGReader OPUS.set_idheader OPUS.set_OGGReader] in H.
  destruct (OGG.NextPacket g og1) as [[t| | |] og2] eqn:Hn2; try discriminate.
  destruct (parseTags t) as [v| | |] eqn:Htg; try discriminate.
  injection H as _ <-. exists h, t, og1. cbn. auto.
Qed.

Lemma reslice_inv s lo hi r :
  reslice s lo hi = Ok r ->
  (lo <= hi <= cap s)%nat /\
  r = Slice (take (hi - lo) (drop lo (backing s))) (drop hi (backing s)).
Proof.
  unfold reslice.
  destruct (Nat.leb_spec lo hi), (Nat.leb_spec hi (cap s)); cbn; try discriminate.
  intros [= <-]. split; [lia | reflexivity].
Qed.

Lemma index_inv s i b : index s i = Ok b -> elems s !! i = Some b.
Proof. unfold index. destruct (_ !! _); [intros [= ->]; reflexivity | discriminate]. Qed.

Lemma take_drop_elems s k n :
  (k + n <= len s)%nat -> take n (drop k (backing s)) = take n (drop k (elems s)).
Proof.
  intros H. unfold backing, len in *. rewrite drop_app_le by lia.
  rewrite take_app_le by (rewrite length_drop; lia). reflexivity.
Qed.

Lemma parseID_fields hp h :
  parseID hp = Ok h ->
  (19 <= len hp)%nat /\
  take 8 (elems hp) = OPUS.opusHeadPrefix /\
  elems hp !! 8%nat = Some (OPUS.Version h) /\
  elems hp !! 9%nat = Some (OPUS.ChannelCount h) /\
  OPUS.ChannelCount h <> x00 /\
  OPUS.PreSkip h = le_uint (take 2 (drop 10 (elems hp))) /\
  OPUS.InputSampleRate h = le_uint (take 4 (drop 12 (elems hp))) /\
  OPUS.OutputGain h = le_uint (take 2 (drop 16 (elems hp))) /\
  elems hp !! 18%nat = Some x00 /\
  OPUS.ChannelMappingFamily h = x00 /\
  OPUS.CapturePattern h = replicate 8 x00.
Proof.
  unfold parseID. intros H. outcome_inv H. injection H as <-.
  cbn [OPUS.Version OPUS.ChannelCount OPUS.PreSkip OPUS.InputSampleRate
       OPUS.OutputGain OPUS.ChannelMappingFamily OPUS.CapturePattern].
  repeat match goal with
         | E : reslice _ _ _ = Ok _ |- _ => apply reslice_inv in E as [? ->]
         | E : index _ _ = Ok _ |- _ => apply index_inv in E
         end.
  match goal with E : elems hp !! 18%nat = Some _ |- _ =>
    pose proof (lookup_lt_Some _ _ _ E) as Hlen end.
  fold (len hp) in Hlen.
  repeat match goal with
         | E : negb _ = false |- _ => apply negb_false_iff in E
         | E : OGG.bytes_eqb _ _ = true |- _ => apply bytes_eqb_eq in E
         | E : OPUS.Uint16 _ = Ok _ |- _ =>
             unfold OPUS.Uint16 in E; destruct (index _ 1); try discriminate E;
             injection E as <-
         | E : OPUS.Uint32 _ = Ok _ |- _ =>
             unfold OPUS.Uint32 in E; destruct (index _ 3); try discriminate E;
             injection E as <-
         end.
  cbn [elems] in *.
  match goal with E : (byte_to_Z _ =? 0) = true |- _ =>
    apply Z.eqb_eq in E; apply byte_to_Z_zero in E; subst end.
  match goal with E : (byte_to_Z _ =? 0) = false |- _ =>
    apply Z.eqb_neq in E; rewrite byte_to_Z_zero in E end.
  rewrite !take_take. cbn [Nat.min Nat.sub] in *.
  rewrite !take_drop_elems by lia.
  rewrite drop_0 in *.
  match goal with E : take 8 (backing hp) = _ |- _ =>
    rewrite <- (drop_0 (backing hp)), take_drop_elems in E by lia;
    rewrite drop_0 in E end.
  repeat split; auto; lia.
Qed.

Lemma parseTags_fields t v :
  parseTags t = Ok v ->
  let n := Z.to_nat (le_uint (take 4 (drop 8 (backing t)))) in
  take 8 (backing t) = OPUS.opusTagsPrefix /\
  (12 + n <= cap t)%nat /\
  elems v = take n (drop 12 (backing t)) /\
  len v = n.
Proof.
  intros H n.
  destruct (Nat.lt_ge_cases (cap t) 8) as [Hc|Hc].
  { rewrite parseTags_short_cap in H by exact Hc. discriminate. }
  assert (Hm : take 8 (backing t) = OPUS.opusTagsPrefix).
  { destruct (OGG.bytes_eqb (take 8 (backing t)) OPUS.opusTagsPrefix) eqn:E;
      [apply bytes_eqb_eq; exact E|].
    rewrite parseTags_bad_magic in H; [discriminate | exact Hc |].
    intros Heq. rewrite Heq, bytes_eqb_refl in E. discriminate. }
  destruct (parseTags_magic t Hc Hm) as [Hbad Hgood].
  destruct (decide (12 <= vendor_end t <= cap t)%nat) as [Hv|Hv];
    [|rewrite Hbad in H by lia; discriminate].
  rewrite (Hgood Hv) in H. injection H as <-.
  assert (Hn : vendor_end t = (12 + n)%nat).
  { unfold vendor_end, n in *.
    pose proof (le_uint_bound (take 4 (drop 8 (backing t)))) as Hb.
    assert (Hl : 256 ^ Z.of_nat (length (take 4 (drop 8 (backing t)))) <= 2 ^ 32).
    { change (2 ^ 32) with (256 ^ 4). apply Z.pow_le_mono_r; [lia|].
      rewrite length_take. lia. }
    set (x := le_uint (take 4 (drop 8 (backing t)))) in *.
    unfold wrap32 in *.
    destruct (Z_lt_ge_dec (12 + x) (2 ^ 32)) as [Hs|Hs].
    - rewrite Z.mod_small in * by lia. lia.
    - exfalso. destruct Hv as [Hv _].
      replace ((12 + x) mod 2 ^ 32) with (12 + x - 2 ^ 32) in Hv; [lia|].
      apply Z.mod_unique with (q := 1); lia. }
  split; [exact Hm|]. split; [lia|].
  rewrite Hn. replace (12 + n - 12)%nat with n by lia.
  split; [reflexivity|].
  unfold len. cbn [elems]. rewrite length_take, length_drop. unfold cap in Hv. lia.
Qed.

Lemma pulls_snoc g o ps o1 p o2 :
  pulls g o ps o1 -> OGG.NextPacket g o1 = (Ok p, o2) -> pulls g o (ps ++ [p]) o2.
Proof.
  induction 1 as [o | o q o' ps o1 Hn _ IH]; intros Hp; cbn.
  - eapply pulls_cons; [exact Hp | apply pulls_nil].
  - eapply pulls_cons; [exact Hn | auto].
Qed.

Lemma pulls_app g o ps o1 qs o2 :
  pulls g o ps o1 -> pulls g o1 qs o2 -> pulls g o (ps ++ qs) o2.
Proof.
  induction 1 as [o | o q o' ps o1 Hn _ IH]; intros Hq; cbn; [exact Hq|].
  eapply pulls_cons; [exact Hn | auto].
Qed.

(** The Ogg packets that a call of the Opus reader takes: the two
    header packets if the reader is not initialized, the packets it
    skips, and the one it returns. *)
Lemma opulled_packets g o r o' :
  opulled g o r o' -> forall pkt, r = Ok pkt ->
  exists hs qs,
    pulls g (OPUS.OGGReader o) (hs ++ qs ++ [OPUS.PacketData pkt]) (OPUS.OGGReader o') /\
    (OPUS.initialized o = true -> hs = []) /\
    (OPUS.initialized o = false ->
     exists h t u o1, hs = [h; t] /\ headers g o = (Ok u, o1) /\ headers_kept o1 o' /\
                      parseID h = Ok (OPUS.idheader o1) /\
                      parseTags t = Ok (OPUS.VendorName o1)) /\
    Forall (fun q => take 2 (backing q) = OPUS.Op) qs /\
    take 2 (backing (OPUS.PacketData pkt)) <> OPUS.Op.
Proof.
  induction 1 as [o r o' Hs | o o3 r o' Hs Hrest IH]; intros pkt' ->.
  - apply ostep_Ok in Hs
      as (u & o1 & data & og & pkt & prefix & _ & Hh & Hn & Hc & Hr & Hop & Ha).
    pose proof (account_frame pkt (latched og (OPUS.set_OGGReader og o1)))
      as (Hog & _ & _ & _ & Hdata & _).
    pose proof (account_kept pkt (latched og (OPUS.set_OGGReader og o1))) as Hk.
    rewrite Ha in Hog, Hdata, Hk. cbn [fst snd] in Hog, Hdata, Hk.
    destruct (latched_frame og (OPUS.set_OGGReader og o1)) as (_ & _ & _ & Hog2 & _).
    rewrite Hog2 in Hog. cbn [OPUS.OGGReader OPUS.set_OGGReader] in Hog.
    apply readPacketConfig_Ok in Hc as (Hd & _). rewrite Hd in Hdata.
    apply reslice_inv in Hr as [_ ->]. cbn [elems] in Hop.
    rewrite drop_0 in Hop. change (2 - 0)%nat with 2%nat in Hop.
    assert (Hnot : take 2 (backing (OPUS.PacketData pkt')) <> OPUS.Op).
    { rewrite Hdata. intros E. rewrite E, bytes_eqb_refl in Hop. discriminate. }
    assert (Hk' : headers_kept o1 o').
    { eapply headers_kept_trans; [apply latched_kept | exact Hk]. }
    destruct (OPUS.initialized o) eqn:Hi.
    + apply headers_facts in Hh as (_ & _ & _ & _ & Hok).
      destruct (Hok u eq_refl) as (_ & _ & Ho1). rewrite (Ho1 ltac:(first [exact Hi | reflexivity])) in Hn.
      exists [], []. cbn [app]. rewrite Hdata, Hog.
      split; [eapply pulls_cons; [exact Hn | apply pulls_nil]|].
      split; [reflexivity|]. split; [discriminate|]. split; [constructor | rewrite <- Hdata; exact Hnot].
    + destruct (headers_read _ _ _ _ Hh Hi) as (h & t & og1 & Hn1 & Hn2 & Hid & Htg & _).
      exists [h; t], []. cbn [app]. rewrite Hdata, Hog.
      split.
      { eapply pulls_cons; [exact Hn1|]. eapply pulls_cons; [exact Hn2|].
        eapply pulls_cons; [exact Hn | apply pulls_nil]. }
      split; [discriminate|]. split; [|split; [constructor | rewrite <- Hdata; exact Hnot]].
      intros _. exists h, t, u, o1. auto.
  - apply ostep_more in Hs
      as (u & o1 & data & og & pkt & prefix & _ & Hh & Hn & Hc & Hr & Hop & ->).
    destruct (latched_frame og (OPUS.set_OGGReader og o1)) as (_ & _ & Hi3 & Hog3 & _).
    cbn [OPUS.OGGReader OPUS.set_OGGReader OPUS.initialized] in Hi3, Hog3.
    pose proof (headers_facts _ _ _ _ Hh) as (_ & _ & _ & _ & Hok).
    destruct (Hok u eq_refl) as (Hi1 & _ & Ho1).
    rewrite Hi1 in Hi3.
    destruct (IH pkt' eq_refl) as (hs' & qs' & Hp & Hhs & _ & Hqs & Hnot).
    rewrite (Hhs Hi3) in Hp. cbn [app] in Hp. rewrite Hog3 in Hp.
    apply reslice_inv in Hr as [_ ->]. cbn [elems] in Hop.
    rewrite drop_0 in Hop. change (2 - 0)%nat with 2%nat in Hop.
    apply bytes_eqb_eq in Hop.
    pose proof (opulled_kept _ _ _ _ Hrest Hi3) as Hk3.
    assert (Hk' : headers_kept o1 o').
    { eapply headers_kept_trans; [apply latched_kept | exact Hk3]. }
    destruct (OPUS.initialized o) eqn:Hi.
    + rewrite (Ho1 ltac:(first [exact Hi | reflexivity])) in Hn.
      exists [], (data :: qs'). cbn [app].
      split; [eapply pulls_cons; [exact Hn | exact Hp]|].
      split; [reflexivity|]. split; [discriminate|]. split; [constructor; auto | exact Hnot].
    + destruct (headers_read _ _ _ _ Hh Hi) as (h & t & og1 & Hn1 & Hn2 & Hid & Htg & _).
      exists [h; t], (data :: qs'). cbn [app].
      split.
      { eapply pulls_cons; [exact Hn1|]. eapply pulls_cons; [exact Hn2|].
        eapply pulls_cons; [exact Hn | exact Hp]. }
      split; [discriminate|]. split; [|split; [constructor; auto | exact Hnot]].
      intros _. exists h, t, u, o1. auto.
Qed.

(** X10: the first call on a new reader, when it returns a packet, has
    taken the first two packets of the Ogg stream as the headers: the
    reader is
    initialized, the fields of its identification header are the bytes
    8 to 18 of the first packet (little-endian where they are wider
    than a byte), its capture pattern is left zero, and the vendor name
    is the string of the length given in bytes 8 to 11 of the second
    packet that follows them. *)
Theorem X10_headers_from_first_two_packets g s pkt o :
  OPUS.NextPacket g (OPUS.NewOpusReader s) = (Ok pkt, o) ->
  exists h t og,
    pulls g (OGG.NewOggReader s) [h; t] og /\
    OPUS.initialized o = true /\
    (19 <= len h)%nat /\
    take 8 (elems h) = OPUS.opusHeadPrefix /\
    elems h !! 8%nat = Some (OPUS.Version (OPUS.idheader o)) /\
    elems h !! 9%nat = Some (OPUS.ChannelCount (OPUS.idheader o)) /\
    OPUS.ChannelCount (OPUS.idheader o) <> x00 /\
    OPUS.PreSkip (OPUS.idheader o) = le_uint (take 2 (drop 10 (elems h))) /\
    OPUS.InputSampleRate (OPUS.idheader o) = le_uint (take 4 (drop 12 (elems h))) /\
    OPUS.OutputGain (OPUS.idheader o) = le_uint (take 2 (drop 16 (elems h))) /\
    elems h !! 18%nat = Some x00 /\
    OPUS.ChannelMappingFamily (OPUS.idheader o) = x00 /\
    OPUS.CapturePattern (OPUS.idheader o) = replicate 8 x00 /\
    take 8 (backing t) = OPUS.opusTagsPrefix /\
    let n := Z.to_nat (le_uint (take 4 (drop 8 (backing t)))) in
    (12 + n <= cap t)%nat /\
    elems (OPUS.VendorName o) = take n (drop 12 (backing t)) /\
    len (OPUS.VendorName o) = n.
Proof.
  intros Hn. apply O_NextPacket_pulled in Hn.
  destruct (opulled_packets _ _ _ _ Hn pkt eq_refl) as (hs & qs & Hp & _ & Hhs & _).
  destruct (Hhs eq_refl) as (h & t & u & o1 & -> & Hh & (Hk1 & Hk2 & Hk3) & Hid & Htg).
  inversion Hp as [|? ? og1 ? ? Hn1 Hp1]; subst.
  inversion Hp1 as [|? ? og2 ? ? Hn2 Hp2]; subst.
  exists h, t, og2.
  split; [eapply pulls_cons; [exact Hn1|]; eapply pulls_cons; [exact Hn2 | apply pulls_nil]|].
  apply headers_facts in Hh as (_ & _ & _ & _ & Hok).
  destruct (Hok u eq_refl) as (Hi1 & _).
  split; [rewrite Hk3; exact Hi1|].
  rewrite Hk1, Hk2.
  destruct (parseID_fields _ _ Hid) as (H1 & H2 & H3 & H4 & H5 & H6 & H7 & H8 & H9 & H10 & H11).
  pose proof (parseTags_fields _ _ Htg) as HT. cbv zeta in HT.
  destruct HT as (T1 & T2 & T3 & T4).
  repeat (split; [assumption|]). cbv zeta. auto.
Qed.

(** X12: the packet that a call of the Opus reader returns is a
    packet of the Ogg reader, reached by successive calls of its
    [NextPacket]: first the two header packets, if the reader was not
    initialized, then packets whose first two bytes (of the backing
    array) are [Op], which are dropped, and last the returned packet,
    which does not begin so. *)
Theorem X12_opus_packets_are_ogg_packets g o pkt o' :
  OPUS.NextPacket g o = (Ok pkt, o') ->
  exists hs qs,
    pulls g (OPUS.OGGReader o) (hs ++ qs ++ [OPUS.PacketData pkt]) (OPUS.OGGReader o') /\
    length hs = (if OPUS.initialized o then 0 else 2)%nat /\
    Forall (fun q => take 2 (backing q) = OPUS.Op) qs /\
    take 2 (backing (OPUS.PacketData pkt)) <> OPUS.Op.
Proof.
  intros Hn. apply O_NextPacket_pulled in Hn.
  destruct (opulled_packets _ _ _ _ Hn pkt eq_refl) as (hs & qs & Hp & Hi1 & Hi0 & Hq & Hnot).
  exists hs, qs. split; [exact Hp|]. split; [|auto].
  destruct (OPUS.initialized o).
  - rewrite (Hi1 eq_refl). reflexivity.
  - destruct (Hi0 eq_refl) as (h & t & _ & _ & -> & _). reflexivity.
Qed.

(** ** The samples skipped in all *)

Lemma run_skipped g o pkts o' :
  run g o pkts o' -> sane o ->
  0 <= sum_of raw_samples pkts /\ sane o' /\
  (pkts = [] -> OPUS.skipped o' = OPUS.skipped o) /\
  (pkts <> [] ->
   OPUS.skipped o' = Z.min (OPUS.PreSkip (OPUS.idheader o'))
                           (OPUS.skipped o + sum_of raw_samples pkts) /\
   sum_of (fun p => OPUS.TotalSamples (OPUS.config p)) pkts
   = sum_of raw_samples pkts - (OPUS.skipped o' - OPUS.skipped o)).
Proof.
  induction 1 as [o | o pkt o1 pkts o2 Hn Hrun IH | o r o1 pkts o2 Hn Hne _ IH];
    intros Hsane.
  - split; [cbn; lia|]. split; [exact Hsane|]. split; [reflexivity | congruence].
  - pose proof (pre_skip_step g o pkt o1 Hsane Hn) as Hstep. cbv zeta in Hstep.
    destruct Hstep as (Hpos & Hneg & _ & Hsane1 & Hini1 & _ & Hraw).
    destruct (IH Hsane1) as (HR & Hsane2 & Hnil & Hcons).
    destruct (run_kept _ _ _ _ Hrun Hini1) as (Hid & _).
    fold (raw_samples pkt) in Hpos, Hneg, Hraw.
    unfold sum_of in *. cbn [map foldr].
    set (R := foldr Z.add 0 (map raw_samples pkts)) in *.
    set (T := foldr Z.add 0 (map (fun p => OPUS.TotalSamples (OPUS.config p)) pkts)) in *.
    rewrite Hid in *.
    set (P := OPUS.PreSkip (OPUS.idheader o1)) in *.
    destruct Hsane as ((Hs0 & _) & _). destruct Hsane1 as ((Hs1 & Hs1') & _).
    fold P in Hs1'.
    assert (Hone : OPUS.skipped o1 = Z.min P (OPUS.skipped o + raw_samples pkt) /\
                   OPUS.TotalSamples (OPUS.config pkt)
                   = raw_samples pkt - (OPUS.skipped o1 - OPUS.skipped o)).
    { destruct (Z_lt_le_dec 0 (P - OPUS.skipped o)) as [Hc|Hc].
      - destruct (Hpos Hc) as [-> ->]. lia.
      - destruct (Hneg Hc) as [-> E]. rewrite E in *. lia. }
    destruct Hone as [Hsk1 Ht1].
    split; [lia|]. split; [exact Hsane2|]. split; [discriminate|]. intros _.
    destruct pkts as [|q pkts].
    + rewrite (Hnil eq_refl). subst R T. cbn. lia.
    + destruct (Hcons ltac:(discriminate)) as [Hsk2 Ht2]. lia.
  - apply O_NextPacket_pulled in Hn.
    destruct (opulled_fail _ _ _ _ Hn Hne) as [(_ & Hsk) Hs].
    destruct (IH (Hs Hsane)) as (HR & Hsane2 & Hnil & Hcons).
    rewrite Hsk in *. auto.
Qed.

(** X13: over the packets that the calls on a reader made by
    [NewOpusReader] have returned, the samples taken off for the
    pre-skip are the pre-skip of the stream or, if the packets hold
    less, all their samples: [skipped] is the smaller of the two, and
    the sample counts reported add up to the samples of the packets
    less [skipped]. *)
Theorem X13_pre_skip_in_all g s pkts o :
  run g (OPUS.NewOpusReader s) pkts o ->
  pkts <> [] ->
  OPUS.skipped o = Z.min (OPUS.PreSkip (OPUS.idheader o)) (sum_of raw_samples pkts) /\
  sum_of (fun p => OPUS.TotalSamples (OPUS.config p)) pkts
  = sum_of raw_samples pkts - OPUS.skipped o /\
  0 <= OPUS.skipped o <= 65535.
Proof.
  intros Hrun Hne.
  destruct (run_skipped _ _ _ _ Hrun (NewOpusReader_sane s))
    as (_ & ((Hs0 & Hs1) & Hp & _) & _ & Hcons).
  destruct (Hcons Hne) as [Hsk Ht]. cbn [OPUS.skipped OPUS.NewOpusReader] in Hsk, Ht.
  rewrite Z.add_0_l in Hsk. rewrite Z.sub_0_r in Ht.
  split; [exact Hsk|]. split; [exact Ht | lia].
Qed.

(** X2: the recursion of the Opus reader's [NextPacket] ends: every
    packet that is skipped has been taken from the Ogg reader, so a
    call returns a packet, an error or a panic, and its result does
    not depend on the bound on the depth of the recursion. *)
Theorem X2_opus_next_packet_terminates g o n :
  (OPUS.pending (OPUS.OGGReader o) < n)%nat ->
  OPUS.NextPacket_fuel g n o = OPUS.NextPacket g o /\
  fst (OPUS.NextPacket g o) <> OutOfFuel.
Proof.
  intros Hn. split; [apply O_NextPacket_fuel_stable; exact Hn|].
  destruct (OPUS.NextPacket g o) as [r o'] eqn:E. cbn. intros ->.
  eapply O_NextPacket_total; eauto.
Qed.

(** X1: the recursion of the Ogg reader's [NextPacket] ends: every
    call of the method by itself follows a page read, which takes at
    least the 27 bytes of a header off the stream, so a call returns a
    packet, an error or a panic, and its result does not depend on the
    bound on the depth of the recursion. *)
Theorem X1_ogg_next_packet_terminates g o n :
  (length (OGG.stream o) < n)%nat ->
  OGG.NextPacket_fuel g n o = OGG.NextPacket g o /\
  fst (OGG.NextPacket g o) <> OutOfFuel.
Proof.
  intros Hn. split; [apply NextPacket_fuel_stable; exact Hn|].
  destruct (OGG.NextPacket g o) as [r o'] eqn:E. cbn. intros ->.
  eapply NextPacket_total; eauto.
Qed.

(** ** The field [CurrentPacket] *)

Lemma headers_CurrentPacket g o r o1 :
  headers g o = (r, o1) -> OPUS.CurrentPacket o1 = OPUS.CurrentPacket o.
Proof.
  unfold headers. destruct (OPUS.initialized o); cbn [negb];
    [intros [= _ <-]; reflexivity|].
  rewrite readHeaders_eq, readIDHeader_eq.
  destruct (OGG.NextPacket g (OPUS.OGGReader o)) as [[h| | |] og1];
    try (intros [= _ <-]; reflexivity).
  destruct (parseID h) as [hd| | |]; try (intros [= _ <-]; reflexivity).
  rewrite readTags_eq.
  destruct (OGG.NextPacket g _) as [[t| | |] og2];
    try (intros [= _ <-]; reflexivity).
  destruct (parseTags t) as [v| | |]; intros [= _ <-]; reflexivity.
Qed.

Lemma account_CurrentPacket pkt o :
  OPUS.CurrentPacket (snd (OPUS.account pkt o)) = OPUS.CurrentPacket o.
Proof.
  unfold OPUS.account.
  destruct (0 <? OPUS.SamplesNumberPerFrame _); [|reflexivity].
  destruct (0 <? OPUS.FramesNumber _); [|reflexivity].
  destruct (0 <? int_sub _ _); reflexivity.
Qed.

Lemma ostep_CurrentPacket g o :
  match ostep g o with
  | inl (_, o') => OPUS.CurrentPacket o' = OPUS.CurrentPacket o
  | inr o3 => OPUS.CurrentPacket o3 = OPUS.CurrentPacket o
  end.
Proof.
  unfold ostep. fold (headers g o).
  destruct (OPUS.LastPacket o); [reflexivity|].
  destruct (headers g o) as [r1 o1] eqn:Hh.
  apply headers_CurrentPacket in Hh.
  destruct r1 as [u| | |]; try exact Hh.
  destruct (OGG.NextPacket g (OPUS.OGGReader o1)) as [[data| | |] og]; try exact Hh.
  destruct (OPUS.readPacketConfig _) as [pkt| | |]; try exact Hh.
  assert (Hl : OPUS.CurrentPacket
                 (if OGG.lastPacket og
                  then OPUS.set_LastPacket true (OPUS.set_OGGReader og o1)
                  else OPUS.set_OGGReader og o1) = OPUS.CurrentPacket o).
  { destruct (OGG.lastPacket og); exact Hh. }
  destruct (reslice data 0 2) as [prefix| | |]; try exact Hl.
  destruct (OGG.bytes_eqb _ _); [exact Hl|].
  match goal with |- context [OPUS.account ?p ?x] =>
    pose proof (account_CurrentPacket p x) as Ha; destruct (OPUS.account p x) end.
  cbn [snd] in Ha. congruence.
Qed.

Lemma opulled_CurrentPacket g o r o' :
  opulled g o r o' -> OPUS.CurrentPacket o' = OPUS.CurrentPacket o.
Proof.
  induction 1 as [o r o' Hs | o o3 r o' Hs _ IH];
    pose proof (ostep_CurrentPacket g o) as H; rewrite Hs in H; congruence.
Qed.

(** X16: the field [CurrentPacket] of the Opus reader is never
    assigned: for a reader made by [NewOpusReader] it is nil after any
    calls, whatever they return. *)
Theorem X16_current_packet_stays_nil g s pkts o :
  run g (OPUS.NewOpusReader s) pkts o -> OPUS.CurrentPacket o = None.
Proof.
  intros Hrun.
  assert (H : forall a b, run g a pkts b -> OPUS.CurrentPacket b = OPUS.CurrentPacket a).
  { clear. intros a b. induction 1 as [o | o pkt o1 pkts o2 Hn _ IH | o r o1 pkts o2 Hn _ _ IH].
    - reflexivity.
    - apply O_NextPacket_pulled, opulled_CurrentPacket in Hn. congruence.
    - apply O_NextPacket_pulled, opulled_CurrentPacket in Hn. congruence. }
  rewrite (H _ _ Hrun). reflexivity.
Qed.

Lemma X1_ogg_next_packet_terminates_witness :
  OGG.NextPacket_fuel g0 1000 (OGG.NewOggReader demo_stream2)
  = OGG.NextPacket g0 (OGG.NewOggReader demo_stream2).
Proof.
  refine (proj1 (X1_ogg_next_packet_terminates g0 (OGG.NewOggReader demo_stream2) 1000 _)).
  vm_compute. lia.
Defined.

Lemma X2_opus_next_packet_terminates_witness :
  OPUS.NextPacket_fuel g0 1000 (OPUS.NewOpusReader demo_opus)
  = OPUS.NextPacket g0 (OPUS.NewOpusReader demo_opus).
Proof.
  refine (proj1 (X2_opus_next_packet_terminates g0 (OPUS.NewOpusReader demo_opus) 1000 _)).
  vm_compute. lia.
Defined.

Lemma X3_bytes_read_are_counted_witness :
  exists r o' (c k : nat),
    OGG.NextPacket g0 (OGG.NewOggReader demo_stream2) = (r, o') /\
    OGG.stream o' = drop k demo_stream2 /\
    OGG.bytesReadSuccesfully o' = wrap64 (0 + Z.of_nat c).
Proof.
  destruct (OGG.NextPacket g0 (OGG.NewOggReader demo_stream2)) as [r o'] eqn:E.
  destruct (X3_bytes_read_are_counted g0 (OGG.NewOggReader demo_stream2) r o')
    as (c & k & _ & Hs & Hc & _); [cbn; lia | exact E |].
  exists r, o', c, k. split; [reflexivity|]. split; [exact Hs | exact Hc].
Defined.


Lemma X5_no_resume_after_first_page_witness :
  exists o e o',
    OGG.NextPacket g0 o = (Err e, o') /\
    OGG.NextPacket g0 o' = (Panic index_out_of_range, o').
Proof.
  destruct (OGG.NextPacket g0 (OGG.NewOggReader demo_stream2)) as [r1 o1] eqn:E1.
  assert (Ho1 : o1 = snd (OGG.NextPacket g0 (OGG.NewOggReader demo_stream2)))
    by (rewrite E1; reflexivity).
  destruct (OGG.NextPacket g0 o1) as [r2 o2] eqn:E2.
  assert (Ho2 : o2 = snd (OGG.NextPacket g0 o1)) by (rewrite E2; reflexivity).
  destruct (OGG.NextPacket g0 o2) as [r3 o3] eqn:E3.
  assert (Hr3 : r3 = Err io_EOF).
  { apply (f_equal fst) in E3. rewrite Ho2, Ho1 in E3. vm_compute in E3.
    symmetry. exact E3. }
  subst r3.
  assert (Hi2 : OGG.initialized o2 = true).
  { rewrite Ho2, Ho1. vm_compute. reflexivity. }
  exists o2, io_EOF, o3. split; [exact E3|].
  exact (proj1 (X5_no_resume_after_first_page g0 o2 io_EOF o3 E3 (or_introl Hi2))).
Defined.

Lemma X6_resume_before_first_page_witness :
  exists e o',
    OGG.NextPacket g0 (OGG.NewOggReader []) = (Err e, o') /\
    OGG.initialized o' = false.
Proof.
  destruct (X6_resume_before_first_page g0 (OGG.NewOggReader []) eq_refl eq_refl)
    as (e & o' & Hn & Hi & _).
  exists e, o'. split; [exact Hn | exact Hi].
Defined.

Lemma X7_first_page_errors_witness :
  fst (OGG.NextPacket g0 (OGG.NewOggReader [])) = Err io_EOF.
Proof.
  exact (proj1 (X7_first_page_errors g0 (OGG.NewOggReader []) eq_refl) eq_refl).
Defined.

Lemma X9_one_byte_packet_panics_witness :
  let o := demo_calls 1 (OPUS.NewOpusReader demo_one_byte) in
  fst (OPUS.NextPacket g0 o) = Panic slice_bounds_out_of_range.
Proof.
  intros o.
  destruct (OGG.NextPacket g0 (OPUS.OGGReader o)) as [r og] eqn:E.
  assert (Hr : r = Ok (Slice [x78]%byte [])).
  { apply (f_equal fst) in E. vm_compute in E. symmetry. exact E. }
  subst r.
  refine (proj1 (X9_one_byte_packet_panics g0 o tt o x78 og _ _ E _)).
  - vm_compute. reflexivity.
  - vm_compute. reflexivity.
  - vm_compute. discriminate.
Defined.

Lemma X10_headers_from_first_two_packets_witness :
  exists pkt o,
    OPUS.NextPacket g0 (OPUS.NewOpusReader demo_opus) = (Ok pkt, o) /\
    OPUS.initialized o = true.
Proof.
  destruct (OPUS.NextPacket g0 (OPUS.NewOpusReader demo_opus)) as [r o] eqn:E.
  assert (Hr : exists pkt, r = Ok pkt).
  { apply (f_equal fst) in E. vm_compute in E. eexists. symmetry. exact E. }
  destruct Hr as [pkt ->]. exists pkt, o. split; [reflexivity|].
  destruct (X10_headers_from_first_two_packets g0 demo_opus pkt o E)
    as (h & t & og & _ & Hi & _).
  exact Hi.
Defined.

Lemma X11_headers_are_read_once_witness :
  exists o1 o2,
    OPUS.initialized o1 = true /\
    OPUS.idheader o2 = OPUS.idheader o1 /\ OPUS.VendorName o2 = OPUS.VendorName o1.
Proof.
  destruct (OPUS.NextPacket g0 (OPUS.NewOpusReader demo_opus)) as [r1 o1] eqn:E1.
  assert (Ho1 : o1 = snd (OPUS.NextPacket g0 (OPUS.NewOpusReader demo_opus)))
    by (rewrite E1; reflexivity).
  destruct (OPUS.NextPacket g0 o1) as [r2 o2] eqn:E2.
  assert (Hr2 : exists pkt, r2 = Ok pkt).
  { apply (f_equal fst) in E2. rewrite Ho1 in E2. vm_compute in E2.
    eexists. symmetry. exact E2. }
  destruct Hr2 as [pkt ->].
  assert (Hi1 : OPUS.initialized o1 = true) by (rewrite Ho1; vm_compute; reflexivity).
  exists o1, o2. split; [exact Hi1|].
  destruct (X11_headers_are_read_once g0 o1 [pkt] o2
              (run_packet _ _ _ _ _ _ E2 (run_nil _ _)) Hi1) as (H1 & H2 & _).
  split; assumption.
Defined.

Lemma X12_opus_packets_are_ogg_packets_witness :
  exists pkt o hs qs,
    OPUS.NextPacket g0 (OPUS.NewOpusReader demo_opus) = (Ok pkt, o) /\
    pulls g0 (OGG.NewOggReader demo_opus) (hs ++ qs ++ [OPUS.PacketData pkt])
          (OPUS.OGGReader o) /\
    length hs = 2%nat.
Proof.
  destruct (OPUS.NextPacket g0 (OPUS.NewOpusReader demo_opus)) as [r o] eqn:E.
  assert (Hr : exists pkt, r = Ok pkt).
  { apply (f_equal fst) in E. vm_compute in E. eexists. symmetry. exact E. }
  destruct Hr as [pkt ->].
  destruct (X12_opus_packets_are_ogg_packets g0 _ pkt o E) as (hs & qs & Hp & Hl & _).
  exists pkt, o, hs, qs. split; [reflexivity|]. split; [exact Hp | exact Hl].
Defined.

Lemma X13_pre_skip_in_all_witness :
  exists pkt o,
    OPUS.NextPacket g0 (OPUS.NewOpusReader demo_opus) = (Ok pkt, o) /\
    OPUS.skipped o
    = Z.min (OPUS.PreSkip (OPUS.idheader o)) (sum_of raw_samples [pkt]).
Proof.
  destruct (OPUS.NextPacket g0 (OPUS.NewOpusReader demo_opus)) as [r o] eqn:E.
  assert (Hr : exists pkt, r = Ok pkt).
  { apply (f_equal fst) in E. vm_compute in E. eexists. symmetry. exact E. }
  destruct Hr as [pkt ->]. exists pkt, o. split; [reflexivity|].
  refine (proj1 (X13_pre_skip_in_all g0 demo_opus [pkt] o
                   (run_packet _ _ _ _ _ _ E (run_nil _ _)) _)).
  discriminate.
Defined.

Lemma X14_every_packet_is_delivered_witness :
  exists p o, OGG.NextPacket g0 (OGG.NewOggReader demo_stream2) = (Ok p, o).
Proof.
  refine (proj1 (X14_every_packet_is_delivered g0 demo_stream2 [] _ (pulls_nil _ _) _ _) _).
  - unfold no_empty_page. vm_compute. repeat constructor; discriminate.
  - unfold starts_clean. vm_compute. discriminate.
  - vm_compute. lia.
Defined.

Lemma X15_continued_first_page_without_end_witness :
  fst (OGG.NextPacket g0 (OGG.NewOggReader demo_orphan)) = Panic index_out_of_range.
Proof.
  refine (X15_continued_first_page_without_end g0 (OGG.NewOggReader demo_orphan)
            (Spec.mkPage (take 27 demo_orphan) [xff]%byte (replicate 255 x07)) [] _ _ _ _ _).
  - reflexivity.
  - vm_compute. reflexivity.
  - discriminate.
  - vm_compute. reflexivity.
  - repeat constructor.
Defined.

Lemma X16_current_packet_stays_nil_witness :
  exists pkt o,
    OPUS.NextPacket g0 (OPUS.NewOpusReader demo_opus) = (Ok pkt, o) /\
    OPUS.CurrentPacket o = None.
Proof.
  destruct (OPUS.NextPacket g0 (OPUS.NewOpusReader demo_opus)) as [r o] eqn:E.
  assert (Hr : exists pkt, r = Ok pkt).
  { apply (f_equal fst) in E. vm_compute in E. eexists. symmetry. exact E. }
  destruct Hr as [pkt ->]. exists pkt, o. split; [reflexivity|].
  exact (X16_current_packet_stays_nil g0 demo_opus [pkt] o
           (run_packet _ _ _ _ _ _ E (run_nil _ _))).
Defined.

(** X17: when the packet that sets the latch of the Ogg reader (the
    last complete packet of a page flagged end of stream) begins with
    [Op], it is skipped, and the call that took it, after the headers
    it has or reads itself, finds [LastPacket] set when it calls
    itself: that call returns the EOS error. *)
Theorem X17_trailing_Op_packet_ends_stream g o u o1 data og :
  OPUS.LastPacket o = false ->
  headers g o = (Ok u, o1) ->
  OGG.NextPacket g (OPUS.OGGReader o1) = (Ok data, og) ->
  (exists tl, elems data = "O"%byte :: "p"%byte :: tl) ->
  OGG.lastPacket og = true ->
  OPUS.NextPacket g o
  = (Err (errors_New "opusreader: EOS"),
     OPUS.set_LastPacket true (OPUS.set_OGGReader og o1)).
Proof.
  intros Hl Hh Hn Hop Hlast.
  assert (Hstep : ostep g o = inr (OPUS.set_LastPacket true (OPUS.set_OGGReader og o1))).
  { unfold ostep. fold (headers g o). rewrite Hl, Hh, Hn.
    destruct (readPacketConfig_Op data Hop) as [pkt ->].
    destruct (reslice_Op data Hop) as [prefix Hr]. rewrite Hr.
    rewrite (reslice_prefix_Op _ _ Hr Hop), Hlast. reflexivity. }
  rewrite O_NextPacket_step, Hstep. apply O_NextPacket_EOS. reflexivity.
Qed.

Lemma X17_trailing_Op_packet_ends_stream_witness :
  let o := demo_calls 1 (OPUS.NewOpusReader demo_trailing_Op) in
  fst (OPUS.NextPacket g0 o) = Err (errors_New "opusreader: EOS").
Proof.
  intros o.
  destruct (OGG.NextPacket g0 (OPUS.OGGReader o)) as [r og] eqn:E.
  assert (Hr : r = Ok (Slice ["O"; "p"; x00]%byte [])).
  { apply (f_equal fst) in E. vm_compute in E. symmetry. exact E. }
  subst r.
  assert (Hlast : OGG.lastPacket og = true).
  { apply (f_equal snd) in E. cbn [snd] in E. rewrite <- E. vm_compute. reflexivity. }
  assert (Hh : headers g0 o = (Ok tt, o)) by (vm_compute; reflexivity).
  assert (Hl : OPUS.LastPacket o = false) by (vm_compute; reflexivity).
  rewrite (X17_trailing_Op_packet_ends_stream g0 o tt o _ og Hl Hh E
             (ex_intro _ [x00]%byte eq_refl) Hlast).
  reflexivity.
Defined.

(** ** The payloads and the stream *)

Lemma filter_all_Op qs :
  Forall (fun q => take 2 (backing q) = OPUS.Op) qs -> List.filter not_Op qs = [].
Proof.
  induction 1 as [|q qs Hq _ IH]; [reflexivity|].
  cbn [List.filter]. unfold not_Op at 1. rewrite Hq, bytes_eqb_refl. exact IH.
Qed.

Lemma filter_call qs data rest :
  Forall (fun q => take 2 (backing q) = OPUS.Op) qs ->
  take 2 (backing data) <> OPUS.Op ->
  List.filter not_Op (qs ++ [data] ++ rest) = data :: List.filter not_Op rest.
Proof.
  intros Hq Hd. rewrite List.filter_app, (filter_all_Op _ Hq). cbn [app List.filter].
  unfold not_Op at 1. rewrite (bytes_eqb_neq _ _ Hd). reflexivity.
Qed.

Lemma served_pulls g o pkts o' :
  served g o pkts o' -> OPUS.initialized o = true ->
  exists qs,
    pulls g (OPUS.OGGReader o) qs (OPUS.OGGReader o') /\
    map OPUS.PacketData pkts = List.filter not_Op qs.
Proof.
  induction 1 as [o | o pkt o1 pkts o2 Hn _ IH]; intros Hi.
  - exists []. split; [apply pulls_nil | reflexivity].
  - apply O_NextPacket_pulled in Hn.
    destruct (opulled_packets _ _ _ _ Hn pkt eq_refl) as (hs & qs & Hp & Hhs & _ & Hq & Hd).
    rewrite (Hhs Hi) in Hp. cbn [app] in Hp.
    destruct (opulled_kept _ _ _ _ Hn Hi) as (_ & _ & Hi1). rewrite Hi in Hi1.
    destruct (IH Hi1) as (rest & Hrest & Hmap).
    exists ((qs ++ [OPUS.PacketData pkt]) ++ rest).
    split; [eapply pulls_app; eauto|].
    rewrite <- app_assoc, (filter_call _ _ _ Hq Hd). cbn [map]. rewrite Hmap. reflexivity.
Qed.

(** X18: the payloads of the packets that successive calls on a reader
    made by [NewOpusReader] return are, in the order of the stream,
    the packets of the Ogg stream after the first two that do not begin
    with [Op]; each packet taken from the Ogg reader, the headers
    included, is the concatenation of its segments in the stream. *)
Theorem X18_payloads_in_stream_order g s pkts o :
  served g (OPUS.NewOpusReader s) pkts o ->
  pkts <> [] ->
  exists h t qs,
    pulls g (OGG.NewOggReader s) (h :: t :: qs) (OPUS.OGGReader o) /\
    map OPUS.PacketData pkts = List.filter not_Op qs /\
    Forall2 (fun p grp =>
               elems p = concat (map snd grp) /\
               len p = sum_list_with (fun sg => Spec.seg_size (fst sg)) grp)
            (h :: t :: qs) (take (2 + length qs) (Spec.packets_of s)).
Proof.
  intros Hs Hne. inversion Hs as [|o0 pkt o1 pkts' o2 Hn Hrest]; subst; [congruence|].
  apply O_NextPacket_pulled in Hn.
  destruct (opulled_packets _ _ _ _ Hn pkt eq_refl) as (hs & qs & Hp & _ & Hhs & Hq & Hd).
  destruct (Hhs eq_refl) as (h & t & u & o' & -> & Hh & (_ & _ & Hk) & _).
  apply headers_facts in Hh as (_ & _ & _ & _ & Hok).
  destruct (Hok u eq_refl) as (Hi' & _). rewrite Hi' in Hk.
  destruct (served_pulls _ _ _ _ Hrest Hk) as (rest & Hpr & Hmap).
  exists h, t, ((qs ++ [OPUS.PacketData pkt]) ++ rest).
  assert (Hall : pulls g (OGG.NewOggReader s)
                   (h :: t :: (qs ++ [OPUS.PacketData pkt]) ++ rest) (OPUS.OGGReader o)).
  { change (h :: t :: (qs ++ [OPUS.PacketData pkt]) ++ rest)
      with (([h; t] ++ qs ++ [OPUS.PacketData pkt]) ++ rest).
    eapply pulls_app; eauto. }
  split; [exact Hall|]. split.
  - rewrite <- app_assoc, (filter_call _ _ _ Hq Hd). cbn [map]. rewrite Hmap. reflexivity.
  - eapply pulls_view in Hall as [Hall _]; [exact Hall | reflexivity | apply packets_of_ok].
Qed.

Lemma X18_payloads_in_stream_order_witness :
  exists pkt o h t qs,
    OPUS.NextPacket g0 (OPUS.NewOpusReader demo_opus) = (Ok pkt, o) /\
    pulls g0 (OGG.NewOggReader demo_opus) (h :: t :: qs) (OPUS.OGGReader o) /\
    [OPUS.PacketData pkt] = List.filter not_Op qs.
Proof.
  destruct (OPUS.NextPacket g0 (OPUS.NewOpusReader demo_opus)) as [r o] eqn:E.
  assert (Hr : exists pkt, r = Ok pkt).
  { apply (f_equal fst) in E. vm_compute in E. eexists. symmetry. exact E. }
  destruct Hr as [pkt ->].
  destruct (X18_payloads_in_stream_order g0 demo_opus [pkt] o
              (served_cons _ _ _ _ _ _ E (served_nil _ _)) ltac:(discriminate))
    as (h & t & qs & Hp & Hm & _).
  exists pkt, o, h, t, qs. split; [reflexivity|]. split; [exact Hp | exact Hm].
Defined.

(** ** The header fields that are not looked at *)

Lemma parse_page_header hd rest :
  length hd = 27%nat ->
  Spec.parse_page (hd ++ rest) =
  if OGG.bytes_eqb (take 4 hd) OGG.capturePattern && (byte_to_Z (nth 4 hd x00) =? 0)
  then
    let n := Spec.seg_size (nth 26 hd x00) in
    if (length rest <? n)%nat then None
    else
      let t := take n rest in
      if (length (drop n rest) <? Spec.body_size t)%nat then None
      else Some (Spec.mkPage hd t (take (Spec.body_size t) (drop n rest)),
                 drop (Spec.body_size t) (drop n rest))
  else None.
Proof.
  intros Hl. unfold Spec.parse_page.
  destruct (Nat.ltb_spec (length (hd ++ rest)) 27) as [H|_];
    [rewrite length_app in H; lia|].
  rewrite take_app_length' by (symmetry; exact Hl).
  rewrite drop_app_length' by (symmetry; exact Hl). reflexivity.
Qed.

Lemma nth_of_drop {A} (l : list A) (d : A) : forall k i,
  nth i (drop k l) d = nth (k + i) l d.
Proof.
  induction l as [|x l IH]; intros k i.
  - rewrite drop_nil. destruct i, k; reflexivity.
  - destruct k; [reflexivity|]. cbn. apply IH.
Qed.

Lemma same_but_check_fields hd hd' :
  same_but_check hd hd' ->
  take 4 hd' = take 4 hd /\ nth 4 hd' x00 = nth 4 hd x00 /\
  nth 5 hd' x00 = nth 5 hd x00 /\ nth 26 hd' x00 = nth 26 hd x00.
Proof.
  intros (Hl & Hl' & Ht & Hd).
  split; [|split; [|split]].
  - assert (E : forall l : list byte, take 4 l = take 4 (take 14 l))
      by (intros l; rewrite take_take; reflexivity).
    rewrite (E hd'), (E hd), Ht. reflexivity.
  - rewrite <- (nth_take_lt hd' x00 4 14), <- (nth_take_lt hd x00 4 14), Ht by lia.
    reflexivity.
  - rewrite <- (nth_take_lt hd' x00 5 14), <- (nth_take_lt hd x00 5 14), Ht by lia.
    reflexivity.
  - pose proof (nth_of_drop hd' x00 26 0) as H1.
    pose proof (nth_of_drop hd x00 26 0) as H2.
    rewrite Nat.add_0_r in H1, H2. rewrite <- H1, <- H2, Hd. reflexivity.
Qed.

Lemma same_but_check_sym hd hd' : same_but_check hd hd' -> same_but_check hd' hd.
Proof. intros (A & B & C & D). repeat split; auto. Qed.

Lemma parse_page_check hd hd' x :
  same_but_check hd hd' ->
  Spec.parse_page (hd' ++ x) =
  match Spec.parse_page (hd ++ x) with
  | Some (sp, r) => Some (Spec.mkPage hd' (Spec.table sp) (Spec.body sp), r)
  | None => None
  end.
Proof.
  intros Hs. destruct (same_but_check_fields _ _ Hs) as (H4 & Hv & _ & Hn).
  destruct Hs as (Hl & Hl' & _).
  rewrite (parse_page_header hd x Hl), (parse_page_header hd' x Hl'), H4, Hv, Hn.
  cbv zeta.
  destruct (_ && _); [|reflexivity].
  destruct (_ <? _)%nat; [reflexivity|].
  destruct (_ <? _)%nat; reflexivity.
Qed.

Lemma parse_page_hdr hd x sp r :
  length hd = 27%nat -> Spec.parse_page (hd ++ x) = Some (sp, r) -> Spec.hdr sp = hd.
Proof.
  intros Hl. rewrite (parse_page_header hd x Hl). cbv zeta.
  destruct (_ && _); [|discriminate].
  destruct (_ <? _)%nat; [discriminate|].
  destruct (_ <? _)%nat; [discriminate|].
  intros [= <- _]. reflexivity.
Qed.

Lemma parse_page_more hd tb sp x :
  length hd = 27%nat ->
  Spec.parse_page (hd ++ tb) = Some (sp, []) ->
  Spec.parse_page (hd ++ tb ++ x) = Some (sp, x).
Proof.
  intros Hl. rewrite (parse_page_header hd tb Hl), (parse_page_header hd (tb ++ x) Hl).
  cbv zeta. destruct (_ && _); [|discriminate].
  set (n := Spec.seg_size (nth 26 hd x00)).
  destruct (Nat.ltb_spec (length tb) n) as [|Hn]; [discriminate|].
  destruct (Nat.ltb_spec (length (drop n tb)) (Spec.body_size (take n tb))) as [|Hb];
    [discriminate|].
  intros [= <- Hd].
  destruct (Nat.ltb_spec (length (tb ++ x)) n) as [H|_];
    [rewrite length_app in H; lia|].
  rewrite take_app_le, drop_app_le by lia.
  destruct (Nat.ltb_spec (length (drop n tb ++ x)) (Spec.body_size (take n tb))) as [H|_];
    [rewrite length_app in H; lia|].
  rewrite take_app_le, drop_app_le, Hd by lia. reflexivity.
Qed.

Lemma twin_parse s s' :
  twin s s' ->
  match Spec.parse_page s with
  | Some (sp, r) =>
      exists hd' r',
        Spec.parse_page s' = Some (Spec.mkPage hd' (Spec.table sp) (Spec.body sp), r') /\
        nth 5 hd' x00 = nth 5 (Spec.hdr sp) x00 /\ twin r r'
  | None => Spec.parse_page s' = None
  end.
Proof.
  intros [s0 | hd hd' rest Hs | hd hd' tb sp rest rest' Hs Hp Ht].
  - destruct (Spec.parse_page s0) as [[sp r]|]; [|reflexivity].
    exists (Spec.hdr sp), r. destruct sp. repeat split. apply twin_same.
  - rewrite (parse_page_check hd hd' rest Hs).
    destruct (same_but_check_fields _ _ Hs) as (_ & _ & Hf & _).
    destruct (Spec.parse_page (hd ++ rest)) as [[sp r]|] eqn:E; [|reflexivity].
    exists hd', r. split; [reflexivity|].
    rewrite (parse_page_hdr hd rest sp r (proj1 Hs) E). split; [exact Hf | apply twin_same].
  - destruct (same_but_check_fields _ _ Hs) as (_ & _ & Hf & _).
    rewrite (parse_page_more hd tb sp rest (proj1 Hs) Hp).
    exists hd', rest'.
    pose proof (parse_page_check hd hd' tb Hs) as E. rewrite Hp in E.
    rewrite (parse_page_more hd' tb _ rest' (proj1 (proj2 Hs)) E).
    split; [reflexivity|]. split; [|exact Ht].
    rewrite <- (app_nil_r tb) in Hp at 1.
    rewrite app_nil_r in Hp.
    rewrite (parse_page_hdr hd tb sp [] (proj1 Hs) Hp). exact Hf.
Qed.

Lemma twin_sym s s' : twin s s' -> twin s' s.
Proof.
  induction 1 as [s | hd hd' rest Hs | hd hd' tb sp rest rest' Hs Hp Ht IH].
  - apply twin_same.
  - apply twin_head, same_but_check_sym, Hs.
  - pose proof (parse_page_check hd hd' tb Hs) as E. rewrite Hp in E.
    eapply twin_page; [apply same_but_check_sym, Hs | exact E | exact IH].
Qed.

Lemma readPage_twin o o' u o1 :
  twin (OGG.stream o) (OGG.stream o') ->
  OGG.readPage o = (Ok u, o1) ->
  exists o1' pg pg',
    OGG.readPage o' = (Ok tt, o1') /\
    twin (OGG.stream o1) (OGG.stream o1') /\
    OGG.CurrentPage o1 = Some pg /\ OGG.CurrentPage o1' = Some pg' /\
    alike pg pg' /\ OGG.isContinued pg' = OGG.isContinued pg.
Proof.
  intros Ht H. destruct (readPage_Ok _ _ _ H) as (sp & pg & Hp & Hne & Hpg & Hm).
  pose proof (twin_parse _ _ Ht) as Htp. rewrite Hp in Htp.
  destruct Htp as (hd' & r' & Hp' & H5 & Htw).
  destruct (readPage_parsed o' _ _ Hp' Hne) as [o1' H'].
  destruct (readPage_Ok _ _ _ H') as (sp2 & pg' & Hp2 & _ & Hpg' & Hm').
  rewrite Hp' in Hp2. injection Hp2 as E1 E2. subst sp2.
  exists o1', pg, pg'. split; [exact H'|]. split; [rewrite <- E2; exact Htw|].
  split; [exact Hpg|]. split; [exact Hpg'|].
  split.
  - destruct Hm as (_ & Hc & He & _). destruct Hm' as (_ & Hc' & He' & _).
    unfold Spec.page_segments in *. cbn [Spec.table Spec.body] in *.
    split; congruence.
  - rewrite (isContinued_matches _ _ Hm), (isContinued_matches _ _ Hm').
    unfold Spec.continued. cbn [Spec.hdr]. rewrite H5. reflexivity.
Qed.

Lemma first_page_twin o o' u o1 :
  sim o o' -> OGG.first_page o = (Ok u, o1) ->
  exists o1', OGG.first_page o' = (Ok tt, o1') /\ sim o1 o1' /\ OGG.initialized o1 = true.
Proof.
  intros (Ht & Hi & Hx & Hpg) H.
  destruct (first_page_Ok _ _ _ H) as [[Hini ->] | (Hini & u' & o0 & pg & Hr & Hcp & ->)].
  - exists o'. split; [rewrite first_page_eq, Hi, Hini; reflexivity|].
    split; [repeat split; auto | exact Hini].
  - destruct (readPage_twin _ _ _ _ Ht Hr) as (o0' & pg0 & pg' & Hr' & Htw & Hcp0 & Hcp' & Hal & Hco).
    rewrite Hcp in Hcp0. injection Hcp0 as <-.
    eexists. split; [rewrite first_page_eq, Hi, Hini, Hr', Hcp'; reflexivity|].
    split; [|destruct o0; reflexivity].
    unfold sim. destruct o0, o0'; cbn in *. rewrite Hco. repeat split; eauto.
Qed.

Lemma sim_latch o o' (b b' : bool) :
  sim o o' ->
  sim (if b then OGG.set_lastPacket true o else o)
      (if b' then OGG.set_lastPacket true o' else o').
Proof. destruct b, b', o, o'; exact (fun H => H). Qed.

Lemma alike_lookup pg pg' i p :
  alike pg pg' -> OGG.packets pg !! i = Some p ->
  exists p', OGG.packets pg' !! i = Some p' /\ elems p' = elems p.
Proof.
  intros [_ He] Hp.
  assert (H : map elems (OGG.packets pg') !! i = Some (elems p))
    by (rewrite He, list_lookup_fmap, Hp; reflexivity).
  rewrite list_lookup_fmap in H.
  destruct (OGG.packets pg' !! i) as [p'|]; [|discriminate].
  injection H as H. eauto.
Qed.

Lemma step_twin_Ok g o o' p o1 :
  sim o o' -> step g o = inl (Ok p, o1) ->
  exists p' o1', step g o' = inl (Ok p', o1') /\ elems p' = elems p /\ sim o1 o1'.
Proof.
  intros Hs H.
  destruct (step_Ok _ _ _ _ H) as (u & oa & pg & Hf & Hcp & Hne & Hp & ->).
  destruct (first_page_twin _ _ _ _ Hs Hf) as (oa' & Hf' & (Ht & Hi & Hx & Hpg) & Hini).
  destruct (Hpg Hini) as (pg0 & pg' & Hcp0 & Hcp' & Hal).
  rewrite Hcp in Hcp0. injection Hcp0 as <-.
  destruct (alike_lookup _ _ _ _ Hal Hp) as (p' & Hp' & He).
  exists p'. eexists. unfold step. rewrite Hf', Hcp', Hx, (proj1 Hal).
  destruct (Nat.eqb_spec (OGG.packetIndex oa) (OGG.packetsCount pg)) as [|_]; [contradiction|].
  rewrite Hp'. split; [reflexivity|]. split; [exact He|].
  unfold arm. apply sim_latch.
  destruct oa, oa'; cbn in *. repeat split; auto.
Qed.

Lemma carry_twin g rest rest' o2 o2' u o3 :
  elems rest' = elems rest ->
  sim o2 o2' -> OGG.initialized o2 = true ->
  carry g rest o2 = (Ok u, o3) ->
  exists o3', carry g rest' o2' = (Ok tt, o3') /\ sim o3 o3'.
Proof.
  intros He (Ht & Hi & Hx & Hpg) Hini. destruct (Hpg Hini) as (pg & pg' & Hcp & Hcp' & Hal).
  unfold carry, len. rewrite He, Hcp, Hcp'.
  destruct (0 <? length (elems rest))%nat.
  - destruct (OGG.packets pg !! 0%nat) as [p0|] eqn:Hp0; [|discriminate].
    destruct (alike_lookup _ _ _ _ Hal Hp0) as (p0' & Hp0' & He0). rewrite Hp0'.
    intros [= <- <-]. eexists. split; [reflexivity|].
    destruct o2, o2'; cbn in *. repeat split; auto.
    intros _. eexists _, _. split; [reflexivity|]. split; [reflexivity|].
    destruct Hal as [Hc Hm]. split; [exact Hc|]. cbn.
    etransitivity; [apply (list_fmap_insert elems)|].
    symmetry. etransitivity; [apply (list_fmap_insert elems)|].
    rewrite !elems_append, He, He0. f_equal. symmetry. exact Hm.
  - intros [= <- <-]. exists o2'. split; [reflexivity|]. repeat split; auto.
Qed.

Lemma step_twin_more g o o' o4 :
  sim o o' -> step g o = inr o4 ->
  exists o4', step g o' = inr o4' /\ sim o4 o4'.
Proof.
  intros Hs H.
  destruct (step_more _ _ _ H)
    as (u & oa & pg & rest & u2 & o2 & u3 & o3 & Hf & Hcp & Heq & Hrest & Hr & Hc & ->).
  destruct (first_page_twin _ _ _ _ Hs Hf) as (oa' & Hf' & (Ht & Hi & Hx & Hpg) & Hini).
  destruct (Hpg Hini) as (pg0 & pg' & Hcp0 & Hcp' & Hal).
  rewrite Hcp in Hcp0. injection Hcp0 as <-.
  destruct (alike_lookup _ _ _ _ Hal Hrest) as (rest' & Hrest' & He).
  assert (Htn : twin (OGG.stream (note_granule pg oa)) (OGG.stream (note_granule pg' oa')))
    by (rewrite !note_granule_stream; exact Ht).
  destruct (readPage_twin _ _ _ _ Htn Hr)
    as (o2' & pg2 & pg2' & Hr' & Htw & Hcp2 & Hcp2' & Hal2 & _).
  pose proof (readPage_cursor _ _ _ Hr) as (Hi2 & _ & Hx2 & _).
  pose proof (readPage_cursor _ _ _ Hr') as (Hi2' & _ & Hx2' & _).
  rewrite note_granule_initialized in Hi2, Hi2'.
  assert (Hs2 : sim o2 o2').
  { split; [exact Htw|]. split; [congruence|]. split.
    - rewrite Hx2, Hx2'. unfold note_granule.
      destruct (negb _), (negb _); destruct oa, oa'; cbn in *; congruence.
    - intros _. eauto. }
  destruct (carry_twin g rest rest' o2 o2' u3 o3 He Hs2 ltac:(congruence) Hc)
    as (o3' & Hc' & Hs3).
  eexists. unfold step. rewrite Hf', Hcp', Hx, (proj1 Hal), Heq, Nat.eqb_refl, Hrest', Hr', Hc'.
  split; [reflexivity|].
  destruct Hs3 as (A & B & C & D). destruct o3, o3'; cbn in *. repeat split; auto.
Qed.

Lemma pulled_twin g o r o1 :
  pulled g o r o1 ->
  forall p o', r = Ok p -> sim o o' ->
  exists p' o1', OGG.NextPacket g o' = (Ok p', o1') /\ elems p' = elems p /\ sim o1 o1'.
Proof.
  induction 1 as [o r o1 H | o o3 r o1 H _ IH]; intros p o' -> Hs.
  - destruct (step_twin_Ok _ _ _ _ _ Hs H) as (p' & o1' & H' & He & Hs').
    exists p', o1'. rewrite NextPacket_step, H'. auto.
  - destruct (step_twin_more _ _ _ _ Hs H) as (o3' & H' & Hs').
    destruct (IH p o3' eq_refl Hs') as (p' & o1' & Hn & He & Hs1).
    exists p', o1'. rewrite NextPacket_step, H'. auto.
Qed.

Lemma pulls_twin g o ps o1 :
  pulls g o ps o1 ->
  forall o', sim o o' ->
  exists ps' o1', pulls g o' ps' o1' /\ map elems ps' = map elems ps /\ sim o1 o1'.
Proof.
  induction 1 as [o | o p oa ps o1 Hn _ IH]; intros o' Hs.
  - exists [], o'. split; [apply pulls_nil | auto].
  - destruct (pulled_twin _ _ _ _ (NextPacket_pulled _ _ _ _ Hn) p o' eq_refl Hs)
      as (p' & oa' & Hn' & He & Hsa).
    destruct (IH oa' Hsa) as (ps' & o1' & Hp' & Hm & Hs1).
    exists (p' :: ps'), o1'. split; [eapply pulls_cons; eauto|].
    cbn [map]. rewrite He, Hm. auto.
Qed.

Lemma sim_new s s' : twin s s' -> sim (OGG.NewOggReader s) (OGG.NewOggReader s').
Proof. intros H. repeat split; auto. discriminate. Qed.

(** X19: the serial number, the sequence number and the checksum of a
    page header are stored and never looked at.  On two streams that
    differ only in these fields of page headers, the calls that return
    a packet are the same calls, and they return the same bytes:
    whatever sequence of calls returns packets on the one stream
    returns packets with the same bytes on the other. *)
Theorem X19_checksum_is_not_verified g s s' :
  twin s s' ->
  (forall ps o, pulls g (OGG.NewOggReader s) ps o ->
     exists ps' o', pulls g (OGG.NewOggReader s') ps' o' /\
                    map elems ps' = map elems ps) /\
  (forall ps' o', pulls g (OGG.NewOggReader s') ps' o' ->
     exists ps o, pulls g (OGG.NewOggReader s) ps o /\
                  map elems ps = map elems ps').
Proof.
  intros Ht. split.
  - intros ps o Hp.
    destruct (pulls_twin _ _ _ _ Hp _ (sim_new _ _ Ht)) as (ps' & o' & H & Hm & _).
    eauto.
  - intros ps' o' Hp.
    destruct (pulls_twin _ _ _ _ Hp _ (sim_new _ _ (twin_sym _ _ Ht))) as (ps & o & H & Hm & _).
    eauto.
Qed.

(** Both headers of the sample stream changed in these fields: the two
    calls return the same two packets. *)
Lemma X19_checksum_is_not_verified_witness :
  exists ps o ps' o',
    pulls g0 (OGG.NewOggReader demo_stream2) ps o /\ length ps = 2%nat /\
    pulls g0 (OGG.NewOggReader demo_stream2_checked) ps' o' /\
    map elems ps' = map elems ps.
Proof.
  destruct (OGG.NextPacket g0 (OGG.NewOggReader demo_stream2)) as [r1 o1] eqn:E1.
  assert (Hr1 : exists p1, r1 = Ok p1).
  { apply (f_equal fst) in E1. vm_compute in E1. eexists. symmetry. exact E1. }
  destruct Hr1 as [p1 ->].
  assert (Ho1 : o1 = snd (OGG.NextPacket g0 (OGG.NewOggReader demo_stream2)))
    by (rewrite E1; reflexivity).
  destruct (OGG.NextPacket g0 o1) as [r2 o2] eqn:E2.
  assert (Hr2 : exists p2, r2 = Ok p2).
  { apply (f_equal fst) in E2. rewrite Ho1 in E2. vm_compute in E2.
    eexists. symmetry. exact E2. }
  destruct Hr2 as [p2 ->].
  assert (Hp : pulls g0 (OGG.NewOggReader demo_stream2) [p1; p2] o2).
  { eapply pulls_cons; [exact E1|]. eapply pulls_cons; [exact E2 | apply pulls_nil]. }
  assert (Ht : twin demo_stream2 demo_stream2_checked).
  { refine (twin_page (take 27 demo_stream2) demo_checked
              ([xff]%byte ++ replicate 255 x07) _
              (drop 283 demo_stream2) (demo_checked2 ++ [x02; x01; x08; x09; x0a]%byte)
              _ _ _).
    - repeat split.
    - vm_compute. reflexivity.
    - refine (twin_head (take 27 (drop 283 demo_stream2)) demo_checked2
                [x02; x01; x08; x09; x0a]%byte _).
      repeat split. }
  destruct (proj1 (X19_checksum_is_not_verified g0 _ _ Ht) _ _ Hp) as (ps' & o' & Hp' & Hm).
  exists [p1; p2], o2, ps', o'. auto.
Defined.
